(** * BayesFlow benchmark task [gaussian_linear_uniform]

    A shallow embedding of [src/bayesflow/benchmarks/gaussian_linear_uniform.py]
    ([prior], [observation_model], [simulator]) together with the part of
    NumPy the three functions call: [Generator.uniform], [Generator.normal]
    (with the checks [np.empty] makes on the size of their output),
    [np.transpose], [ndarray.shape] and [np.random.default_rng].

    - Scalars are the elements of a [Double] structure.  Two instances are
      given: [binary64] (IEEE-754 double precision, round to nearest even,
      through the Standard Library's [SpecFloat]) which is what NumPy
      computes with, and [exactQ] (rationals, no rounding, no overflow) for
      the idealised reading of a bound.  What does not depend on the
      arithmetic is proved for every [Double] structure.
    - An [ndarray] is a descriptor (buffer, offset, shape, strides) over a
      store of buffers, as in NumPy: broadcasting is a stride of 0, a
      transposition permutes shape and strides and shares the buffer.
    - A [Generator] is a mutable object of the store; drawing advances it.
    - Python exceptions are values of [exn]; every operation is a function
      [world -> (exn + A) * world]. *)

From Stdlib Require Import ZArith QArith Lia Lqa.
From Stdlib Require Import Floats.SpecFloat.
From stdpp Require Import base option list gmap strings.

Local Open Scope nat_scope.

(** ** Scalars *)

Class Double (F : Type) := {
  fadd : F → F → F;
  fsub : F → F → F;
  fmul : F → F → F;
  fleb : F → F → bool;
  fltb : F → F → bool;
  fisnan : F → bool;
  fisfinite : F → bool;
  fsignbit : F → bool;
  (** the value denoted by a decimal literal of the source, e.g. [0.1] *)
  flit : Q → F
}.

Module Binary64.
Definition prec : Z := 53.
Definition emax : Z := 1024.

Definition add := SFadd prec emax.
Definition sub := SFsub prec emax.
Definition mul := SFmul prec emax.
Definition div := SFdiv prec emax.

Definition isnan (x : spec_float) : bool :=
  match x with S754_nan => true | _ => false end.

Definition isfinite (x : spec_float) : bool :=
  match x with S754_zero _ | S754_finite _ _ _ => true | _ => false end.

Definition signbit (x : spec_float) : bool :=
  match x with
  | S754_zero s | S754_infinity s | S754_finite s _ _ => s
  | S754_nan => false
  end.

Definition of_Z (z : Z) : spec_float := binary_normalize prec emax z 0 false.

(** A literal [n/d] with [|n|, d < 2^53] is the correctly rounded
    quotient of two exactly represented integers. *)
Definition lit (q : Q) : spec_float := div (of_Z (Qnum q)) (of_Z (Zpos (Qden q))).
End Binary64.

#[export] Instance binary64 : Double spec_float := {
  fadd := Binary64.add;
  fsub := Binary64.sub;
  fmul := Binary64.mul;
  fleb := SFleb;
  fltb := SFltb;
  fisnan := Binary64.isnan;
  fisfinite := Binary64.isfinite;
  fsignbit := Binary64.signbit;
  flit := Binary64.lit
}.

Definition Qltb (x y : Q) : bool := negb (Qle_bool y x).

#[export] Instance exactQ : Double Q := {
  fadd := Qplus;
  fsub := Qminus;
  fmul := Qmult;
  fleb := Qle_bool;
  fltb := Qltb;
  fisnan := λ _, false;
  fisfinite := λ _, true;
  fsignbit := λ x, Qltb x 0;
  flit := λ q, q
}.


(** ** Values and rounding of doubles

    The notions the proofs about [binary64] arithmetic are stated with. *)

Section RoundingVocabulary.
Local Open Scope Z_scope.

(** The value of a double, times [2^2148]: an integer, also for the exact
    product of two doubles. *)
Definition Fv (x : spec_float) : Z :=
  match x with
  | S754_finite s m e => cond_Zopp s (Zpos m) * 2 ^ (e + 2148)
  | _ => 0
  end.

(** A zero, or a finite double in canonical form. *)
Definition fin_valid (x : spec_float) : bool :=
  match x with
  | S754_zero _ => true
  | S754_finite _ m e => bounded Binary64.prec Binary64.emax m e
  | _ => false
  end.

(** The state of [shr] after [k] one-bit shifts of the mantissa [X]. *)
Definition shr_inv (X k : Z) (mrs : shr_record) : Prop :=
  ∃ rem, 0 ≤ rem < 2 ^ k ∧ X = shr_m mrs * 2 ^ k + rem ∧ 0 ≤ shr_m mrs ∧
         (shr_r mrs = true ↔ 2 ^ k ≤ 2 * rem) ∧
         (shr_s mrs = true ↔ rem ≠ 0 ∧ 2 * rem ≠ 2 ^ k).

(** [R] is the rounding of the positive exact value [V / 2^2148] with
    sign [s]; [e'] is the exponent of the result before a carry. *)
Definition rounds (s : bool) (V e' : Z) (R : spec_float) : Prop :=
  ∃ q m2,
    -1074 ≤ e' ∧ 0 ≤ q < 2 ^ 53 ∧ (-1074 < e' → 2 ^ 52 ≤ q) ∧
    q * 2 ^ (e' + 2148) ≤ V < (q + 1) * 2 ^ (e' + 2148) ∧
    (m2 = q ∨ m2 = q + 1 ∧ q * 2 ^ (e' + 2148) < V) ∧
    2 * Z.abs (m2 * 2 ^ (e' + 2148) - V) ≤ 2 ^ (e' + 2148) ∧
    ((m2 = 0 ∧ R = S754_zero s) ∨
     (0 < m2 ∧ (971 < e' ∨ m2 = 2 ^ 53 ∧ 970 < e') ∧ R = S754_infinity s) ∨
     (∃ m3 e3,
        R = S754_finite s m3 e3 ∧ bounded Binary64.prec Binary64.emax m3 e3 = true ∧
        Zpos m3 * 2 ^ (e3 + 2148) = m2 * 2 ^ (e' + 2148))).

End RoundingVocabulary.

(** ** Random sources *)

(** [next_double] is the bit generator's uniform draw on [0, 1),
    [random_standard_normal] its standard normal draw, [os_seed] the
    seeding of a fresh generator from the operating system's entropy. *)
Class BitGen (F G E : Type) := {
  next_double : G → F * G;
  random_standard_normal : G → F * G;
  os_seed : E → G * E
}.

(** ** Exceptions *)

Inductive exn :=
  | ValueError (msg : string)
  | IndexError (msg : string)
  | OverflowError (msg : string)
  (** a reference that no caller can build: unknown object, read outside
      a buffer *)
  | InvalidReference.

(** ** Arrays *)

Record ndarray := NDArray {
  nd_base : nat;
  nd_offset : Z;
  nd_shape : list nat;
  nd_strides : list Z
}.

Definition ndim (a : ndarray) : nat := length (nd_shape a).

(** Number of elements of a shape. *)
Definition size_of (sh : list nat) : nat := foldr Nat.mul 1 sh.

(** Strides (in elements) of a freshly allocated, C-contiguous array. *)
Fixpoint c_strides (sh : list nat) : list Z :=
  match sh with
  | [] => []
  | _ :: sh' => Z.of_nat (size_of sh') :: c_strides sh'
  end.

(** Addresses of the elements of a view, in C (row-major) order. *)
Fixpoint nd_addrs (sh : list nat) (st : list Z) (off : Z) : list Z :=
  match sh, st with
  | [], _ => [off]
  | n :: sh', s :: st' =>
      flat_map (λ i, nd_addrs sh' st' (off + Z.of_nat i * s)%Z) (seq 0 n)
  | _ :: _, [] => []
  end.

(** Address of the element at a multi-index; [None] out of bounds. *)
Fixpoint nd_addr (sh : list nat) (st : list Z) (off : Z) (idx : list nat) : option Z :=
  match sh, st, idx with
  | [], _, [] => Some off
  | n :: sh', s :: st', i :: idx' =>
      if i <? n then nd_addr sh' st' (off + Z.of_nat i * s)%Z idx' else None
  | _, _, _ => None
  end.

(** Strides that make a view of shape [sh] read as shape [dst]
    (NumPy's broadcasting: axes are aligned from the last one, a missing
    or length-1 axis is repeated with stride 0).  The three lists are
    given innermost axis first. *)
Fixpoint bstrides_rev (sh : list nat) (st : list Z) (dst : list nat) : option (list Z) :=
  match dst, sh, st with
  | [], [], _ => Some []
  | [], _ :: _, _ => None
  | _ :: dst', [], _ => (0%Z ::.) <$> bstrides_rev [] [] dst'
  | n :: dst', m :: sh', s :: st' =>
      if m =? n then (s ::.) <$> bstrides_rev sh' st' dst'
      else if m =? 1 then (0%Z ::.) <$> bstrides_rev sh' st' dst'
      else None
  | _ :: _, _ :: _, [] => None
  end.

Definition broadcast_strides (sh : list nat) (st : list Z) (dst : list nat) : option (list Z) :=
  reverse <$> bstrides_rev (reverse sh) (reverse st) (reverse dst).

(** Position of a multi-index in the C-order enumeration of a shape. *)
Fixpoint ravel (sh : list nat) (idx : list nat) : nat :=
  match sh, idx with
  | _ :: sh', i :: idx' => i * size_of sh' + ravel sh' idx'
  | _, _ => 0
  end.

Section Model.
Context {F G E : Type} `{!Double F} `{!BitGen F G E}.

(** ** The store *)

Record world := World {
  bufs : gmap nat (list F);
  gens : gmap nat G;
  entropy : E
}.

Definition M (A : Type) : Type := world → (exn + A) * world.

Definition ret {A} (x : A) : M A := λ w, (inr x, w).

Definition bind {A B} (m : M A) (k : A → M B) : M B :=
  λ w, match m w with
       | (inr x, w') => k x w'
       | (inl e, w') => (inl e, w')
       end.

Definition raise {A} (e : exn) : M A := λ w, (inl e, w).

(** A computation that does not touch the store. *)
Definition lift {A} (r : exn + A) : M A := λ w, (r, w).

Notation "'do' x <- m ; k" := (bind m (λ x, k))
  (at level 10, x name, m at level 100, k at level 200).

Definition get_gen (r : nat) : M G :=
  λ w, match gens w !! r with
       | Some g => (inr g, w)
       | None => (inl InvalidReference, w)
       end.

Definition put_gen (r : nat) (g : G) : M unit :=
  λ w, (inr tt, World (bufs w) (<[r := g]> (gens w)) (entropy w)).

Definition get_buf (b : nat) : M (list F) :=
  λ w, match bufs w !! b with
       | Some data => (inr data, w)
       | None => (inl InvalidReference, w)
       end.

Definition read (data : list F) (a : Z) : option F :=
  if (0 <=? a)%Z then data !! Z.to_nat a else None.

Definition read_all (data : list F) (addrs : list Z) : exn + list F :=
  match mapM (read data) addrs with
  | Some xs => inr xs
  | None => inl InvalidReference
  end.

(** A new C-contiguous array owning a fresh buffer. *)
Definition np_new (sh : list nat) (data : list F) : M ndarray :=
  λ w, let b := fresh (dom (bufs w)) in
       (inr (NDArray b 0 sh (c_strides sh)),
        World (<[b := data]> (bufs w)) (gens w) (entropy w)).

(** The elements of an array in C order, and one element. *)
Definition nd_values (w : world) (a : ndarray) : option (list F) :=
  data ← bufs w !! nd_base a;
  mapM (read data) (nd_addrs (nd_shape a) (nd_strides a) (nd_offset a)).

Definition nd_get (w : world) (a : ndarray) (idx : list nat) : option F :=
  data ← bufs w !! nd_base a;
  addr ← nd_addr (nd_shape a) (nd_strides a) (nd_offset a) idx;
  read data addr.

(** ** NumPy *)

(** [np.random.default_rng()] *)
Definition default_rng : M nat :=
  λ w, let '(g, e) := os_seed (entropy w) in
       let r := fresh (dom (gens w)) in
       (inr r, World (bufs w) (<[r := g]> (gens w)) e).

(** [NPY_MAX_INTP], the largest array index, and the bytes of a double. *)
Definition intp_max : Z := 9223372036854775807.
Definition itemsize : Z := 8.

(** The loop of [PyArray_NewFromDescr] over the dimensions of a new
    array: an axis of length 0 is skipped, a negative one is refused, and
    the byte size of the other axes together must not pass
    [NPY_MAX_INTP]. *)
Fixpoint check_dims (nbytes : Z) (dims : list Z) : exn + unit :=
  match dims with
  | [] => inr tt
  | d :: dims' =>
      if (d =? 0)%Z then check_dims nbytes dims'
      else if (d <? 0)%Z then inl (ValueError "negative dimensions are not allowed")
      else if (intp_max <? nbytes * d)%Z
      then inl (ValueError "array is too big; `arr.size * arr.dtype.itemsize` is larger than the maximum possible size.")
      else check_dims (nbytes * d)%Z dims'
  end.

(** The shape of [np.empty(size, np.double)]: every dimension is first
    converted to an index ([ValueError] when it does not fit one), then
    checked by the loop above.  Whether the operating system then grants
    the memory is not decided by the code and is left out: an array that
    passes the checks is allocated. *)
Definition np_empty_shape (size : list Z) : exn + list nat :=
  if negb (forallb (λ n, (- intp_max - 1 <=? n) && (n <=? intp_max))%Z size)
  then inl (ValueError "Maximum allowed dimension exceeded")
  else match check_dims itemsize size with
       | inl e => inl e
       | inr _ => inr (Z.to_nat <$> size)
       end.

(** The shape of the output of a draw: [size], or the shape of the
    array argument when [size] is [None]. *)
Definition output_shape (loc : ndarray) (size : option (list Z)) : exn + list nat :=
  match size with
  | None => inr (nd_shape loc)
  | Some sz => np_empty_shape sz
  end.

(** The array argument read as the output shape.  NumPy raises
    [ValueError] both when the shapes cannot be broadcast and when the
    broadcast shape is not the requested [size]; the two are one case
    here. *)
Definition broadcast_to (loc : ndarray) (sh : list nat) : exn + list Z :=
  match broadcast_strides (nd_shape loc) (nd_strides loc) sh with
  | Some st => inr st
  | None => inl (ValueError "shape mismatch: objects cannot be broadcast to a single shape")
  end.

(** [check_constraint(val, name, CONS_NON_NEGATIVE)] *)
Definition non_negative (x : F) : bool := negb (negb (fisnan x) && fsignbit x).

(** [random_uniform] and [random_normal] of NumPy's [distributions.c] *)
Definition random_uniform (g : G) (lower range : F) : F * G :=
  let '(u, g') := next_double g in (fadd lower (fmul range u), g').

Definition random_normal (g : G) (loc scale : F) : F * G :=
  let '(z, g') := random_standard_normal g in (fadd loc (fmul scale z), g').

(** The filling loops of [cont]: [n] draws with scalar arguments, and one
    draw per element of a broadcast argument. *)
Fixpoint cont_scalar (f : G → F * G) (n : nat) (g : G) : list F * G :=
  match n with
  | 0 => ([], g)
  | S n' =>
      let '(x, g1) := f g in
      let '(xs, g2) := cont_scalar f n' g1 in
      (x :: xs, g2)
  end.

Fixpoint cont_broadcast (f : G → F → F * G) (args : list F) (g : G) : list F * G :=
  match args with
  | [] => ([], g)
  | a :: args' =>
      let '(x, g1) := f g a in
      let '(xs, g2) := cont_broadcast f args' g1 in
      (x :: xs, g2)
  end.

(** [rng.uniform(low=low, high=high, size=size)], scalar bounds, integer
    size: the checks of [Generator.uniform] and of [cont], then [size]
    calls of [random_uniform(state, low, high - low)]. *)
Definition Generator_uniform (rng : nat) (low high : F) (size : Z) : M ndarray :=
  let range := fsub high low in
  if negb (fisfinite range)
  then raise (OverflowError "high - low range exceeds valid bounds")
  else if negb (non_negative range) then raise (ValueError "high - low < 0")
  else
    do sh <- lift (np_empty_shape [size]);
    do g <- get_gen rng;
    let '(xs, g') := cont_scalar (λ g, random_uniform g low range) (size_of sh) g in
    do _ <- put_gen rng g';
    np_new sh xs.

(** [rng.normal(loc=loc, scale=scale, size=size)], array [loc], scalar
    [scale]: element [i] of the output, in C order, is
    [random_normal(state, loc_i, scale)] with [loc_i] the element of [loc]
    broadcast to the output shape.  (For a 0-d [loc] and no [size] NumPy
    returns a scalar, read here as a 0-d array.) *)
Definition Generator_normal (rng : nat) (loc : ndarray) (scale : F)
    (size : option (list Z)) : M ndarray :=
  if negb (non_negative scale) then raise (ValueError "scale < 0")
  else
    do sh <- lift (output_shape loc size);
    do st <- lift (broadcast_to loc sh);
    do data <- get_buf (nd_base loc);
    do locs <- lift (read_all data (nd_addrs sh st (nd_offset loc)));
    do g <- get_gen rng;
    let '(xs, g') := cont_broadcast (λ g l, random_normal g l scale) locs g in
    do _ <- put_gen rng g';
    np_new sh xs.

(** [np.transpose(a, axes)]: a view on the same buffer *)
Definition np_transpose (a : ndarray) (axes : list nat) : exn + ndarray :=
  match mapM (nd_shape a !!.) axes, mapM (nd_strides a !!.) axes with
  | Some sh, Some st =>
      if bool_decide (length axes = ndim a ∧ NoDup axes)
      then inr (NDArray (nd_base a) (nd_offset a) sh st)
      else inl (ValueError "axes don't match array")
  | _, _ => inl (ValueError "axis is out of bounds")
  end.

(** [a.shape[i]] *)
Definition shape_item (a : ndarray) (i : nat) : exn + Z :=
  match nd_shape a !! i with
  | Some n => inr (Z.of_nat n)
  | None => inl (IndexError "tuple index out of range")
  end.

(** ** The benchmark *)

(** [if rng is None: rng = np.random.default_rng()] *)
Definition rng_or_default (rng : option nat) : M nat :=
  match rng with
  | None => default_rng
  | Some r => ret r
  end.

(** [prior], source lines 11-35 *)
Definition prior (D : Z) (lower_bound upper_bound : F) (rng : option nat) : M ndarray :=
  do rng <- rng_or_default rng;
  Generator_uniform rng lower_bound upper_bound D.

(** [observation_model], source lines 38-74 *)
Definition observation_model (params : ndarray) (n_obs : option Z) (scale : F)
    (rng : option nat) : M ndarray :=
  do rng <- rng_or_default rng;
  match n_obs with
  | None => Generator_normal rng params scale None
  | Some n =>
      do s0 <- lift (shape_item params 0);
      do s1 <- lift (shape_item params 1);
      do x <- Generator_normal rng params scale (Some [n; s0; s1]);
      lift (np_transpose x [1; 0; 2])
  end.

(** Default arguments of the two signatures. *)
Definition default_D : Z := 10.
Definition default_lower_bound : F := flit (-1 # 1).
Definition default_upper_bound : F := flit (1 # 1).
Definition default_scale : F := flit (1 # 10).

(** [simulator], source lines 4-8 *)
Definition simulator : M (gmap string ndarray) :=
  do prior_draws <- prior default_D default_lower_bound default_upper_bound None;
  do observables <- observation_model prior_draws None default_scale None;
  ret (<["observables" := observables]> (<["parameters" := prior_draws]> ∅)).

(** ** Vocabulary of the statements *)

(** State of a source after [n] draws of [f], and the [n]-th draw
    (counted from 0). *)
Fixpoint advance (f : G → F * G) (n : nat) (g : G) : G :=
  match n with
  | 0 => g
  | S n' => advance f n' (f g).2
  end.

Definition nth_draw (f : G → F * G) (n : nat) (g : G) : F := (f (advance f n g)).1.

(** The generator a call draws from, and its state at the call: the
    caller's object, or the one [default_rng] is about to create. *)
Definition source_ref (w : world) (rng : option nat) : nat :=
  match rng with
  | Some r => r
  | None => fresh (dom (gens w))
  end.

Definition source_state (w : world) (rng : option nat) : option G :=
  match rng with
  | Some r => gens w !! r
  | None => Some (os_seed (entropy w)).1
  end.

(** The store once the source of the call exists. *)
Definition seeded (w : world) (rng : option nat) : world :=
  match rng with
  | Some _ => w
  | None =>
      World (bufs w) (<[fresh (dom (gens w)) := (os_seed (entropy w)).1]> (gens w))
            (os_seed (entropy w)).2
  end.


(** [lo <= x < hi], and a uniform draw of the bit generator's range. *)
Definition in_half_open (lo hi x : F) : bool := fleb lo x && fltb x hi.

Definition unit_draw (u : F) : bool := in_half_open (flit (0 # 1)) (flit (1 # 1)) u.

(** [lo <= x <= hi] *)
Definition in_closed (lo hi x : F) : bool := fleb lo x && fleb x hi.

(** A view whose elements can all be read. *)
Definition nd_valid (w : world) (a : ndarray) : Prop :=
  length (nd_strides a) = length (nd_shape a) ∧ is_Some (nd_values w a).

(** What a caller can observe of a returned array: shape and elements. *)
Definition observe (res : (exn + ndarray) * world) : exn + list nat * option (list F) :=
  match res with
  | (inl e, _) => inl e
  | (inr a, w) => inr (nd_shape a, nd_values w a)
  end.

(** Two arrays, each in its store, that are the same view of equal
    buffers, and two results that raise the same exception or return such
    arrays. *)
Definition same_array (w1 : world) (a1 : ndarray) (w2 : world) (a2 : ndarray) : Prop :=
  nd_shape a1 = nd_shape a2 ∧ nd_strides a1 = nd_strides a2 ∧
  nd_offset a1 = nd_offset a2 ∧ bufs w1 !! nd_base a1 = bufs w2 !! nd_base a2.

Definition same_result (res1 res2 : (exn + ndarray) * world) : Prop :=
  match res1, res2 with
  | (inl e1, _), (inl e2, _) => e1 = e2
  | (inr a1, w1), (inr a2, w2) => same_array w1 a1 w2 a2
  | _, _ => False
  end.

Definition observe_record (res : (exn + gmap string ndarray) * world)
    : exn + gmap string (list nat * option (list F)) :=
  match res with
  | (inl e, _) => inl e
  | (inr d, w) => inr ((λ a, (nd_shape a, nd_values w a)) <$> d)
  end.

End Model.

Arguments world : clear implicits.
Arguments M : clear implicits.

(** ** A concrete source, for the examples

    A counter that replays a table of four uniform and four normal
    values; every value is exact in [binary64]. *)

Definition table_double {F} `{!Double F} (n : nat) : F := flit (Z.of_nat (n mod 4) # 4).

Definition table_normal {F} `{!Double F} (n : nat) : F :=
  flit (nth (n mod 4) [1 # 2; -5 # 4; 0 # 1; 2 # 1]%Q (0 # 1)%Q).

#[export] Instance counter_gen {F} `{!Double F} : BitGen F nat nat := {
  next_double n := (table_double n, S n);
  random_standard_normal n := (table_normal n, S n);
  os_seed e := (3 * e + 1, S e)
}.

(** Stores for the examples: a 3 x 2 batch and a 2-vector (also read as a
    1 x 2 batch) over [binary64], and a generator about to draw 0.75. *)

Definition sample_batch : ndarray := NDArray 0 0 [3; 2] [2%Z; 1%Z].
Definition sample_vector : ndarray := NDArray 1 0 [2] [1%Z].
Definition sample_row : ndarray := NDArray 1 0 [1; 2] [2%Z; 1%Z].

Definition sample_world : world spec_float nat nat :=
  World {[ 0 := flit <$> [1 # 1; 2 # 1; 3 # 1; 4 # 1; 5 # 1; 6 # 1]%Q;
           1 := flit <$> [1 # 1; 2 # 1]%Q ]}
        {[ 0 := 3 ]} 5.

(** A store that shares with [sample_world] only the state of
    generator 0. *)
Definition sample_world_other : world spec_float nat nat :=
  World {[ 7 := flit <$> [9 # 1]%Q ]} {[ 0 := 3; 4 := 11 ]} 8.

(** The double that follows 1.0: [numpy.nextafter(1.0, 2.0)]. *)
Definition next_after_one : spec_float := S754_finite false 4503599627370497 (-52).

(** The largest double, [sys.float_info.max], and its opposite. *)
Definition max_double : spec_float := S754_finite false 9007199254740991 971.
Definition min_double : spec_float := S754_finite true 9007199254740991 971.

(** * Properties *)

(** ** Enumeration of a view *)

Section Enumeration.

Lemma flat_map_seq_length {A} (f : nat → list A) m s n :
  (∀ x, length (f x) = m) → length (flat_map f (seq s n)) = n * m.
Proof.
  intros Hlen. revert s. induction n as [|n IH]; intros s; simpl; [done|].
  by rewrite length_app, Hlen, IH.
Qed.

Lemma flat_map_seq_lookup {A} (f : nat → list A) m s n i r :
  (∀ x, length (f x) = m) → i < n → r < m →
  flat_map f (seq s n) !! (i * m + r) = f (s + i) !! r.
Proof.
  intros Hlen. revert s i. induction n as [|n IH]; intros s i Hi Hr; [lia|].
  simpl. destruct i as [|i].
  - rewrite Nat.add_0_r. simpl. apply lookup_app_l. by rewrite Hlen.
  - rewrite lookup_app_r by (rewrite Hlen; simpl; lia).
    rewrite Hlen. replace (S i * m + r - m) with (i * m + r) by (simpl; lia).
    rewrite IH by lia. by replace (S s + i) with (s + S i) by lia.
Qed.

Lemma nd_addrs_length sh : ∀ st off,
  length st = length sh → length (nd_addrs sh st off) = size_of sh.
Proof.
  induction sh as [|n sh IH]; intros st off Hst; [done|].
  destruct st as [|s st]; [done|]. simpl in *.
  rewrite flat_map_seq_length with (m := size_of sh); [done|].
  intros x. apply IH. lia.
Qed.

Lemma nd_addrs_lookup sh : ∀ st off idx a,
  length st = length sh →
  nd_addr sh st off idx = Some a →
  nd_addrs sh st off !! ravel sh idx = Some a.
Proof.
  induction sh as [|n sh IH]; intros st off idx a Hst Ha.
  - destruct idx; simpl in *; congruence.
  - destruct st as [|s st]; [done|]. destruct idx as [|i idx]; [done|].
    simpl in *. destruct (Nat.ltb_spec i n) as [Hi|]; [|done].
    assert (Hlen : ∀ x, length (nd_addrs sh st (off + Z.of_nat x * s)) = size_of sh)
      by (intros x; apply nd_addrs_length; lia).
    assert (Hr : ravel sh idx < size_of sh).
    { apply IH in Ha; [|lia]. apply lookup_lt_Some in Ha. by rewrite Hlen in Ha. }
    rewrite (flat_map_seq_lookup _ (size_of sh)); [|done..].
    apply IH; [lia|done].
Qed.

(** A leading axis of stride 0 repeats the addresses of the view. *)
Lemma nd_addrs_repeat k sh st off a :
  a ∈ nd_addrs (k :: sh) (0%Z :: st) off → a ∈ nd_addrs sh st off.
Proof.
  simpl. rewrite list_elem_of_In, in_flat_map. intros (j & _ & Hin).
  rewrite Z.mul_0_r, Z.add_0_r in Hin. by apply list_elem_of_In.
Qed.

Lemma bstrides_rev_self sh : ∀ st,
  length st = length sh → bstrides_rev sh st sh = Some st.
Proof.
  induction sh as [|n sh IH]; intros [|s st] Hst; simpl in *; try done.
  rewrite Nat.eqb_refl, IH by lia. done.
Qed.

Lemma broadcast_strides_self sh st :
  length st = length sh → broadcast_strides sh st sh = Some st.
Proof.
  intros Hst. unfold broadcast_strides.
  rewrite bstrides_rev_self by (by rewrite !length_reverse).
  simpl. by rewrite reverse_involutive.
Qed.

Lemma broadcast_strides_replicate N D s0 s1 k :
  broadcast_strides [N; D] [s0; s1] [k; N; D] = Some [0%Z; s0; s1].
Proof.
  unfold broadcast_strides. cbn. by rewrite !Nat.eqb_refl.
Qed.

End Enumeration.

(** ** Sizes [np.empty] accepts *)

Section Allocation.
Local Open Scope Z_scope.

Lemma nonempty_product_pos dims : 1 ≤ foldr (λ d a, Z.max 1 d * a) 1 dims.
Proof. induction dims as [|d dims IH]; simpl; [lia|nia]. Qed.

Lemma check_dims_fits dims : ∀ nbytes,
  0 < nbytes → Forall (λ d, 0 ≤ d) dims →
  nbytes * foldr (λ d a, Z.max 1 d * a) 1 dims ≤ intp_max →
  check_dims nbytes dims = inr tt.
Proof.
  induction dims as [|d dims IH]; intros nb Hnb Hpos Hfit; [done|].
  apply Forall_cons in Hpos as [Hd Hpos]. cbn [foldr] in Hfit. cbn [check_dims].
  pose proof (nonempty_product_pos dims) as Hrest.
  destruct (Z.eqb_spec d 0) as [->|Hne].
  - apply IH; try done. by rewrite Z.max_l, Z.mul_1_l in Hfit by lia.
  - destruct (Z.ltb_spec d 0); [lia|].
    rewrite Z.max_r in Hfit by lia.
    destruct (Z.ltb_spec intp_max (nb * d)) as [Hbig|_]; [exfalso; nia|].
    apply IH; [nia|done|]. by rewrite <- Z.mul_assoc.
Qed.

Lemma dims_in_range dims : ∀ c,
  1 ≤ c → Forall (λ d, 0 ≤ d) dims →
  c * foldr (λ d a, Z.max 1 d * a) 1 dims ≤ intp_max →
  forallb (λ n, (- intp_max - 1 <=? n) && (n <=? intp_max)) dims = true.
Proof.
  induction dims as [|d dims IH]; intros c Hc Hpos Hfit; [done|].
  apply Forall_cons in Hpos as [Hd Hpos]. cbn [foldr forallb] in *.
  pose proof (nonempty_product_pos dims) as Hrest.
  apply andb_true_iff. split.
  - apply andb_true_iff. unfold intp_max in *. split; [lia|].
    apply Z.leb_le. nia.
  - apply (IH (c * Z.max 1 d)); [nia|done|]. by rewrite <- Z.mul_assoc.
Qed.

(** An array of doubles with no negative dimension whose non-empty axes
    hold less than [2^63] bytes is accepted. *)
Lemma np_empty_shape_fits size :
  Forall (λ d, 0 ≤ d) size →
  itemsize * foldr (λ d a, Z.max 1 d * a) 1 size ≤ intp_max →
  np_empty_shape size = inr (Z.to_nat <$> size).
Proof.
  intros Hpos Hfit. unfold np_empty_shape.
  rewrite (dims_in_range size itemsize), (check_dims_fits size itemsize); done.
Qed.

Lemma np_empty_shape_vector D :
  0 ≤ D < 2 ^ 60 → np_empty_shape [D] = inr [Z.to_nat D].
Proof.
  intros HD. change (2 ^ 60) with 1152921504606846976 in HD.
  apply (np_empty_shape_fits [D]); [by repeat constructor; lia|].
  unfold itemsize, intp_max. simpl. lia.
Qed.

Lemma np_empty_shape_replicated k (N D : nat) :
  0 ≤ k →
  8 * Z.max 1 k * Z.max 1 (Z.of_nat N) * Z.max 1 (Z.of_nat D) < 2 ^ 63 →
  np_empty_shape [k; Z.of_nat N; Z.of_nat D] = inr [Z.to_nat k; N; D].
Proof.
  intros Hk Hfit. change (2 ^ 63) with 9223372036854775808 in Hfit.
  rewrite (np_empty_shape_fits [k; Z.of_nat N; Z.of_nat D]).
  - simpl. by rewrite !Nat2Z.id.
  - repeat constructor; lia.
  - unfold itemsize, intp_max. cbn [foldr]. rewrite Z.mul_1_r. lia.
Qed.

End Allocation.

(** ** Draws *)

Section Draws.
Context {F G E : Type} `{!Double F} `{!BitGen F G E}.

Lemma cont_scalar_length (f : G → F * G) n : ∀ g, length (cont_scalar f n g).1 = n.
Proof.
  induction n as [|n IH]; intros g; simpl; [done|].
  destruct (f g) as [x g1]. specialize (IH g1).
  destruct (cont_scalar f n g1); simpl in *. by rewrite IH.
Qed.

Lemma cont_scalar_state (f : G → F * G) n : ∀ g,
  (cont_scalar f n g).2 = advance f n g.
Proof.
  induction n as [|n IH]; intros g; simpl; [done|].
  destruct (f g) as [x g1]. specialize (IH g1).
  destruct (cont_scalar f n g1); simpl in *. done.
Qed.

Lemma cont_scalar_lookup (f : G → F * G) n : ∀ g i,
  i < n → (cont_scalar f n g).1 !! i = Some (nth_draw f i g).
Proof.
  induction n as [|n IH]; intros g i Hi; [lia|]. simpl.
  destruct (f g) as [x g1] eqn:Hf.
  destruct i as [|i].
  - destruct (cont_scalar f n g1); simpl. unfold nth_draw. simpl. by rewrite Hf.
  - specialize (IH g1 i ltac:(lia)).
    destruct (cont_scalar f n g1); simpl in *. rewrite IH.
    unfold nth_draw. simpl. by rewrite Hf.
Qed.

Lemma random_uniform_draw (g : G) low range :
  random_uniform g low range =
    (fadd low (fmul range (next_double g).1), (next_double g).2).
Proof. unfold random_uniform. by destruct (next_double g). Qed.

Lemma advance_uniform low range n : ∀ g : G,
  advance (λ g, random_uniform g low range) n g = advance next_double n g.
Proof.
  induction n as [|n IH]; intros g; simpl; [done|].
  by rewrite random_uniform_draw, IH.
Qed.

Lemma nth_draw_uniform low range n (g : G) :
  nth_draw (λ g, random_uniform g low range) n g =
    fadd low (fmul range (nth_draw next_double n g)).
Proof.
  unfold nth_draw. by rewrite advance_uniform, random_uniform_draw.
Qed.

Lemma cont_broadcast_length (f : G → F → F * G) args : ∀ g,
  length (cont_broadcast f args g).1 = length args.
Proof.
  induction args as [|a args IH]; intros g; simpl; [done|].
  destruct (f g a) as [x g1]. specialize (IH g1).
  destruct (cont_broadcast f args g1); simpl in *. by rewrite IH.
Qed.

Lemma random_normal_draw (g : G) loc scale :
  random_normal g loc scale =
    (fadd loc (fmul scale (random_standard_normal g).1), (random_standard_normal g).2).
Proof. unfold random_normal. by destruct (random_standard_normal g). Qed.

Lemma cont_broadcast_normal_state scale args : ∀ g : G,
  (cont_broadcast (λ g l, random_normal g l scale) args g).2 =
    advance random_standard_normal (length args) g.
Proof.
  induction args as [|a args IH]; intros g; simpl; [done|].
  rewrite random_normal_draw. specialize (IH (random_standard_normal g).2).
  destruct (cont_broadcast _ args _); simpl in *. done.
Qed.

Lemma cont_broadcast_normal_lookup scale args : ∀ (g : G) i l,
  args !! i = Some l →
  (cont_broadcast (λ g l, random_normal g l scale) args g).1 !! i =
    Some (fadd l (fmul scale (nth_draw random_standard_normal i g))).
Proof.
  induction args as [|a args IH]; intros g i l Hl; [done|]. simpl.
  rewrite random_normal_draw.
  destruct i as [|i]; simpl in Hl.
  - destruct (cont_broadcast _ args _); simpl. by injection Hl as ->.
  - specialize (IH (random_standard_normal g).2 i l Hl).
    destruct (cont_broadcast _ args _); simpl in *. by rewrite IH.
Qed.

End Draws.

(** ** One call, step by step *)

Section Runs.
Context {F G E : Type} `{!Double F} `{!BitGen F G E}.
Implicit Types (w : world F G E) (a params : ndarray) (rng : option nat).

Lemma rng_or_default_run w rng :
  rng_or_default rng w = (inr (source_ref w rng), seeded w rng).
Proof.
  destruct rng as [r|]; [done|]. unfold rng_or_default, default_rng. simpl.
  by destruct (os_seed (entropy w)).
Qed.

Lemma seeded_bufs w rng : bufs (seeded w rng) = bufs w.
Proof. by destruct rng. Qed.

Lemma seeded_source w rng g :
  source_state w rng = Some g → gens (seeded w rng) !! source_ref w rng = Some g.
Proof.
  destruct rng as [r|]; simpl; [done|]. intros [= <-]. apply lookup_insert_eq.
Qed.

Lemma Generator_uniform_run w r low high size g :
  fisfinite (fsub high low) = true →
  non_negative (fsub high low) = true →
  (0 ≤ size < 2 ^ 60)%Z →
  gens w !! r = Some g →
  Generator_uniform r low high size w =
    (inr (NDArray (fresh (dom (bufs w))) 0 [Z.to_nat size] [1%Z]),
     World
       (<[fresh (dom (bufs w)) :=
            (cont_scalar (λ g, random_uniform g low (fsub high low)) (Z.to_nat size) g).1]>
          (bufs w))
       (<[r := advance next_double (Z.to_nat size) g]> (gens w))
       (entropy w)).
Proof.
  intros Hfin Hpos Hsize Hg. unfold Generator_uniform.
  rewrite Hfin, Hpos. simpl. unfold bind, lift, get_gen.
  rewrite (np_empty_shape_vector size Hsize), Hg. simpl.
  rewrite Nat.mul_1_r.
  pose proof (cont_scalar_state (λ g, random_uniform g low (fsub high low))
                (Z.to_nat size) g) as Hst.
  destruct (cont_scalar _ _ g) as [xs g'] eqn:Hc. simpl in *.
  unfold put_gen, np_new. simpl. by rewrite Hst, advance_uniform.
Qed.

Lemma Generator_normal_run w r loc scale size sh st data locs g :
  non_negative scale = true →
  output_shape loc size = inr sh →
  broadcast_strides (nd_shape loc) (nd_strides loc) sh = Some st →
  bufs w !! nd_base loc = Some data →
  mapM (read data) (nd_addrs sh st (nd_offset loc)) = Some locs →
  gens w !! r = Some g →
  Generator_normal r loc scale size w =
    (inr (NDArray (fresh (dom (bufs w))) 0 sh (c_strides sh)),
     World
       (<[fresh (dom (bufs w)) :=
            (cont_broadcast (λ g l, random_normal g l scale) locs g).1]> (bufs w))
       (<[r := advance random_standard_normal (length locs) g]> (gens w))
       (entropy w)).
Proof.
  intros Hpos Hsh Hst Hdata Hlocs Hg. unfold Generator_normal.
  rewrite Hpos. simpl. unfold bind, lift, broadcast_to, get_buf, read_all, get_gen.
  rewrite Hsh, Hst, Hdata, Hlocs, Hg.
  pose proof (cont_broadcast_normal_state scale locs g) as Hadv.
  destruct (cont_broadcast _ locs g) as [xs g'] eqn:Hc. simpl in *.
  unfold put_gen, np_new. simpl. by rewrite Hadv.
Qed.

Lemma nd_valid_inv w a :
  nd_valid w a →
  ∃ data vals,
    bufs w !! nd_base a = Some data ∧
    mapM (read data) (nd_addrs (nd_shape a) (nd_strides a) (nd_offset a)) = Some vals.
Proof.
  intros [_ [vals Hv]]. unfold nd_values in Hv.
  destruct (bufs w !! nd_base a) as [data|]; [|done]. simpl in Hv. eauto.
Qed.

Lemma read_of_nat (data : list F) (z : Z) n :
  z = Z.of_nat n → read data z = data !! n.
Proof.
  intros ->. unfold read.
  by rewrite (proj2 (Z.leb_le 0 _) (Nat2Z.is_nonneg _)), Nat2Z.id.
Qed.

Lemma mapM_read_lookup (data : list F) addrs vals n (z : Z) :
  mapM (read data) addrs = Some vals →
  addrs !! n = Some z →
  ∃ p, read data z = Some p ∧ vals !! n = Some p.
Proof.
  intros Hm Ha. apply mapM_Some_1 in Hm.
  destruct (Forall2_lookup_l _ _ _ _ _ Hm Ha) as (p & Hp & Hr). eauto.
Qed.

End Runs.

Section ObservationModel.
Context {F G E : Type} `{!Double F} `{!BitGen F G E}.
Implicit Types (w : world F G E) (a params : ndarray) (rng : option nat).

Lemma observation_model_replicated_run w b0 off N D s0 s1 k scale rng g data vals :
  bufs w !! b0 = Some data →
  mapM (read data) (nd_addrs [N; D] [s0; s1] off) = Some vals →
  source_state w rng = Some g →
  non_negative scale = true →
  (0 ≤ k)%Z →
  (8 * Z.max 1 k * Z.max 1 (Z.of_nat N) * Z.max 1 (Z.of_nat D) < 2 ^ 63)%Z →
  ∃ locs,
    mapM (read data) (nd_addrs [Z.to_nat k; N; D] [0%Z; s0; s1] off) = Some locs ∧
    observation_model (NDArray b0 off [N; D] [s0; s1]) (Some k) scale rng w =
      (inr (NDArray (fresh (dom (bufs w))) 0 [N; Z.to_nat k; D]
              [Z.of_nat (size_of [D]); Z.of_nat (size_of [N; D]); 1%Z]),
       World
         (<[fresh (dom (bufs w)) :=
              (cont_broadcast (λ g l, random_normal g l scale) locs g).1]> (bufs w))
         (<[source_ref w rng := advance random_standard_normal (length locs) g]>
            (gens (seeded w rng)))
         (entropy (seeded w rng))).
Proof.
  intros Hdata Hvals Hg Hpos Hk Hfit.
  assert (is_Some (mapM (read data) (nd_addrs [Z.to_nat k; N; D] [0%Z; s0; s1] off)))
    as [locs Hlocs].
  { apply mapM_is_Some_2, Forall_forall. intros z Hz%nd_addrs_repeat.
    assert (is_Some (mapM (read data) (nd_addrs [N; D] [s0; s1] off))) as Hs by eauto.
    apply mapM_is_Some_1 in Hs. by eapply Forall_forall in Hs. }
  exists locs. split; [done|].
  unfold observation_model. unfold bind at 1. rewrite rng_or_default_run.
  unfold bind at 1. unfold lift at 1. simpl.
  unfold bind at 1. unfold lift at 1. simpl.
  unfold bind at 1.
  erewrite Generator_normal_run with (sh := [Z.to_nat k; N; D]); try done.
  - unfold lift, np_transpose. simpl. rewrite seeded_bufs. done.
  - unfold output_shape. by apply np_empty_shape_replicated.
  - apply broadcast_strides_replicate.
  - by rewrite seeded_bufs.
  - by apply seeded_source.
Qed.

Lemma observation_model_single_run w params scale rng g data vals :
  length (nd_strides params) = length (nd_shape params) →
  bufs w !! nd_base params = Some data →
  mapM (read data) (nd_addrs (nd_shape params) (nd_strides params) (nd_offset params))
    = Some vals →
  source_state w rng = Some g →
  non_negative scale = true →
  observation_model params None scale rng w =
    (inr (NDArray (fresh (dom (bufs w))) 0 (nd_shape params) (c_strides (nd_shape params))),
     World
       (<[fresh (dom (bufs w)) :=
            (cont_broadcast (λ g l, random_normal g l scale) vals g).1]> (bufs w))
       (<[source_ref w rng := advance random_standard_normal (length vals) g]>
          (gens (seeded w rng)))
       (entropy (seeded w rng))).
Proof.
  intros Hst Hdata Hvals Hg Hpos.
  unfold observation_model. unfold bind at 1. rewrite rng_or_default_run.
  erewrite Generator_normal_run with (sh := nd_shape params); try done.
  - by rewrite seeded_bufs.
  - by apply broadcast_strides_self.
  - by rewrite seeded_bufs.
  - by apply seeded_source.
Qed.

(** A 1-D array has no [shape[1]]: the size tuple of the replicated draw
    cannot be built. *)
Lemma observation_model_vector_replicated w params D k scale rng :
  nd_shape params = [D] →
  observation_model params (Some k) scale rng w =
    (inl (IndexError "tuple index out of range"), seeded w rng).
Proof.
  intros Hsh. unfold observation_model. unfold bind at 1.
  rewrite rng_or_default_run. unfold bind, lift, shape_item. by rewrite Hsh.
Qed.

Lemma nd_get_fresh (m : gmap nat (list F)) (gs : gmap nat G) (e : E) b o sh st xs idx :
  nd_get (World (<[b := xs]> m) gs e) (NDArray b o sh st) idx =
    nd_addr sh st o idx ≫= read xs.
Proof. unfold nd_get. simpl. by rewrite lookup_insert_eq. Qed.

Lemma nd_values_fresh (m : gmap nat (list F)) (gs : gmap nat G) (e : E) b o sh st xs :
  nd_values (World (<[b := xs]> m) gs e) (NDArray b o sh st) =
    mapM (read xs) (nd_addrs sh st o).
Proof. unfold nd_values. simpl. by rewrite lookup_insert_eq. Qed.

End ObservationModel.

(** ** Shapes and entries of the observations *)

Section Shapes.
Context {F G E : Type} `{!Double F} `{!BitGen F G E}.
Implicit Types (w : world F G E) (a params : ndarray) (rng : option nat).



(** C2.  Without [n_obs], the output for a batch of shape (N, D) has the
    shape of [params]: one observation per row, entry (i, d) being
    [params[i, d]] plus [scale] times draw number i D + d, and no
    replicate axis. *)
Theorem observation_model_single_shape w params N D scale rng g :
  nd_shape params = [N; D] →
  nd_valid w params →
  source_state w rng = Some g →
  non_negative scale = true →
  ∃ out w',
    observation_model params None scale rng w = (inr out, w') ∧
    nd_shape out = nd_shape params ∧
    ∀ i d, i < N → d < D →
      ∃ p, nd_get w params [i; d] = Some p ∧
           nd_get w' out [i; d] =
             Some (fadd p (fmul scale (nth_draw random_standard_normal (i * D + d) g))).
Proof.
  intros Hsh Hvalid Hg Hpos.
  destruct (nd_valid_inv _ _ Hvalid) as (data & vals & Hdata & Hvals).
  destruct Hvalid as [Hlen _].
  rewrite (observation_model_single_run w params scale rng g data vals) by done.
  eexists _, _. split; [done|]. split; [done|].
  destruct params as [b0 off sh st]. simpl in *. subst sh.
  destruct st as [|s0 [|s1 [|? ?]]]; try done. clear Hlen.
  intros i d Hi Hd.
  set (z := (off + Z.of_nat i * s0 + Z.of_nat d * s1)%Z).
  assert (Hz : nd_addrs [N; D] [s0; s1] off !! (i * D + d) = Some z).
  { replace (i * D + d) with (ravel [N; D] [i; d]) by (simpl; lia).
    apply nd_addrs_lookup; [done|]. simpl.
    by rewrite (proj2 (Nat.ltb_lt _ _) Hi), (proj2 (Nat.ltb_lt _ _) Hd). }
  destruct (mapM_read_lookup _ _ _ _ _ Hvals Hz) as (p & Hp & Hn).
  exists p. split.
  - unfold nd_get. simpl. rewrite Hdata. simpl.
    by rewrite (proj2 (Nat.ltb_lt _ _) Hi), (proj2 (Nat.ltb_lt _ _) Hd).
  - rewrite nd_get_fresh. simpl.
    rewrite (proj2 (Nat.ltb_lt _ _) Hi), (proj2 (Nat.ltb_lt _ _) Hd). simpl.
    rewrite (read_of_nat _ _ (i * D + d)) by lia.
    by apply cont_broadcast_normal_lookup.
Qed.


End Shapes.


Lemma observation_model_single_shape_witness :
  ∃ out w',
    observation_model sample_batch None (flit (1 # 10)) (Some 0) sample_world
      = (inr out, w') ∧
    nd_shape out = nd_shape sample_batch ∧
    ∀ i d, i < 3 → d < 2 →
      ∃ p, nd_get sample_world sample_batch [i; d] = Some p ∧
           nd_get w' out [i; d] =
             Some (fadd p (fmul (flit (1 # 10))
                     (nth_draw random_standard_normal (i * 2 + d) 3))).
Proof.
  apply (observation_model_single_shape sample_world sample_batch 3 2
           (flit (1 # 10)) (Some 0) 3).
  - reflexivity.
  - split; [reflexivity|]. vm_compute. eauto.
  - reflexivity.
  - reflexivity.
Defined.


(** ** Rank of the parameter argument *)

Section Ranks.
Context {F G E : Type} `{!Double F} `{!BitGen F G E}.
Implicit Types (w : world F G E) (a params : ndarray) (rng : option nat).

(** C5, as the code has it.  A 2-D batch (N, D) is accepted without
    [n_obs] and with every [n_obs = k > 0] that [np.empty] accepts (the
    non-empty axes of the (k, N, D) array of doubles hold less than
    [2^63] bytes); a 1-D vector of length D is accepted only without
    [n_obs], and gives a D-vector; a 1-D vector with [n_obs = k] raises
    [IndexError] (there is no [params.shape[1]]) before any draw. *)
Theorem observation_model_accepted_ranks w params scale rng g :
  nd_valid w params →
  source_state w rng = Some g →
  non_negative scale = true →
  (∀ N D n_obs,
     nd_shape params = [N; D] →
     (∀ k, n_obs = Some k →
        (0 < k)%Z ∧
        (8 * k * Z.max 1 (Z.of_nat N) * Z.max 1 (Z.of_nat D) < 2 ^ 63)%Z) →
     ∃ out w',
       observation_model params n_obs scale rng w = (inr out, w') ∧
       nd_shape out = match n_obs with
                      | None => [N; D]
                      | Some k => [N; Z.to_nat k; D]
                      end) ∧
  (∀ D,
     nd_shape params = [D] →
     (∃ out w',
        observation_model params None scale rng w = (inr out, w') ∧
        nd_shape out = [D]) ∧
     (∀ k, ∃ w',
        observation_model params (Some k) scale rng w =
          (inl (IndexError "tuple index out of range"), w') ∧
        gens w' !! source_ref w rng = Some g)).
Proof.
  intros Hvalid Hg Hpos.
  destruct (nd_valid_inv _ _ Hvalid) as (data & vals & Hdata & Hvals).
  destruct Hvalid as [Hlen _]. split.
  - intros N D n_obs Hsh Hk. destruct n_obs as [k|].
    + destruct params as [b0 off sh st]. simpl in *. subst sh.
      destruct st as [|s0 [|s1 [|? ?]]]; try done.
      destruct (observation_model_replicated_run w b0 off N D s0 s1 k scale rng g data vals)
        as (locs & _ & Hrun);
        [done..|destruct (Hk k eq_refl); lia
        |destruct (Hk k eq_refl); by rewrite Z.max_r by lia|].
      eexists _, _. split; [exact Hrun|done].
    + rewrite (observation_model_single_run w params scale rng g data vals) by done.
      eexists _, _. split; [done|]. by simpl.
  - intros D Hsh. split.
    + rewrite (observation_model_single_run w params scale rng g data vals) by done.
      eexists _, _. split; [done|]. by simpl.
    + intros k. rewrite (observation_model_vector_replicated w params D) by done.
      eexists. split; [done|]. by apply seeded_source.
Qed.

End Ranks.

Lemma observation_model_accepted_ranks_witness :
  (∀ N D n_obs,
     nd_shape sample_vector = [N; D] →
     (∀ k, n_obs = Some k →
        (0 < k)%Z ∧
        (8 * k * Z.max 1 (Z.of_nat N) * Z.max 1 (Z.of_nat D) < 2 ^ 63)%Z) →
     ∃ out w',
       observation_model sample_vector n_obs (flit (1 # 10)) (Some 0) sample_world
         = (inr out, w') ∧
       nd_shape out = match n_obs with
                      | None => [N; D]
                      | Some k => [N; Z.to_nat k; D]
                      end) ∧
  (∀ D,
     nd_shape sample_vector = [D] →
     (∃ out w',
        observation_model sample_vector None (flit (1 # 10)) (Some 0) sample_world
          = (inr out, w') ∧
        nd_shape out = [D]) ∧
     (∀ k, ∃ w',
        observation_model sample_vector (Some k) (flit (1 # 10)) (Some 0) sample_world =
          (inl (IndexError "tuple index out of range"), w') ∧
        gens w' !! source_ref sample_world (Some 0) = Some 3)).
Proof.
  apply (observation_model_accepted_ranks sample_world sample_vector
           (flit (1 # 10)) (Some 0) 3).
  - split; [reflexivity|]. vm_compute. eauto.
  - reflexivity.
  - reflexivity.
Defined.

(** The call of C5 on a 1-D vector: [observation_model(v, n_obs=3)] with
    [v] of length 2 does not complete. *)
Lemma observation_model_vector_replicated_fails :
  observation_model sample_vector (Some 3%Z) (flit (1 # 10)) (Some 0) sample_world
    = (inl (IndexError "tuple index out of range"), sample_world) ∧
  ¬ ∃ out w',
      observation_model sample_vector (Some 3%Z) (flit (1 # 10)) (Some 0) sample_world
        = (inr out, w').
Proof.
  rewrite (observation_model_vector_replicated sample_world sample_vector 2) by reflexivity.
  split; [reflexivity|]. intros (out & w' & Heq). discriminate Heq.
Qed.

(** ** The prior *)

Section Prior.
Context {F G E : Type} `{!Double F} `{!BitGen F G E}.
Implicit Types (w : world F G E) (rng : option nat).

Lemma nd_addrs_vector n s : 
  flat_map (λ i, [(0 + Z.of_nat i * 1)%Z]) (seq s n) = Z.of_nat <$> seq s n.
Proof.
  revert s. induction n as [|n IH]; intros s; simpl; [done|].
  rewrite IH. f_equal. lia.
Qed.

Lemma mapM_read_contiguous (xs : list F) :
  mapM (read xs) (nd_addrs [length xs] [1%Z] 0) = Some xs.
Proof.
  simpl. rewrite nd_addrs_vector. apply mapM_Some_2.
  apply Forall2_same_length_lookup_2.
  - by rewrite length_fmap, length_seq.
  - intros i z y Hz Hy. rewrite list_lookup_fmap in Hz.
    destruct (seq 0 (length xs) !! i) as [j|] eqn:Hj; [|done].
    apply lookup_seq in Hj as [-> _]. simpl in Hz. injection Hz as <-.
    by rewrite (read_of_nat _ _ i).
Qed.

Lemma prior_unfold w D lo hi rng :
  prior D lo hi rng w = Generator_uniform (source_ref w rng) lo hi D (seeded w rng).
Proof. unfold prior. unfold bind at 1. by rewrite rng_or_default_run. Qed.

(** The range check of [Generator.uniform] comes before anything else. *)
Lemma prior_overflow w D lo hi rng :
  fisfinite (fsub hi lo) = false →
  prior D lo hi rng w =
    (inl (OverflowError "high - low range exceeds valid bounds"), seeded w rng).
Proof. intros Hfin. rewrite prior_unfold. unfold Generator_uniform. by rewrite Hfin. Qed.

Lemma prior_run w D lo hi rng g :
  fisfinite (fsub hi lo) = true →
  non_negative (fsub hi lo) = true →
  (0 ≤ D < 2 ^ 60)%Z →
  source_state w rng = Some g →
  prior D lo hi rng w =
    (inr (NDArray (fresh (dom (bufs w))) 0 [Z.to_nat D] [1%Z]),
     World
       (<[fresh (dom (bufs w)) :=
            (cont_scalar (λ g, random_uniform g lo (fsub hi lo)) (Z.to_nat D) g).1]>
          (bufs w))
       (<[source_ref w rng := advance next_double (Z.to_nat D) g]> (gens (seeded w rng)))
       (entropy (seeded w rng))).
Proof.
  intros Hfin Hpos HD Hg. unfold prior. unfold bind at 1.
  rewrite rng_or_default_run.
  rewrite (Generator_uniform_run _ _ _ _ _ g) by (done || by apply seeded_source).
  by rewrite seeded_bufs.
Qed.

(** The elements of the vector [prior] returns. *)
Lemma prior_values w D lo hi rng g :
  fisfinite (fsub hi lo) = true →
  non_negative (fsub hi lo) = true →
  (0 ≤ D < 2 ^ 60)%Z →
  source_state w rng = Some g →
  ∃ p w' vals,
    prior D lo hi rng w = (inr p, w') ∧
    nd_shape p = [Z.to_nat D] ∧
    nd_values w' p = Some vals ∧
    length vals = Z.to_nat D ∧
    ∀ i, i < Z.to_nat D →
      vals !! i = Some (fadd lo (fmul (fsub hi lo) (nth_draw next_double i g))).
Proof.
  intros Hfin Hpos HD Hg. rewrite (prior_run w D lo hi rng g) by done.
  set (xs := (cont_scalar (λ g, random_uniform g lo (fsub hi lo)) (Z.to_nat D) g).1).
  assert (Hlen : length xs = Z.to_nat D) by apply cont_scalar_length.
  exists (NDArray (fresh (dom (bufs w))) 0 [Z.to_nat D] [1%Z]).
  eexists _, xs. split; [done|]. split; [done|]. split; [|split; [done|]].
  - rewrite nd_values_fresh, <- Hlen. apply mapM_read_contiguous.
  - intros i Hi. unfold xs. rewrite cont_scalar_lookup by done.
    by rewrite nth_draw_uniform.
Qed.

End Prior.

(** Exact arithmetic: the comparisons of [exactQ] and the range of
    [lo + (hi - lo) * u]. *)

Lemma Qltb_lt (x y : Q) : Qltb x y = true ↔ (x < y)%Q.
Proof.
  unfold Qltb. rewrite negb_true_iff. split.
  - intros Hb. apply Qnot_le_lt. intros Hle. apply Qle_bool_iff in Hle. congruence.
  - intros Hlt. destruct (Qle_bool y x) eqn:Hb; [|done].
    apply Qle_bool_iff in Hb. by apply Qlt_not_le in Hlt.
Qed.

Lemma exact_uniform_range (lo hi u : Q) :
  fltb lo hi = true → unit_draw u = true →
  in_half_open lo hi (fadd lo (fmul (fsub hi lo) u)) = true.
Proof.
  unfold unit_draw, in_half_open. simpl.
  rewrite !andb_true_iff, !Qltb_lt, !Qle_bool_iff.
  intros Hlt [H0 H1]. split; nra.
Qed.

(** ** Boundary cases in double precision *)

Section Boundary.
Context {G E : Type} `{!BitGen spec_float G E}.
Implicit Types (w : world spec_float G E) (rng : option nat).

Lemma lit_0 : flit (0 # 1) = S754_zero false.
Proof. by vm_compute. Qed.

Lemma lit_1 : flit (1 # 1) = S754_finite false 4503599627370496 (-52).
Proof. by vm_compute. Qed.

Lemma lit_2 : flit (2 # 1) = S754_finite false 4503599627370496 (-51).
Proof. by vm_compute. Qed.

(** [0.0 + (0.0 - 0.0) * u = 0.0] for every draw [u] of [0, 1). *)
Lemma degenerate_uniform (u : spec_float) :
  unit_draw u = true →
  fadd (flit (0 # 1)) (fmul (fsub (flit (0 # 1)) (flit (0 # 1))) u) = flit (0 # 1).
Proof.
  unfold unit_draw, in_half_open. rewrite lit_0, lit_1.
  destruct u as [[]|[]| |[] m e]; simpl; try done.
Qed.

(** [l + 0.0 * z = l] for a nonzero double [l] and a finite draw [z]. *)
Lemma zero_scale_normal (s : bool) (m : positive) (e : Z) (z : spec_float) :
  fisfinite z = true →
  fadd (S754_finite s m e) (fmul (flit (0 # 1)) z) = S754_finite s m e.
Proof.
  rewrite lit_0. destruct z as [[]|[]| |[] m' e']; simpl; try done.
Qed.

Lemma cont_broadcast_normal_fixed (scale : spec_float) args (g : G) :
  (∀ i l, args !! i = Some l →
     fadd l (fmul scale (nth_draw random_standard_normal i g)) = l) →
  (cont_broadcast (λ g l, random_normal g l scale) args g).1 = args.
Proof.
  intros Hfix. apply list_eq. intros i.
  destruct (args !! i) as [l|] eqn:Hl.
  - rewrite (cont_broadcast_normal_lookup scale args g i l Hl). by rewrite Hfix.
  - apply lookup_ge_None. rewrite cont_broadcast_length. by apply lookup_ge_None.
Qed.

Lemma nd_addrs_replicate k sh st off :
  nd_addrs (k :: sh) (0%Z :: st) off = concat (replicate k (nd_addrs sh st off)).
Proof.
  simpl. generalize 0 at 1. induction k as [|k IH]; intros s; simpl; [done|].
  by rewrite IH, Z.mul_0_r, Z.add_0_r.
Qed.

Lemma mapM_concat_replicate {A B} (f : A → option B) l v k :
  mapM f l = Some v → mapM f (concat (replicate k l)) = Some (concat (replicate k v)).
Proof.
  intros Hl. induction k as [|k IH]; simpl; [done|].
  apply mapM_Some_2, Forall2_app; by apply mapM_Some_1.
Qed.

(** C7.  With D = 2 and both bounds 0.0, [prior] returns [0.0, 0.0]
    whatever the source and its state, its draws being in [0, 1). *)
Theorem prior_degenerate_bounds w rng g :
  source_state w rng = Some g →
  (∀ i, i < 2 → unit_draw (nth_draw next_double i g) = true) →
  ∃ p w',
    prior 2 (flit (0 # 1)) (flit (0 # 1)) rng w = (inr p, w') ∧
    nd_shape p = [2] ∧
    nd_values w' p = Some [flit (0 # 1); flit (0 # 1)].
Proof.
  intros Hg Hu.
  destruct (prior_values w 2 (flit (0 # 1)) (flit (0 # 1)) rng g)
    as (p & w' & vals & Hrun & Hsh & Hv & Hlen & Hi); [by vm_compute..|done|].
  exists p, w'. split; [done|]. split; [done|]. rewrite Hv. f_equal.
  change (Z.to_nat 2) with 2 in *.
  destruct vals as [|a [|b [|? ?]]]; try done.
  pose proof (Hi 0 ltac:(lia)) as H0. pose proof (Hi 1 ltac:(lia)) as H1.
  change (Some a = Some (fadd (flit (0 # 1))
            (fmul (fsub (flit (0 # 1)) (flit (0 # 1))) (nth_draw next_double 0 g)))) in H0.
  change (Some b = Some (fadd (flit (0 # 1))
            (fmul (fsub (flit (0 # 1)) (flit (0 # 1))) (nth_draw next_double 1 g)))) in H1.
  apply (inj Some) in H0, H1. subst a b.
  by rewrite !degenerate_uniform by (apply Hu; lia).
Qed.

(** C8.  [observation_model(params=[[1.0, 2.0]], n_obs=3, scale=0.0)]
    returns [[[1.0, 2.0], [1.0, 2.0], [1.0, 2.0]]], of shape (1, 3, 2),
    whatever the source and its state, its six draws being finite. *)
Theorem observation_model_zero_scale w params rng g :
  nd_shape params = [1; 2] →
  nd_valid w params →
  nd_values w params = Some [flit (1 # 1); flit (2 # 1)] →
  source_state w rng = Some g →
  (∀ i, i < 6 → fisfinite (nth_draw random_standard_normal i g) = true) →
  ∃ out w',
    observation_model params (Some 3%Z) (flit (0 # 1)) rng w = (inr out, w') ∧
    nd_shape out = [1; 3; 2] ∧
    nd_values w' out =
      Some [flit (1 # 1); flit (2 # 1); flit (1 # 1); flit (2 # 1);
            flit (1 # 1); flit (2 # 1)].
Proof.
  intros Hsh Hvalid Hvals Hg Hz.
  destruct (nd_valid_inv _ _ Hvalid) as (data & vals & Hdata & Hvals').
  destruct Hvalid as [Hlen _].
  unfold nd_values in Hvals. rewrite Hdata in Hvals. simpl in Hvals.
  rewrite Hvals in Hvals'. injection Hvals' as <-.
  destruct params as [b0 off sh st]. simpl in *. subst sh.
  destruct st as [|s0 [|s1 [|? ?]]]; try done. clear Hlen.
  destruct (observation_model_replicated_run w b0 off 1 2 s0 s1 3 (flit (0 # 1)) rng g
              data [flit (1 # 1); flit (2 # 1)])
    as (locs & Hlocs & Hrun); [done|done|done|by vm_compute|lia|reflexivity|].
  rewrite nd_addrs_replicate in Hlocs.
  rewrite (mapM_concat_replicate _ _ _ _ Hvals) in Hlocs. injection Hlocs as <-.
  rewrite cont_broadcast_normal_fixed in Hrun.
  - eexists _, _. split; [exact Hrun|]. split; [done|].
    rewrite nd_values_fresh. by vm_compute.
  - intros i l Hl. assert (i < 6) as Hi by (by apply lookup_lt_Some in Hl).
    specialize (Hz i Hi).
    destruct i as [|[|[|[|[|[|i]]]]]]; simpl in Hl; try lia;
      injection Hl as <-; rewrite ?lit_1, ?lit_2; by apply zero_scale_normal.
Qed.

End Boundary.

(** ** Rounding in double precision *)

Section Rounding.
Local Open Scope Z_scope.

Lemma fexp_eq e : fexp Binary64.prec Binary64.emax e = Z.max (e - 53) (-1074).
Proof. reflexivity. Qed.

Lemma pow2_pos k : 0 ≤ k → 0 < 2 ^ k.
Proof. intros. by apply Z.pow_pos_nonneg. Qed.

Lemma pow2_succ k : 0 ≤ k → 2 ^ (k + 1) = 2 * 2 ^ k.
Proof. intros. rewrite Z.pow_add_r by lia. lia. Qed.

Lemma digits2_pos_bounds p :
  2 ^ (Zpos (digits2_pos p) - 1) ≤ Zpos p < 2 ^ Zpos (digits2_pos p).
Proof.
  induction p as [p IH|p IH|]; simpl digits2_pos.
  - rewrite Pos2Z.inj_succ. replace (Z.succ (Zpos (digits2_pos p)) - 1)
      with ((Zpos (digits2_pos p) - 1) + 1) by lia.
    unfold Z.succ. rewrite !pow2_succ by lia. lia.
  - rewrite Pos2Z.inj_succ. replace (Z.succ (Zpos (digits2_pos p)) - 1)
      with ((Zpos (digits2_pos p) - 1) + 1) by lia.
    unfold Z.succ. rewrite !pow2_succ by lia. lia.
  - simpl. lia.
Qed.

Lemma digits2_unique p d :
  2 ^ (d - 1) ≤ Zpos p < 2 ^ d → Zpos (digits2_pos p) = d.
Proof.
  intros [Hlo Hhi]. pose proof (digits2_pos_bounds p) as [Hlo' Hhi'].
  assert (0 < d).
  { destruct (Z.ltb_spec 0 d) as [|Hd]; [done|].
    destruct (Z.eq_dec d 0) as [->|]; [simpl in Hhi; lia|].
    rewrite Z.pow_neg_r in Hhi by lia. lia. }
  assert (Zpos (digits2_pos p) - 1 < d).
  { apply (Z.pow_lt_mono_r_iff 2); lia. }
  assert (d - 1 < Zpos (digits2_pos p)).
  { apply (Z.pow_lt_mono_r_iff 2); lia. }
  lia.
Qed.

(** Shifting a mantissa right keeps the quotient, the bit shifted out last and
    whether a lower bit was set. *)

Lemma iter_pos_iter {A} (f : A → A) p x : SpecFloat.iter_pos f p x = Pos.iter f x p.
Proof.
  revert x. induction p as [p IH|p IH|]; intros x; simpl.
  - rewrite !IH. by rewrite <- !Pos.iter_swap.
  - by rewrite !IH.
  - done.
Qed.


Lemma shr_inv_init X : 0 ≤ X → shr_inv X 0 (Build_shr_record X false false).
Proof.
  intros HX. exists 0. simpl. repeat split; try lia; try done.
  all: intros; lia.
Qed.

Ltac shr_fin Hrs :=
  intros; try lia; try (apply Hrs; lia); try (exfalso; lia);
  try (match goal with H : _ || _ = true |- _ => apply Hrs in H; lia end).

Lemma shr_1_inv X k mrs : 0 ≤ k → shr_inv X k mrs → shr_inv X (k + 1) (shr_1 mrs).
Proof.
  intros Hk (rem & Hrem & HX & Hm & Hr & Hs).
  pose proof (pow2_pos k Hk) as HP. unfold shr_inv. rewrite pow2_succ by done.
  destruct mrs as [m r s]. simpl in *.
  assert (Hrs : r || s = true ↔ rem ≠ 0).
  { rewrite orb_true_iff, Hr, Hs. lia. }
  destruct m as [|[p|p|]|p]; simpl; try lia.
  - exists rem. repeat split; try lia; try done; shr_fin Hrs.
  - exists (rem + 2 ^ k). repeat split; try lia; try done; shr_fin Hrs.
  - exists rem. repeat split; try lia; try done; shr_fin Hrs.
  - exists (rem + 2 ^ k). repeat split; try lia; try done; shr_fin Hrs.
Qed.

Lemma shr_iter_inv X p :
  0 ≤ X → shr_inv X (Zpos p) (SpecFloat.iter_pos shr_1 p (Build_shr_record X false false)).
Proof.
  intros HX. rewrite iter_pos_iter. induction p as [|p IH] using Pos.peano_ind.
  - exact (shr_1_inv X 0 _ ltac:(lia) (shr_inv_init X HX)).
  - rewrite Pos.iter_succ, Pos2Z.inj_succ. apply (shr_1_inv X (Zpos p)); [lia|done].
Qed.

Lemma round_nearest_even_spec X k mrs :
  0 ≤ k → shr_inv X k mrs →
  let q := shr_m mrs in
  let m2 := round_nearest_even q (loc_of_shr_record mrs) in
  0 ≤ q ∧ q * 2 ^ k ≤ X < (q + 1) * 2 ^ k ∧
  (m2 = q ∨ m2 = q + 1 ∧ q * 2 ^ k < X) ∧
  2 * Z.abs (m2 * 2 ^ k - X) ≤ 2 ^ k.
Proof.
  intros Hk (rem & Hrem & HX & Hm & Hr & Hs). pose proof (pow2_pos k Hk) as HP.
  destruct mrs as [m r s]. simpl in *.
  split; [done|]. split; [lia|].
  destruct r, s; simpl.
  - assert (2 ^ k ≤ 2 * rem) by (by apply Hr). assert (2 * rem ≠ 2 ^ k) by (by apply Hs).
    split; [right|]; lia.
  - assert (2 ^ k ≤ 2 * rem) by (by apply Hr).
    assert (¬ (rem ≠ 0 ∧ 2 * rem ≠ 2 ^ k)) by (rewrite <- Hs; done).
    destruct (Z.even m); (split; [(left; lia) || (right; lia)|lia]).
  - assert (¬ 2 ^ k ≤ 2 * rem) by (rewrite <- Hr; done).
    split; [left|]; lia.
  - assert (¬ 2 ^ k ≤ 2 * rem) by (rewrite <- Hr; done).
    assert (¬ (rem ≠ 0 ∧ 2 * rem ≠ 2 ^ k)) by (rewrite <- Hs; done).
    split; [left|]; lia.
Qed.


Lemma shr_fexp_exact_spec X ex :
  0 < X →
  ex ≤ fexp Binary64.prec Binary64.emax (Zdigits2 X + ex) →
  ∃ mrs, shr_fexp Binary64.prec Binary64.emax X ex loc_Exact = (mrs, fexp Binary64.prec Binary64.emax (Zdigits2 X + ex)) ∧
         shr_inv X (fexp Binary64.prec Binary64.emax (Zdigits2 X + ex) - ex) mrs.
Proof.
  intros HX Hle. unfold shr_fexp, shr. simpl shr_record_of_loc.
  destruct (fexp Binary64.prec Binary64.emax (Zdigits2 X + ex) - ex) as [|p|p] eqn:Hn; try lia.
  - eexists. split; [f_equal; lia|]. apply shr_inv_init. lia.
  - eexists. split; [f_equal; lia|]. apply shr_iter_inv. lia.
Qed.

Lemma bounded_inv m e :
  bounded Binary64.prec Binary64.emax m e = true →
  -1074 ≤ e ≤ 971 ∧ Zpos m < 2 ^ 53 ∧ (-1074 < e → 2 ^ 52 ≤ Zpos m).
Proof.
  unfold bounded, canonical_mantissa. rewrite andb_true_iff, Z.eqb_eq, Z.leb_le, fexp_eq.
  intros [Hc He]. change (Binary64.emax - Binary64.prec) with 971 in He.
  pose proof (digits2_pos_bounds m) as [Hlo Hhi].
  split; [lia|]. split.
  - eapply Z.lt_le_trans; [exact Hhi|]. apply Z.pow_le_mono_r; lia.
  - intros Hn. assert (Zpos (digits2_pos m) = 53) as Hd by lia.
    rewrite Hd in Hlo. exact Hlo.
Qed.

Lemma bounded_intro m e :
  -1074 ≤ e ≤ 971 → Zpos m < 2 ^ 53 → (-1074 < e → 2 ^ 52 ≤ Zpos m) →
  bounded Binary64.prec Binary64.emax m e = true.
Proof.
  intros He Hm Hn. unfold bounded, canonical_mantissa.
  rewrite andb_true_iff, Z.eqb_eq, Z.leb_le, fexp_eq. change (Binary64.emax - Binary64.prec) with 971.
  split; [|lia].
  pose proof (digits2_pos_bounds m) as [Hlo Hhi].
  assert (Zpos (digits2_pos m) ≤ 53).
  { assert (Zpos (digits2_pos m) - 1 < 53); [|lia].
    apply (Z.pow_lt_mono_r_iff 2); lia. }
  destruct (Z.eq_dec e (-1074)) as [->|]; [lia|].
  assert (Zpos (digits2_pos m) = 53); [|lia].
  apply digits2_unique. split; [apply Hn; lia|done].
Qed.

Lemma binary_round_aux_spec s px ex :
  let e' := fexp Binary64.prec Binary64.emax (Zpos (digits2_pos px) + ex) in
  ex ≤ e' →
  ∃ q m2,
    0 ≤ q ∧ q * 2 ^ (e' - ex) ≤ Zpos px < (q + 1) * 2 ^ (e' - ex) ∧
    (m2 = q ∨ m2 = q + 1 ∧ q * 2 ^ (e' - ex) < Zpos px) ∧
    2 * Z.abs (m2 * 2 ^ (e' - ex) - Zpos px) ≤ 2 ^ (e' - ex) ∧
    q < 2 ^ 53 ∧ (-1074 < e' → 2 ^ 52 ≤ q) ∧
    ((m2 = 0 ∧ binary_round_aux Binary64.prec Binary64.emax s (Zpos px) ex loc_Exact = S754_zero s) ∨
     (0 < m2 ∧ (971 < e' ∨ m2 = 2 ^ 53 ∧ 970 < e') ∧
      binary_round_aux Binary64.prec Binary64.emax s (Zpos px) ex loc_Exact = S754_infinity s) ∨
     (∃ m3 e3,
        binary_round_aux Binary64.prec Binary64.emax s (Zpos px) ex loc_Exact = S754_finite s m3 e3 ∧
        bounded Binary64.prec Binary64.emax m3 e3 = true ∧
        Zpos m3 * 2 ^ (e3 + 2148) = m2 * 2 ^ (e' + 2148))).
Proof.
  intros e' Hle.
  pose proof (shr_fexp_exact_spec (Zpos px) ex ltac:(lia)) as Hspec.
  simpl Zdigits2 in Hspec. fold e' in Hspec.
  destruct (Hspec Hle) as (mrs & Hshr & Hinv). clear Hspec.
  assert (Hedef : e' = Z.max (Zpos (digits2_pos px) + ex - 53) (-1074)) by reflexivity.
  clearbody e'.
  assert (He' : -1074 ≤ e') by lia.
  assert (Hk : 0 ≤ e' - ex) by lia.
  destruct (round_nearest_even_spec _ _ _ Hk Hinv) as (Hq & Hqx & Hm2 & Hnear).
  set (q := shr_m mrs) in *.
  set (m2 := round_nearest_even q (loc_of_shr_record mrs)) in *.
  pose proof (pow2_pos _ Hk) as HP.
  pose proof (digits2_pos_bounds px) as [Hdlo Hdhi].
  set (d := Zpos (digits2_pos px)) in *. clearbody d.
  assert (Hq53 : q < 2 ^ 53).
  { assert (2 ^ d ≤ 2 ^ (e' - ex) * 2 ^ 53).
    { rewrite <- Z.pow_add_r by lia. apply Z.pow_le_mono_r; lia. }
    nia. }
  assert (Hq52 : -1074 < e' → 2 ^ 52 ≤ q).
  { intros Hn. assert (e' = d + ex - 53) as Heq by lia.
    assert (2 ^ (d - 1) = 2 ^ (e' - ex) * 2 ^ 52) as Hpow.
    { rewrite <- Z.pow_add_r by lia. f_equal. lia. }
    nia. }
  exists q, m2. repeat (split; [done|]).
  unfold binary_round_aux. rewrite Hshr. fold q m2.
  assert (Hm2range : 0 ≤ m2 ≤ 2 ^ 53) by lia.
  destruct (Z.eq_dec m2 0) as [Hz|Hnz].
  { left. split; [done|]. rewrite Hz. unfold shr_fexp, shr.
    cbn [Zdigits2 shr_record_of_loc]. rewrite fexp_eq.
    match goal with |- context [match ?n with _ => _ end] =>
      destruct n eqn:Hn; try lia; done end. }
  right.
  destruct m2 as [|pm|pm] eqn:Hpm; try lia.
  pose proof (digits2_pos_bounds pm) as [Hd2lo Hd2hi].
  destruct (Z.eq_dec (Zpos pm) (2 ^ 53)) as [Hcarry|Hnc].
  - (* carry *)
    assert (Hd54 : Zpos (digits2_pos pm) = 54) by (apply digits2_unique; lia).
    unfold shr_fexp, shr. cbn [Zdigits2 shr_record_of_loc].
    rewrite Hd54, fexp_eq.
    replace (Z.max (54 + e' - 53) (-1074) - e') with 1 by lia.
    cbn [SpecFloat.iter_pos].
    assert (pm = 9007199254740992%positive) as -> by (injection Hcarry as ->; done).
    change (shr_1 {| shr_m := 9007199254740992; shr_r := false; shr_s := false |})
      with {| shr_m := 4503599627370496; shr_r := false; shr_s := false |}.
    cbn [shr_m]. change (Binary64.emax - Binary64.prec) with 971.
    destruct (Z.leb_spec (e' + 1) 971) as [Hfin|Hinf].
    + right. exists 4503599627370496%positive, (e' + 1). split; [done|]. split.
      * apply bounded_intro; [lia|done|done].
      * replace (e' + 1 + 2148) with (e' + 2148 + 1) by lia.
        rewrite pow2_succ by lia. lia.
    + left. split; [lia|]. split; [right; split; [done|lia]|done].
  - assert (Zpos pm < 2 ^ 53) as Hlt by lia.
    assert (Hd2 : Zpos (digits2_pos pm) ≤ 53).
    { assert (Zpos (digits2_pos pm) - 1 < 53); [|lia].
      apply (Z.pow_lt_mono_r_iff 2); lia. }
    unfold shr_fexp, shr. cbn [Zdigits2 shr_record_of_loc]. rewrite fexp_eq.
    assert (Z.max (Zpos (digits2_pos pm) + e' - 53) (-1074) - e' ≤ 0) as Hn by lia.
    destruct (Z.max (Zpos (digits2_pos pm) + e' - 53) (-1074) - e') eqn:Hn'; try lia.
    + cbn [shr_m]. change (Binary64.emax - Binary64.prec) with 971.
      destruct (Z.leb_spec e' 971) as [Hfin|Hinf].
      * right. exists pm, e'. split; [done|]. split; [|done].
        apply bounded_intro; [lia|done|]. intros Hn2. specialize (Hq52 Hn2). lia.
      * left. split; [lia|]. split; [by left|done].
    + cbn [shr_m]. change (Binary64.emax - Binary64.prec) with 971.
      destruct (Z.leb_spec e' 971) as [Hfin|Hinf].
      * right. exists pm, e'. split; [done|]. split; [|done].
        apply bounded_intro; [lia|done|]. intros Hn2. specialize (Hq52 Hn2). lia.
      * left. split; [lia|]. split; [by left|done].
Qed.


Lemma binary_round_aux_rounds s px ex :
  -2148 ≤ ex →
  ex ≤ fexp Binary64.prec Binary64.emax (Zpos (digits2_pos px) + ex) →
  rounds s (Zpos px * 2 ^ (ex + 2148)) (fexp Binary64.prec Binary64.emax (Zpos (digits2_pos px) + ex))
    (binary_round_aux Binary64.prec Binary64.emax s (Zpos px) ex loc_Exact).
Proof.
  intros Hex Hle.
  destruct (binary_round_aux_spec s px ex Hle)
    as (q & m2 & Hq & Hqx & Hm2 & Hnear & Hq53 & Hq52 & HR).
  set (e' := fexp Binary64.prec Binary64.emax (Zpos (digits2_pos px) + ex)) in *.
  assert (He' : -1074 ≤ e') by (unfold e'; rewrite fexp_eq; lia). clearbody e'.
  assert (Hpow : 2 ^ (e' + 2148) = 2 ^ (e' - ex) * 2 ^ (ex + 2148)).
  { rewrite <- Z.pow_add_r by lia. f_equal. lia. }
  pose proof (pow2_pos (ex + 2148) ltac:(lia)) as HS.
  pose proof (pow2_pos (e' - ex) ltac:(lia)) as HK.
  exists q, m2. split; [done|]. split; [lia|]. split; [done|].
  rewrite Hpow. split; [nia|]. split.
  - destruct Hm2 as [?|[? ?]]; [by left|right]. split; [done|nia].
  - split; [|rewrite <- Hpow; exact HR].
    replace (m2 * (2 ^ (e' - ex) * 2 ^ (ex + 2148)) - Zpos px * 2 ^ (ex + 2148))
      with ((m2 * 2 ^ (e' - ex) - Zpos px) * 2 ^ (ex + 2148)) by ring.
    rewrite Z.abs_mul, (Z.abs_eq (2 ^ (ex + 2148))) by lia. nia.
Qed.

Lemma Zpos_iter_xO mx d : Zpos (Pos.iter xO mx d) = Zpos mx * 2 ^ Zpos d.
Proof.
  induction d as [|d IH] using Pos.peano_ind.
  - simpl. lia.
  - rewrite Pos.iter_succ, Pos2Z.inj_xO, IH, Pos2Z.inj_succ.
    unfold Z.succ. rewrite pow2_succ by lia. ring.
Qed.

Lemma digits2_shift mx k :
  0 ≤ k → ∀ pz, Zpos pz = Zpos mx * 2 ^ k →
  Zpos (digits2_pos pz) = Zpos (digits2_pos mx) + k.
Proof.
  intros Hk pz Hpz. apply digits2_unique. rewrite Hpz.
  pose proof (digits2_pos_bounds mx) as [Hlo Hhi]. pose proof (pow2_pos k Hk).
  replace (Zpos (digits2_pos mx) + k - 1) with ((Zpos (digits2_pos mx) - 1) + k) by lia.
  rewrite !Z.pow_add_r by lia. nia.
Qed.

Lemma binary_round_rounds s px ex :
  -2148 ≤ ex →
  rounds s (Zpos px * 2 ^ (ex + 2148)) (fexp Binary64.prec Binary64.emax (Zpos (digits2_pos px) + ex))
    (binary_round Binary64.prec Binary64.emax s px ex).
Proof.
  intros Hex. unfold binary_round, shl_align.
  set (e' := fexp Binary64.prec Binary64.emax (Zpos (digits2_pos px) + ex)).
  assert (He' : e' = Z.max (Zpos (digits2_pos px) + ex - 53) (-1074)) by reflexivity.
  destruct (e' - ex) as [|d|d] eqn:Hd.
  - apply binary_round_aux_rounds; [done|]. fold e'. lia.
  - apply binary_round_aux_rounds; [done|]. fold e'. lia.
  - assert (Hdig : Zpos (digits2_pos (Pos.iter xO px d)) = Zpos (digits2_pos px) + Zpos d).
    { apply digits2_shift; [lia|]. apply Zpos_iter_xO. }
    assert (Hfe : fexp Binary64.prec Binary64.emax (Zpos (digits2_pos (Pos.iter xO px d)) + e') = e').
    { rewrite Hdig, fexp_eq. lia. }
    pose proof (binary_round_aux_rounds s (Pos.iter xO px d) e' ltac:(lia)
                  ltac:(rewrite Hfe; lia)) as Hr.
    rewrite Hfe in Hr.
    assert (HV : Zpos (Pos.iter xO px d) * 2 ^ (e' + 2148) = Zpos px * 2 ^ (ex + 2148)).
    { rewrite Zpos_iter_xO, <- Z.mul_assoc, <- Z.pow_add_r by lia. do 2 f_equal. lia. }
    rewrite HV in Hr. exact Hr.
Qed.


(** No double lies strictly between [q 2^e'] and [(q+1) 2^e']. *)
Lemma gap q e' mz ez :
  bounded Binary64.prec Binary64.emax mz ez = true →
  -1074 ≤ e' → 0 ≤ q → (-1074 < e' → 2 ^ 52 ≤ q) →
  q * 2 ^ (e' + 2148) < Zpos mz * 2 ^ (ez + 2148) →
  (q + 1) * 2 ^ (e' + 2148) ≤ Zpos mz * 2 ^ (ez + 2148).
Proof.
  intros (Hez & Hmz & Hnz)%bounded_inv He' Hq Hq52 Hlt.
  destruct (Z.le_gt_cases e' ez) as [Hle|Hgt].
  - assert (Hpow : 2 ^ (ez + 2148) = 2 ^ (ez - e') * 2 ^ (e' + 2148)).
    { rewrite <- Z.pow_add_r by lia. f_equal. lia. }
    pose proof (pow2_pos (e' + 2148) ltac:(lia)) as HU.
    pose proof (pow2_pos (ez - e') ltac:(lia)) as HK.
    rewrite Hpow in Hlt |- *.
    set (U := 2 ^ (e' + 2148)) in *. set (K := 2 ^ (ez - e')) in *. clearbody U K.
    assert (q < Zpos mz * K) as Hq'.
    { destruct (Z.lt_ge_cases q (Zpos mz * K)) as [|Hge]; [done|]. exfalso.
      assert (Zpos mz * K * U ≤ q * U) by (apply Z.mul_le_mono_nonneg_r; lia). lia. }
    assert ((q + 1) * U ≤ Zpos mz * K * U) by (apply Z.mul_le_mono_nonneg_r; lia). lia.
  - exfalso. specialize (Hq52 ltac:(lia)).
    assert (Hpow : 2 ^ (e' + 2148) = 2 ^ (e' - ez - 1) * (2 * 2 ^ (ez + 2148))).
    { rewrite <- pow2_succ, <- Z.pow_add_r by lia. f_equal. lia. }
    pose proof (pow2_pos (ez + 2148) ltac:(lia)).
    pose proof (pow2_pos (e' - ez - 1) ltac:(lia)).
    rewrite Hpow in Hlt. change (2 ^ 53) with (2 * 2 ^ 52) in Hmz. nia.
Qed.

Lemma Fv_finite s m e : Fv (S754_finite s m e) = cond_Zopp s (Zpos m * 2 ^ (e + 2148)).
Proof. destruct s; simpl; lia. Qed.

Lemma rounds_upper s V e' R mz ez :
  rounds s V e' R →
  bounded Binary64.prec Binary64.emax mz ez = true →
  V ≤ Zpos mz * 2 ^ (ez + 2148) →
  fin_valid R = true ∧ Fv R = cond_Zopp s (Z.abs (Fv R)) ∧
  Z.abs (Fv R) ≤ Zpos mz * 2 ^ (ez + 2148).
Proof.
  intros (q & m2 & He' & Hq & Hq52 & HqV & Hm2 & Hnear & HR) Hb HV.
  pose proof (pow2_pos (e' + 2148) ltac:(lia)) as HU.
  pose proof (pow2_pos (ez + 2148) ltac:(apply bounded_inv in Hb; lia)) as HW.
  assert (Hm2U : m2 * 2 ^ (e' + 2148) ≤ Zpos mz * 2 ^ (ez + 2148)).
  { destruct Hm2 as [->|[-> Hlt]]; [lia|].
    apply gap; [done|done|lia|done|lia]. }
  destruct HR as [[Hz ->]|[(Hpos & Hov & ->)|(m3 & e3 & -> & Hb3 & Hval)]].
  - simpl. split; [done|]. split; [by destruct s|]. lia.
  - exfalso. pose proof (bounded_inv _ _ Hb) as (Hez & Hmz & _).
    assert (2 ^ (ez + 2148) ≤ 2 ^ (971 + 2148)) by (apply Z.pow_le_mono_r; lia).
    destruct Hov as [Hov|[-> Hov]].
    + specialize (Hq52 ltac:(lia)).
      assert (2 ^ (971 + 2148 + 1) ≤ 2 ^ (e' + 2148)) by (apply Z.pow_le_mono_r; lia).
      rewrite pow2_succ in * by lia. change (2 ^ 53) with (2 * 2 ^ 52) in *. nia.
    + assert (2 ^ (971 + 2148) ≤ 2 ^ (e' + 2148)) by (apply Z.pow_le_mono_r; lia).
      nia.
  - simpl fin_valid. split; [done|]. rewrite Fv_finite.
    assert (Z.abs (cond_Zopp s (Zpos m3 * 2 ^ (e3 + 2148))) = Zpos m3 * 2 ^ (e3 + 2148)) as ->.
    { pose proof (pow2_pos (e3 + 2148) ltac:(apply bounded_inv in Hb3; lia)).
      destruct s; simpl; lia. }
    split; [done|]. lia.
Qed.

Lemma rounds_lower s V e' R mz ez :
  rounds s V e' R →
  bounded Binary64.prec Binary64.emax mz ez = true →
  Zpos mz * 2 ^ (ez + 2148) ≤ V →
  R = S754_infinity s ∨
  (fin_valid R = true ∧ Fv R = cond_Zopp s (Z.abs (Fv R)) ∧
   Zpos mz * 2 ^ (ez + 2148) ≤ Z.abs (Fv R)).
Proof.
  intros (q & m2 & He' & Hq & Hq52 & HqV & Hm2 & Hnear & HR) Hb HV.
  pose proof (pow2_pos (e' + 2148) ltac:(lia)) as HU.
  pose proof (pow2_pos (ez + 2148) ltac:(apply bounded_inv in Hb; lia)) as HW.
  assert (HqU : Zpos mz * 2 ^ (ez + 2148) ≤ q * 2 ^ (e' + 2148)).
  { destruct (Z.le_gt_cases (Zpos mz * 2 ^ (ez + 2148)) (q * 2 ^ (e' + 2148)));
      [done|]. pose proof (gap q e' mz ez Hb He' ltac:(lia) Hq52 ltac:(lia)). lia. }
  assert (Hm2U : Zpos mz * 2 ^ (ez + 2148) ≤ m2 * 2 ^ (e' + 2148)).
  { destruct Hm2 as [->|[-> Hlt]]; lia. }
  destruct HR as [[Hz ->]|[(Hpos & Hov & ->)|(m3 & e3 & -> & Hb3 & Hval)]].
  - exfalso. subst m2. lia.
  - by left.
  - right. simpl fin_valid. split; [done|]. rewrite Fv_finite.
    assert (Z.abs (cond_Zopp s (Zpos m3 * 2 ^ (e3 + 2148))) = Zpos m3 * 2 ^ (e3 + 2148)) as ->.
    { pose proof (pow2_pos (e3 + 2148) ltac:(apply bounded_inv in Hb3; lia)).
      destruct s; simpl; lia. }
    split; [done|]. lia.
Qed.

(** The comparisons of [SpecFloat] are those of the values. *)

Lemma mag_compare m1 e1 m2 e2 :
  bounded Binary64.prec Binary64.emax m1 e1 = true → bounded Binary64.prec Binary64.emax m2 e2 = true →
  match e1 ?= e2 with
  | Lt => Lt
  | Gt => Gt
  | Eq => Pos.compare_cont Eq m1 m2
  end = (Zpos m1 * 2 ^ (e1 + 2148) ?= Zpos m2 * 2 ^ (e2 + 2148)).
Proof.
  intros (He1 & Hm1 & Hn1)%bounded_inv (He2 & Hm2 & Hn2)%bounded_inv.
  pose proof (pow2_pos (e1 + 2148) ltac:(lia)) as HP1.
  pose proof (pow2_pos (e2 + 2148) ltac:(lia)) as HP2.
  change (2 ^ 53) with (2 * 2 ^ 52) in *.
  destruct (Z.compare_spec e1 e2) as [->|Hlt|Hgt].
  - change (Pos.compare_cont Eq m1 m2) with (Zpos m1 ?= Zpos m2).
    destruct (Z.compare_spec (Zpos m1) (Zpos m2)) as [Heq|Hlt|Hgt]; symmetry.
    + apply Z.compare_eq_iff. by rewrite Heq.
    + apply Z.compare_lt_iff. nia.
    + apply Z.compare_gt_iff. nia.
  - symmetry. apply Z.compare_lt_iff. specialize (Hn2 ltac:(lia)).
    assert (Hpow : 2 ^ (e2 + 2148) = 2 ^ (e2 - e1 - 1) * (2 * 2 ^ (e1 + 2148))).
    { rewrite <- pow2_succ, <- Z.pow_add_r by lia. f_equal. lia. }
    pose proof (pow2_pos (e2 - e1 - 1) ltac:(lia)).
    rewrite Hpow. set (U := 2 ^ (e1 + 2148)) in *.
    set (K := 2 ^ (e2 - e1 - 1)) in *. clearbody U K. nia.
  - symmetry. apply Z.compare_gt_iff. specialize (Hn1 ltac:(lia)).
    assert (Hpow : 2 ^ (e1 + 2148) = 2 ^ (e1 - e2 - 1) * (2 * 2 ^ (e2 + 2148))).
    { rewrite <- pow2_succ, <- Z.pow_add_r by lia. f_equal. lia. }
    pose proof (pow2_pos (e1 - e2 - 1) ltac:(lia)).
    rewrite Hpow. set (U := 2 ^ (e2 + 2148)) in *.
    set (K := 2 ^ (e1 - e2 - 1)) in *. clearbody U K. nia.
Qed.

Lemma SFcompare_Fv a b :
  fin_valid a = true → fin_valid b = true →
  SFcompare a b = Some (Fv a ?= Fv b).
Proof.
  destruct a as [sa|sa| |sa ma ea], b as [sb|sb| |sb mb eb]; simpl fin_valid; try done.
  - intros _ Hb. apply bounded_inv in Hb as (He & _ & _).
    pose proof (pow2_pos (eb + 2148) ltac:(lia)).
    destruct sb; cbn [SFcompare Fv cond_Zopp]; f_equal; symmetry.
    + apply Z.compare_gt_iff. nia.
    + apply Z.compare_lt_iff. nia.
  - intros Ha _. apply bounded_inv in Ha as (He & _ & _).
    pose proof (pow2_pos (ea + 2148) ltac:(lia)).
    destruct sa; cbn [SFcompare Fv cond_Zopp]; f_equal; symmetry.
    + apply Z.compare_lt_iff. nia.
    + apply Z.compare_gt_iff. nia.
  - intros Ha Hb. pose proof (mag_compare ma ea mb eb Ha Hb) as Hmag.
    pose proof (mag_compare mb eb ma ea Hb Ha) as Hmag'.
    apply bounded_inv in Ha as (Hea & _ & _), Hb as (Heb & _ & _).
    pose proof (pow2_pos (ea + 2148) ltac:(lia)).
    pose proof (pow2_pos (eb + 2148) ltac:(lia)).
    unfold SFcompare. destruct sa, sb; cbn [Fv cond_Zopp]; f_equal.
    + rewrite !Z.mul_opp_l, Z.compare_opp, <- Hmag'.
      rewrite (Z.compare_antisym ea eb), (Pos.compare_cont_antisym).
      by destruct (ea ?= eb).
    + symmetry. apply Z.compare_lt_iff. nia.
    + symmetry. apply Z.compare_gt_iff. nia.
    + exact Hmag.
Qed.

Lemma SFleb_Fv a b :
  fin_valid a = true → fin_valid b = true → (SFleb a b = true ↔ Fv a ≤ Fv b).
Proof.
  intros Ha Hb. unfold SFleb. rewrite (SFcompare_Fv a b Ha Hb).
  destruct (Z.compare_spec (Fv a) (Fv b)); split; try done; lia.
Qed.

Lemma SFltb_Fv a b :
  fin_valid a = true → fin_valid b = true → (SFltb a b = true ↔ Fv a < Fv b).
Proof.
  intros Ha Hb. unfold SFltb. rewrite (SFcompare_Fv a b Ha Hb).
  destruct (Z.compare_spec (Fv a) (Fv b)); split; try done; lia.
Qed.

Lemma rounds_exact m e :
  bounded Binary64.prec Binary64.emax m e = true →
  rounds false (Zpos m * 2 ^ (e + 2148)) e (S754_finite false m e).
Proof.
  intros Hb. pose proof (bounded_inv _ _ Hb) as (He & Hm & Hn).
  pose proof (pow2_pos (e + 2148) ltac:(lia)).
  exists (Zpos m), (Zpos m). split; [lia|]. split; [lia|]. split; [done|].
  split; [lia|]. split; [by left|]. split; [lia|].
  right. right. by exists m, e.
Qed.

Lemma Fv_pos_inv x :
  fin_valid x = true → 0 < Fv x →
  ∃ m e, x = S754_finite false m e ∧ bounded Binary64.prec Binary64.emax m e = true ∧
         Fv x = Zpos m * 2 ^ (e + 2148).
Proof.
  destruct x as [s|s| |s m e]; simpl fin_valid; try done.
  intros Hb Hpos. pose proof (bounded_inv _ _ Hb) as (He & _ & _).
  pose proof (pow2_pos (e + 2148) ltac:(lia)).
  destruct s; cbn [Fv cond_Zopp] in *; [nia|]. by exists m, e.
Qed.

Lemma Fv_neg_inv x :
  fin_valid x = true → Fv x < 0 →
  ∃ m e, x = S754_finite true m e ∧ bounded Binary64.prec Binary64.emax m e = true ∧
         Fv x = - (Zpos m * 2 ^ (e + 2148)).
Proof.
  destruct x as [s|s| |s m e]; simpl fin_valid; try done.
  intros Hb Hneg. pose proof (bounded_inv _ _ Hb) as (He & _ & _).
  pose proof (pow2_pos (e + 2148) ltac:(lia)).
  destruct s; cbn [Fv cond_Zopp] in *; [|nia]. exists m, e. split; [done|]. split; [done|lia].
Qed.

(** A rounded value stays between two doubles that enclose the exact
    value. *)
Lemma rounds_sandwich s V e' R a b :
  rounds s V e' R → 0 < V →
  fin_valid a = true → fin_valid b = true →
  Fv a ≤ cond_Zopp s V ≤ Fv b →
  fin_valid R = true ∧ Fv a ≤ Fv R ≤ Fv b.
Proof.
  intros Hr HV Ha Hb [Hlo Hhi]. destruct s; cbn [cond_Zopp] in *.
  - destruct (Fv_neg_inv a Ha ltac:(lia)) as (ma & ea & -> & Hba & Hva).
    destruct (rounds_upper _ _ _ _ ma ea Hr Hba ltac:(lia)) as (HfR & Hsign & Hup).
    cbn [cond_Zopp] in Hsign. split; [done|]. split; [lia|].
    destruct (Z.le_gt_cases 0 (Fv b)) as [|Hnegb]; [lia|].
    destruct (Fv_neg_inv b Hb Hnegb) as (mb & eb & -> & Hbb & Hvb).
    destruct (rounds_lower _ _ _ _ mb eb Hr Hbb ltac:(lia)) as [->|(_ & _ & Hdown)];
      [done|]. lia.
  - destruct (Fv_pos_inv b Hb ltac:(lia)) as (mb & eb & -> & Hbb & Hvb).
    destruct (rounds_upper _ _ _ _ mb eb Hr Hbb ltac:(lia)) as (HfR & Hsign & Hup).
    cbn [cond_Zopp] in Hsign. split; [done|]. split; [|lia].
    destruct (Z.le_gt_cases (Fv a) 0) as [|Hposa]; [lia|].
    destruct (Fv_pos_inv a Ha Hposa) as (ma & ea & -> & Hba & Hva).
    destruct (rounds_lower _ _ _ _ ma ea Hr Hba ltac:(lia)) as [->|(_ & _ & Hdown)];
      [done|]. lia.
Qed.

(** A positive exact value below the midpoint of the doubles [q 2^e'] and
    [(q+1) 2^e'] does not round above [q 2^e']. *)
Lemma rounds_below_midpoint V ey R q e' :
  rounds false V ey R → 0 < V → fin_valid R = true →
  -1074 ≤ e' ≤ 971 → 2 ^ 52 ≤ q < 2 ^ 53 →
  2 * V < (2 * q + 1) * 2 ^ (e' + 2148) →
  Fv R ≤ q * 2 ^ (e' + 2148).
Proof.
  intros (qy & m2 & Hey & Hqy & Hqy52 & HqV & Hm2 & Hnear & HR) HV HfR He' Hq Hmid.
  pose proof (pow2_pos (e' + 2148) ltac:(lia)) as HU.
  pose proof (pow2_pos (ey + 2148) ltac:(lia)) as HUy.
  set (U := 2 ^ (e' + 2148)) in *. set (Uy := 2 ^ (ey + 2148)) in *.
  destruct HR as [[Hz ->]|[(Hpos & Hov & ->)|(m3 & e3 & -> & Hb3 & Hval)]]; [simpl; nia|done|].
  cbn [Fv cond_Zopp]. rewrite Hval.
  destruct (Z.le_gt_cases (m2 * Uy) (q * U)) as [|Hgt]; [done|exfalso].
  (* the result is a double above q U, hence at least (q+1) U *)
  assert (Hge : (q + 1) * U ≤ m2 * Uy).
  { rewrite <- Hval. apply gap; [done|lia|lia|intros; lia|]. fold U. lia. }
  assert (Hup : m2 = qy + 1) by (destruct Hm2 as [->|[-> _]]; [nia|done]).
  subst m2.
  (* q U is a double, not strictly inside (qy Uy, (qy+1) Uy) *)
  destruct q as [|pq|pq]; try lia.
  assert (Hbq : bounded Binary64.prec Binary64.emax pq e' = true).
  { apply bounded_intro; [lia|lia|intros; lia]. }
  assert (Hqle : Zpos pq * U ≤ qy * Uy).
  { destruct (Z.le_gt_cases (Zpos pq * U) (qy * Uy)) as [|Hlt]; [done|exfalso].
    pose proof (gap qy ey pq e' Hbq Hey ltac:(lia) Hqy52 Hlt) as Hg. fold U Uy in Hg. nia. }
  assert (2 * ((qy + 1) * Uy - V) ≤ Uy) by lia.
  nia.
Qed.

(** Sum, difference and product. *)

Lemma shl_align_fst mx ex ez :
  ez ≤ ex → Zpos (shl_align mx ex ez).1 = Zpos mx * 2 ^ (ex - ez).
Proof.
  intros Hle. unfold shl_align. destruct (ez - ex) as [|d|d] eqn:Hd; try lia.
  - simpl. replace (ex - ez) with 0 by lia. simpl. lia.
  - simpl. rewrite Zpos_iter_xO. do 2 f_equal. lia.
Qed.

(** The exact sum or difference of two doubles, as an integer multiple
    of [2^ez], [ez] the smaller exponent. *)
Lemma aligned_value s m e ez :
  -1074 ≤ ez → ez ≤ e →
  cond_Zopp s (Zpos (shl_align m e ez).1) * 2 ^ (ez + 2148) = Fv (S754_finite s m e).
Proof.
  intros Hez Hle. rewrite shl_align_fst by done. cbn [Fv].
  replace (e + 2148) with ((e - ez) + (ez + 2148)) by lia.
  rewrite (Z.pow_add_r 2 (e - ez) (ez + 2148)) by lia.
  destruct s; cbn [cond_Zopp]; ring.
Qed.

Lemma binary_normalize_sandwich M ez a b :
  -1074 ≤ ez →
  fin_valid a = true → fin_valid b = true →
  Fv a ≤ M * 2 ^ (ez + 2148) ≤ Fv b →
  fin_valid (binary_normalize Binary64.prec Binary64.emax M ez false) = true ∧
  Fv a ≤ Fv (binary_normalize Binary64.prec Binary64.emax M ez false) ≤ Fv b.
Proof.
  intros Hez Ha Hb Hab. pose proof (pow2_pos (ez + 2148) ltac:(lia)) as HP.
  destruct M as [|p|p]; cbn [binary_normalize].
  - simpl. split; [done|]. lia.
  - eapply rounds_sandwich; [apply (binary_round_rounds false p ez); lia|lia|done|done|].
    cbn [cond_Zopp]. lia.
  - eapply rounds_sandwich; [apply (binary_round_rounds true p ez); lia|lia|done|done|].
    cbn [cond_Zopp]. lia.
Qed.

Lemma SFadd_sandwich x y a b :
  fin_valid x = true → fin_valid y = true →
  fin_valid a = true → fin_valid b = true →
  Fv a ≤ Fv x + Fv y ≤ Fv b →
  fin_valid (SFadd Binary64.prec Binary64.emax x y) = true ∧
  Fv a ≤ Fv (SFadd Binary64.prec Binary64.emax x y) ≤ Fv b.
Proof.
  intros Hx Hy Ha Hb Hab.
  destruct x as [sx|sx| |sx mx ex], y as [sy|sy| |sy my ey]; simpl fin_valid in Hx, Hy;
    try done.
  - destruct sx, sy; simpl in *; (split; [done|lia]).
  - cbn [SFadd]. split; [done|]. change (Fv (S754_zero sy)) with 0 in Hab. lia.
  - cbn [SFadd].
    pose proof (bounded_inv _ _ Hx) as (Hex & _ & _).
    pose proof (bounded_inv _ _ Hy) as (Hey & _ & _).
    apply binary_normalize_sandwich; [lia|done|done|].
    rewrite Z.mul_add_distr_r, !aligned_value by lia. exact Hab.
Qed.

Lemma SFsub_rounds hi lo :
  fin_valid hi = true → fin_valid lo = true → Fv lo < Fv hi →
  ∃ e', rounds false (Fv hi - Fv lo) e' (SFsub Binary64.prec Binary64.emax hi lo).
Proof.
  intros Hhi Hlo Hlt.
  destruct hi as [sx|sx| |sx mx ex], lo as [sy|sy| |sy my ey];
    simpl fin_valid in Hhi, Hlo; try done.
  - destruct (Fv_neg_inv (S754_finite sy my ey) Hlo Hlt) as (m & e & [= -> <- <-] & Hb & Hv).
    exists ey. cbn [SFsub negb]. rewrite Hv. simpl Fv.
    replace (0 - - (Zpos my * 2 ^ (ey + 2148))) with (Zpos my * 2 ^ (ey + 2148)) by lia.
    by apply rounds_exact.
  - destruct (Fv_pos_inv (S754_finite sx mx ex) Hhi Hlt) as (m & e & [= -> <- <-] & Hb & Hv).
    exists ex. cbn [SFsub]. rewrite Hv. simpl Fv. rewrite Z.sub_0_r.
    by apply rounds_exact.
  - cbn [SFsub].
    pose proof (bounded_inv _ _ Hhi) as (Hex & _ & _).
    pose proof (bounded_inv _ _ Hlo) as (Hey & _ & _).
    set (ez := Z.min ex ey).
    set (M := cond_Zopp sx (Zpos (shl_align mx ex ez).1) -
              cond_Zopp sy (Zpos (shl_align my ey ez).1)).
    assert (HM : M * 2 ^ (ez + 2148) =
                 Fv (S754_finite sx mx ex) - Fv (S754_finite sy my ey)).
    { unfold M. rewrite Z.mul_sub_distr_r, !aligned_value by lia. done. }
    pose proof (pow2_pos (ez + 2148) ltac:(lia)) as HP.
    change (fst (shl_align mx ex ez)) with (shl_align mx ex ez).1.
    change (fst (shl_align my ey ez)) with (shl_align my ey ez).1. fold M.
    destruct M as [|p|p]; try nia.
    cbn [binary_normalize]. rewrite <- HM. eexists.
    apply binary_round_rounds. lia.
Qed.

Lemma digits2_ge p k : 2 ^ (k - 1) ≤ Zpos p → k ≤ Zpos (digits2_pos p).
Proof.
  intros Hk. pose proof (digits2_pos_bounds p) as [_ Hhi].
  destruct (Z.le_gt_cases k (Zpos (digits2_pos p))) as [|Hgt]; [done|exfalso].
  assert (2 ^ Zpos (digits2_pos p) ≤ 2 ^ (k - 1)) by (apply Z.pow_le_mono_r; lia). lia.
Qed.

Lemma SFmul_rounds mr er mu eu :
  bounded Binary64.prec Binary64.emax mr er = true → bounded Binary64.prec Binary64.emax mu eu = true →
  ∃ e' V,
    rounds false V e' (SFmul Binary64.prec Binary64.emax (S754_finite false mr er) (S754_finite false mu eu)) ∧
    0 < V ∧
    V * 2 ^ 2148 = (Zpos mr * 2 ^ (er + 2148)) * (Zpos mu * 2 ^ (eu + 2148)).
Proof.
  intros Hr Hu. pose proof (bounded_inv _ _ Hr) as (Her & Hmr & Hnr).
  pose proof (bounded_inv _ _ Hu) as (Heu & Hmu & Hnu).
  cbn [SFmul xorb]. change (Z.add er eu) with (er + eu).
  eexists _, (Zpos (mr * mu) * 2 ^ (er + eu + 2148)).
  split; [|split].
  - apply binary_round_aux_rounds; [lia|]. rewrite fexp_eq.
    destruct (Z.eq_dec er (-1074)) as [->|]; [destruct (Z.eq_dec eu (-1074)) as [->|]|].
    + lia.
    + specialize (Hnu ltac:(lia)).
      assert (53 ≤ Zpos (digits2_pos (mr * mu))); [|lia].
      apply digits2_ge. rewrite Pos2Z.inj_mul. change (2 ^ (53 - 1)) with (2 ^ 52). nia.
    + specialize (Hnr ltac:(lia)).
      assert (53 ≤ Zpos (digits2_pos (mr * mu))); [|lia].
      apply digits2_ge. rewrite Pos2Z.inj_mul. change (2 ^ (53 - 1)) with (2 ^ 52). nia.
  - pose proof (pow2_pos (er + eu + 2148) ltac:(lia)). lia.
  - rewrite Pos2Z.inj_mul.
    replace (er + eu + 2148) with ((er + 2148) + (eu + 2148) - 2148) by lia.
    assert (2 ^ (er + 2148 + (eu + 2148) - 2148) * 2 ^ 2148 =
            2 ^ (er + 2148) * 2 ^ (eu + 2148)) as Hpow.
    { rewrite <- !Z.pow_add_r by lia. f_equal. lia. }
    rewrite <- !Z.mul_assoc, Hpow. ring.
Qed.

(** The uniform draw [lo + (hi - lo) * u]. *)

Lemma Fv_multiple x : fin_valid x = true → ∃ M, Fv x = M * 2 ^ 1074.
Proof.
  destruct x as [s|s| |s m e]; simpl fin_valid; try done.
  - intros _. by exists 0.
  - intros (He & _ & _)%bounded_inv. exists (cond_Zopp s (Zpos m) * 2 ^ (e + 1074)).
    cbn [Fv]. replace (e + 2148) with ((e + 1074) + 1074) by lia.
    rewrite (Z.pow_add_r 2 (e + 1074) 1074) by lia. ring.
Qed.

Lemma unit_below_one u :
  fin_valid u = true → 0 ≤ Fv u → Fv u < 2 ^ 2148 →
  Fv u * 2 ^ 53 ≤ (2 ^ 53 - 1) * 2 ^ 2148.
Proof.
  intros Hu H0 H1. destruct (Z.eq_dec (Fv u) 0) as [->|Hnz]; [lia|].
  destruct (Fv_pos_inv u Hu ltac:(lia)) as (m & e & -> & Hb & Hv). rewrite Hv in *.
  pose proof (bounded_inv _ _ Hb) as (He & Hm & Hn).
  assert (e ≤ -53) as He53.
  { destruct (Z.le_gt_cases e (-53)) as [|Hgt]; [done|exfalso].
    specialize (Hn ltac:(lia)).
    assert (2 ^ (2148 - 52) ≤ 2 ^ (e + 2148)) by (apply Z.pow_le_mono_r; lia).
    assert (2 ^ 2148 = 2 ^ 52 * 2 ^ (2148 - 52)) as Hpow by (by rewrite <- Z.pow_add_r).
    set (A := 2 ^ (2148 - 52)) in *. set (B := 2 ^ (e + 2148)) in *.
    set (C := 2 ^ 2148) in *. clearbody A B C. nia. }
  assert (2 ^ (e + 2148) * 2 ^ 53 ≤ 2 ^ 2148).
  { rewrite <- Z.pow_add_r by lia. apply Z.pow_le_mono_r; lia. }
  pose proof (pow2_pos (e + 2148) ltac:(lia)).
  set (B := 2 ^ (e + 2148)) in *. set (C := 2 ^ 2148) in *. clearbody B C. nia.
Qed.

(** The rounded difference [r] of [hi - lo] is at most the exact
    difference [D], or it is the double that follows some [q 2^e' <= D]. *)
Lemma SFsub_up hi lo :
  fin_valid hi = true → fin_valid lo = true → Fv lo < Fv hi →
  fin_valid (SFsub Binary64.prec Binary64.emax hi lo) = true →
  0 ≤ Fv (SFsub Binary64.prec Binary64.emax hi lo) ∧
  (Fv (SFsub Binary64.prec Binary64.emax hi lo) ≤ Fv hi - Fv lo ∨
   ∃ q e', -1074 ≤ e' ≤ 971 ∧ 2 ^ 52 ≤ q < 2 ^ 53 ∧
           Fv (SFsub Binary64.prec Binary64.emax hi lo) = (q + 1) * 2 ^ (e' + 2148) ∧
           q * 2 ^ (e' + 2148) ≤ Fv hi - Fv lo).
Proof.
  intros Hhi Hlo Hlt Hfin.
  destruct (SFsub_rounds hi lo Hhi Hlo Hlt)
    as (e' & q & m2 & He' & Hq & Hq52 & HqV & Hm2 & Hnear & HR).
  destruct (Fv_multiple hi Hhi) as [Mh HMh], (Fv_multiple lo Hlo) as [Ml HMl].
  pose proof (pow2_pos (e' + 2148) ltac:(lia)) as HU.
  destruct HR as [[Hz ->]|[(Hpos & Hov & HRinf)|(m3 & e3 & HReq & Hb3 & Hval)]].
  - simpl. split; [done|]. left. lia.
  - rewrite HRinf in Hfin. done.
  - rewrite HReq. cbn [Fv cond_Zopp]. rewrite Hval.
    split; [nia|]. destruct Hm2 as [->|[-> Hup]]; [left; lia|right].
    assert (-1074 < e') as Hnorm.
    { destruct (Z.eq_dec e' (-1074)) as [->|]; [exfalso|lia].
      change (-1074 + 2148) with 1074 in *. rewrite HMh, HMl in HqV, Hup.
      set (U := 2 ^ 1074) in *. clearbody U.
      assert (q * U < (Mh - Ml) * U) as H1 by lia.
      assert ((Mh - Ml) * U < (q + 1) * U) as H2 by lia.
      apply Z.mul_lt_mono_pos_r in H1, H2; lia. }
    specialize (Hq52 Hnorm).
    exists q, e'. split; [|split; [lia|split; [done|lia]]].
    split; [lia|].
    destruct (Z.le_gt_cases e' 971) as [|Hbig]; [done|exfalso].
    pose proof (bounded_inv _ _ Hb3) as (He3 & Hm3 & _).
    assert (2 ^ (e3 + 2148) ≤ 2 ^ (971 + 2148)) by (apply Z.pow_le_mono_r; lia).
    assert (2 * 2 ^ (971 + 2148) ≤ 2 ^ (e' + 2148)).
    { rewrite <- pow2_succ by lia. apply Z.pow_le_mono_r; lia. }
    change (2 ^ 53) with (2 * 2 ^ 52) in *.
    pose proof (pow2_pos (e3 + 2148) ltac:(lia)).
    set (U := 2 ^ (e' + 2148)) in *. set (W := 2 ^ (e3 + 2148)) in *.
    set (T := 2 ^ (971 + 2148)) in *. clearbody U W T. nia.
Qed.

Lemma SFmul_below r u D :
  fin_valid r = true → fin_valid u = true →
  0 ≤ Fv r → 0 ≤ Fv u → Fv u < 2 ^ 2148 →
  (Fv r ≤ D ∨
   ∃ q e', -1074 ≤ e' ≤ 971 ∧ 2 ^ 52 ≤ q < 2 ^ 53 ∧
           Fv r = (q + 1) * 2 ^ (e' + 2148) ∧ q * 2 ^ (e' + 2148) ≤ D) →
  fin_valid (SFmul Binary64.prec Binary64.emax r u) = true ∧ 0 ≤ Fv (SFmul Binary64.prec Binary64.emax r u) ≤ D.
Proof.
  intros Hr Hu Hr0 Hu0 Hu1 HD.
  assert (HD0 : 0 ≤ D).
  { destruct HD as [|(q & e' & He' & Hq & _ & HqD)]; [lia|].
    pose proof (pow2_pos (e' + 2148) ltac:(lia)). nia. }
  destruct (Z.eq_dec (Fv r) 0) as [Hrz|Hrnz].
  { destruct r as [sr|sr| |sr mr er]; simpl fin_valid in Hr; try discriminate Hr.
    - destruct u as [su|su| |su mu eu]; simpl fin_valid in Hu; try discriminate Hu;
        simpl; (split; [done|lia]).
    - apply bounded_inv in Hr as (Her & _ & _).
      pose proof (pow2_pos (er + 2148) ltac:(lia)).
      destruct sr; cbn [Fv cond_Zopp] in Hrz; nia. }
  destruct (Fv_pos_inv r Hr ltac:(lia)) as (mr & er & -> & Hbr & Hvr).
  destruct (Z.eq_dec (Fv u) 0) as [Huz|Hunz].
  { destruct u as [su|su| |su mu eu]; simpl fin_valid in Hu; try discriminate Hu.
    - simpl. split; [done|lia].
    - apply bounded_inv in Hu as (Heu & _ & _).
      pose proof (pow2_pos (eu + 2148) ltac:(lia)).
      destruct su; cbn [Fv cond_Zopp] in Huz; nia. }
  pose proof (unit_below_one u Hu Hu0 Hu1) as Hu53.
  destruct (Fv_pos_inv u Hu ltac:(lia)) as (mu & eu & -> & Hbu & Hvu).
  destruct (SFmul_rounds mr er mu eu Hbr Hbu) as (ey & V & Hround & HV & HVeq).
  rewrite <- Hvr, <- Hvu in HVeq.
  set (r := S754_finite false mr er) in *. set (u := S754_finite false mu eu) in *.
  pose proof (pow2_pos 2148 ltac:(lia)) as HS.
  assert (HVr : V ≤ Fv r).
  { set (S := 2 ^ 2148) in *. clearbody S. nia. }
  destruct (rounds_upper _ _ _ _ mr er Hround Hbr ltac:(lia)) as (Hfp & Hsign & Hup).
  cbn [cond_Zopp] in Hsign. split; [done|]. split; [lia|].
  destruct HD as [|(q & e' & He' & Hq & Hrq & HqD)]; [lia|].
  pose proof (pow2_pos (e' + 2148) ltac:(lia)) as HU.
  assert (Hmid : 2 * V < (2 * q + 1) * 2 ^ (e' + 2148)).
  { rewrite Hrq in HVeq. change (2 ^ 53) with (2 * 2 ^ 52) in *.
    set (U := 2 ^ (e' + 2148)) in *. set (S := 2 ^ 2148) in *.
    set (T := 2 ^ 52) in *. clearbody U S T.
    assert (V * S * (2 * T) ≤ (q + 1) * U * ((2 * T - 1) * S)) by nia.
    assert (V * (2 * T) ≤ (q + 1) * U * (2 * T - 1)) by nia.
    nia. }
  pose proof (rounds_below_midpoint V ey _ q e' Hround HV Hfp He' Hq Hmid). lia.
Qed.

Lemma rounds_finite s V e' R :
  rounds s V e' R → Binary64.isfinite R = true →
  fin_valid R = true ∧ Binary64.signbit R = s.
Proof.
  intros (q & m2 & _ & _ & _ & _ & _ & _ & HR) Hfin.
  destruct HR as [[_ ->]|[(_ & _ & ->)|(m3 & e3 & -> & Hb3 & _)]]; done.
Qed.

Lemma Fv_lit_1 : Fv (flit (1 # 1)) = 2 ^ 2148.
Proof.
  rewrite lit_1. cbn [Fv cond_Zopp]. change 4503599627370496 with (2 ^ 52).
  rewrite <- Z.pow_add_r by lia. done.
Qed.

(** For doubles [lo < hi] whose difference does not overflow and a draw
    [u] of [0, 1), [lo + (hi - lo) * u] is a double of [lo, hi]. *)
Lemma uniform_closed_range lo hi u :
  fin_valid lo = true → fin_valid hi = true → fin_valid u = true →
  fltb lo hi = true →
  fisfinite (fsub hi lo) = true →
  unit_draw u = true →
  non_negative (fsub hi lo) = true ∧
  fin_valid (fadd lo (fmul (fsub hi lo) u)) = true ∧
  fleb lo (fadd lo (fmul (fsub hi lo) u)) = true ∧
  fleb (fadd lo (fmul (fsub hi lo) u)) hi = true.
Proof.
  intros Hlo Hhi Hu Hlt Hfin Hunit.
  unfold unit_draw, in_half_open in Hunit. rewrite lit_0 in Hunit.
  apply andb_true_iff in Hunit as [Hu0 Hu1].
  cbn [fadd fsub fmul fleb fltb fisfinite binary64] in *.
  unfold Binary64.add, Binary64.sub, Binary64.mul in *.
  apply (SFltb_Fv lo hi Hlo Hhi) in Hlt.
  apply (SFleb_Fv (S754_zero false) u eq_refl Hu) in Hu0.
  change (Fv (S754_zero false)) with 0 in Hu0.
  assert (Hone : fin_valid (flit (1 # 1)) = true) by (by vm_compute).
  apply (SFltb_Fv u (flit (1 # 1)) Hu Hone) in Hu1. rewrite Fv_lit_1 in Hu1.
  destruct (SFsub_rounds hi lo Hhi Hlo Hlt) as (e' & Hround).
  destruct (rounds_finite _ _ _ _ Hround Hfin) as [Hr Hsign].
  destruct (SFsub_up hi lo Hhi Hlo Hlt Hr) as [Hr0 Hrup].
  destruct (SFmul_below _ u (Fv hi - Fv lo) Hr Hu Hr0 Hu0 Hu1 Hrup) as [Hp Hpr].
  destruct (SFadd_sandwich lo _ lo hi Hlo Hp Hlo Hhi ltac:(lia)) as [Hx Hxr].
  split.
  { unfold non_negative. cbn [fisnan fsignbit binary64]. rewrite Hsign.
    by rewrite andb_false_r. }
  split; [done|]. split; apply SFleb_Fv; try done; lia.
Qed.

End Rounding.

Lemma prior_degenerate_bounds_witness :
  ∃ p w',
    prior 2 (flit (0 # 1)) (flit (0 # 1)) (Some 0) sample_world = (inr p, w') ∧
    nd_shape p = [2] ∧
    nd_values w' p = Some [flit (0 # 1); flit (0 # 1)].
Proof.
  apply (prior_degenerate_bounds sample_world (Some 0) 3).
  - reflexivity.
  - intros i Hi. destruct i as [|[|i]]; [by vm_compute..|lia].
Defined.

Lemma observation_model_zero_scale_witness :
  ∃ out w',
    observation_model sample_row (Some 3%Z) (flit (0 # 1)) (Some 0) sample_world
      = (inr out, w') ∧
    nd_shape out = [1; 3; 2] ∧
    nd_values w' out =
      Some [flit (1 # 1); flit (2 # 1); flit (1 # 1); flit (2 # 1);
            flit (1 # 1); flit (2 # 1)].
Proof.
  apply (observation_model_zero_scale sample_world sample_row (Some 0) 3).
  - reflexivity.
  - split; [reflexivity|]. vm_compute. eauto.
  - by vm_compute.
  - reflexivity.
  - intros i Hi. destruct i as [|[|[|[|[|[|i]]]]]]; [by vm_compute..|lia].
Defined.

(** ** The simulator *)

Section Simulator.
Context {F G E : Type} `{!Double F} `{!BitGen F G E}.
Implicit Types (w : world F G E) (rng : option nat).

Lemma nd_values_frame w w' a vals :
  bufs w ⊆ bufs w' → nd_values w a = Some vals → nd_values w' a = Some vals.
Proof.
  intros Hsub. unfold nd_values.
  destruct (bufs w !! nd_base a) as [data|] eqn:Hdata; [|done].
  by rewrite (lookup_weaken _ _ _ _ Hdata Hsub).
Qed.

Lemma bufs_alloc_subseteq (m : gmap nat (list F)) xs : m ⊆ <[fresh (dom m) := xs]> m.
Proof. apply insert_subseteq, not_elem_of_dom, is_fresh. Qed.

(** One run of [simulator], when the default bounds and scale pass
    NumPy's checks. *)
Lemma simulator_run w :
  fisfinite (fsub default_upper_bound default_lower_bound) = true →
  non_negative (fsub default_upper_bound default_lower_bound) = true →
  non_negative default_scale = true →
  ∃ p o w1 w' xs ys,
    prior default_D default_lower_bound default_upper_bound None w = (inr p, w1) ∧
    observation_model p None default_scale None w1 = (inr o, w') ∧
    simulator w =
      (inr (<["observables" := o]> (<["parameters" := p]> ∅)), w') ∧
    nd_shape p = [10] ∧ nd_shape o = [10] ∧
    nd_values w1 p = Some xs ∧ nd_values w' p = Some xs ∧ length xs = 10 ∧
    nd_values w' o = Some ys ∧ length ys = 10.
Proof.
  intros Hfin Hpos Hscale.
  destruct (prior_values w default_D default_lower_bound default_upper_bound None
              (os_seed (entropy w)).1)
    as (p & w1 & xs & Hprior & Hp & Hxs & Hlen & _); [done..|].
  assert (Hvalid : nd_valid w1 p).
  { split; [|by rewrite Hxs]. rewrite (prior_run w _ _ _ None (os_seed (entropy w)).1)
      in Hprior by done. by injection Hprior as <- <-. }
  destruct (nd_valid_inv _ _ Hvalid) as (data & vals & Hdata & Hvals).
  assert (vals = xs) as ->.
  { unfold nd_values in Hxs. rewrite Hdata in Hxs. simpl in Hxs. congruence. }
  pose proof (observation_model_single_run w1 p default_scale None
                (os_seed (entropy w1)).1 data xs (proj1 Hvalid) Hdata Hvals eq_refl Hscale)
    as Hobs.
  set (ys := (cont_broadcast (λ g l, random_normal g l default_scale) xs
                (os_seed (entropy w1)).1).1) in *.
  assert (Hys : length ys = 10) by (unfold ys; by rewrite cont_broadcast_length).
  eexists p, _, w1, _, xs, ys. split; [done|]. split; [exact Hobs|].
  split; [|split; [done|]; split; [by rewrite Hp|]; split; [done|]; split;
           [|split; [done|]; split; [|done]]].
  - unfold simulator, bind. by rewrite Hprior, Hobs.
  - eapply nd_values_frame; [|exact Hxs]. simpl. apply bufs_alloc_subseteq.
  - rewrite nd_values_fresh, Hp.
    change (mapM (read ys) (nd_addrs [10] [1%Z] 0) = Some ys).
    rewrite <- Hys. apply mapM_read_contiguous.
Qed.

End Simulator.

(** C4.  Every call of [simulator] returns a record with exactly the two
    fields "parameters" and "observables"; "parameters" is a vector of
    length 10 and "observables" a vector of the same length. *)
Theorem simulator_record {G E : Type} `{!BitGen spec_float G E} (w : world spec_float G E) :
  ∃ d p o w' xs ys,
    simulator w = (inr d, w') ∧
    dom d = {["parameters"; "observables"]} ∧
    d !! "parameters" = Some p ∧
    d !! "observables" = Some o ∧
    nd_shape p = [10] ∧ nd_values w' p = Some xs ∧ length xs = 10 ∧
    nd_shape o = nd_shape p ∧ nd_values w' o = Some ys ∧ length ys = length xs.
Proof.
  destruct (simulator_run w)
    as (p & o & w1 & w' & xs & ys & _ & _ & Hsim & Hp & Ho & _ & Hxs & Hlx & Hys & Hly);
    [by vm_compute..|].
  exists (<["observables" := o]> (<["parameters" := p]> ∅)), p, o, w', xs, ys.
  split; [done|]. split; [|split; [|split]].
  - rewrite !dom_insert_L, dom_empty_L. set_solver.
  - by rewrite lookup_insert_ne, lookup_insert_eq.
  - by rewrite lookup_insert_eq.
  - repeat (split; [congruence|]). congruence.
Qed.

(** ** Frame: what a call leaves untouched *)

Section Frame.
Context {F G E : Type} `{!Double F} `{!BitGen F G E}.
Implicit Types (w : world F G E) (params : ndarray) (rng : option nat).

Ltac split_run H :=
  repeat (simplify_eq;
          match goal with
          | H' : context [match ?x with _ => _ end] |- _ => destruct x eqn:?
          end);
  simplify_eq.

(** A draw only adds a buffer, and returns the array that owns it. *)
Lemma Generator_normal_frame w r loc scale size res w' :
  Generator_normal r loc scale size w = (res, w') →
  bufs w ⊆ bufs w' ∧
  ∀ out, res = inr out →
    (nd_base out ∉ dom (bufs w)) ∧ is_Some (bufs w' !! nd_base out).
Proof.
  intros Hrun.
  unfold Generator_normal, bind, lift, get_buf, get_gen, put_gen, np_new, raise in Hrun.
  split_run Hrun; simpl; try (split; [done|]; by intros ? [=]).
  split; [apply bufs_alloc_subseteq|]. intros out [= <-]. simpl.
  split; [apply is_fresh|]. rewrite lookup_insert_eq. eauto.
Qed.

Lemma Generator_uniform_frame w r lo hi size res w' :
  Generator_uniform r lo hi size w = (res, w') →
  bufs w ⊆ bufs w' ∧
  ∀ out, res = inr out →
    (nd_base out ∉ dom (bufs w)) ∧ is_Some (bufs w' !! nd_base out).
Proof.
  intros Hrun.
  unfold Generator_uniform, bind, lift, get_gen, put_gen, np_new, raise in Hrun.
  split_run Hrun; simpl; try (split; [done|]; by intros ? [=]).
  split; [apply bufs_alloc_subseteq|]. intros out [= <-]. simpl.
  split; [apply is_fresh|]. rewrite lookup_insert_eq. eauto.
Qed.

Lemma prior_frame w D lo hi rng res w' :
  prior D lo hi rng w = (res, w') →
  bufs w ⊆ bufs w' ∧
  ∀ out, res = inr out →
    (nd_base out ∉ dom (bufs w)) ∧ is_Some (bufs w' !! nd_base out).
Proof.
  unfold prior. unfold bind at 1. rewrite rng_or_default_run.
  intros Hrun%Generator_uniform_frame. by rewrite seeded_bufs in Hrun.
Qed.

(** What [prior] returns is a readable vector. *)
Lemma prior_returns_vector w D lo hi rng p w' :
  prior D lo hi rng w = (inr p, w') →
  ∃ xs, nd_values w' p = Some xs ∧ nd_shape p = [Z.to_nat D] ∧ length xs = Z.to_nat D.
Proof.
  unfold prior. unfold bind at 1. rewrite rng_or_default_run.
  intros Hrun.
  unfold Generator_uniform, bind, lift, get_gen, put_gen, np_new, raise,
    np_empty_shape in Hrun.
  split_run Hrun. simpl in *. rewrite Nat.mul_1_r in *.
  match goal with Hc : cont_scalar ?f ?n ?g = (?l, _) |- _ =>
    pose proof (cont_scalar_length f n g) as Hlen; rewrite Hc in Hlen; simpl in Hlen;
    exists l end.
  split; [|done]. rewrite nd_values_fresh, <- Hlen. apply mapM_read_contiguous.
Qed.

Lemma np_transpose_base x axes out :
  np_transpose x axes = inr out → nd_base out = nd_base x.
Proof.
  unfold np_transpose. intros Hrun. split_run Hrun. done.
Qed.

Lemma observation_model_frame w params n_obs scale rng res w' :
  observation_model params n_obs scale rng w = (res, w') →
  bufs w ⊆ bufs w' ∧
  ∀ out, res = inr out →
    (nd_base out ∉ dom (bufs w)) ∧ is_Some (bufs w' !! nd_base out).
Proof.
  unfold observation_model. unfold bind at 1. rewrite rng_or_default_run.
  destruct n_obs as [k|].
  - unfold bind, lift. intros Hrun.
    destruct (shape_item params 0) as [e|s0]; [|destruct (shape_item params 1) as [e|s1]];
      try (injection Hrun as <- <-; rewrite seeded_bufs; split; [done|]; by intros ? [=]).
    destruct (Generator_normal _ _ _ _ _) as [[e|x] w2] eqn:Hdraw;
      apply Generator_normal_frame in Hdraw as [Hsub Hout];
      rewrite seeded_bufs in Hsub, Hout; injection Hrun as <- <-.
    + split; [done|]. by intros ? [=].
    + split; [done|]. intros out Htr.
      rewrite (np_transpose_base _ _ _ Htr). by apply Hout.
  - intros Hrun%Generator_normal_frame. by rewrite seeded_bufs in Hrun.
Qed.

(** C10.  [observation_model] leaves every buffer of the store as it was,
    the one of [params] included, and returns an array on a buffer that
    did not exist before the call; the "parameters" field of the record of
    [simulator] is the array [prior] returned, with the elements it had
    when [prior] returned. *)
Theorem observation_model_preserves_params :
  (∀ w params n_obs scale rng res w',
     observation_model params n_obs scale rng w = (res, w') →
     bufs w ⊆ bufs w' ∧
     (∀ vals, nd_values w params = Some vals → nd_values w' params = Some vals) ∧
     (∀ out, res = inr out → nd_base out ∉ dom (bufs w))) ∧
  (∀ w d w',
     simulator w = (inr d, w') →
     ∃ p w1,
       prior default_D default_lower_bound default_upper_bound None w = (inr p, w1) ∧
       d !! "parameters" = Some p ∧
       is_Some (nd_values w1 p) ∧
       nd_values w' p = nd_values w1 p).
Proof.
  split.
  - intros w params n_obs scale rng res w' Hrun.
    apply observation_model_frame in Hrun as [Hsub Hout].
    split; [done|]. split.
    + intros vals. by apply nd_values_frame.
    + intros out Hres. by apply Hout.
  - intros w d w' Hsim. unfold simulator, bind in Hsim.
    destruct (prior _ _ _ _ w) as [[e|p] w1] eqn:Hprior; [done|].
    destruct (observation_model p _ _ _ w1) as [[e|o] w2] eqn:Hobs; [done|].
    injection Hsim as <- <-.
    exists p, w1. split; [done|].
    split; [by rewrite lookup_insert_ne, lookup_insert_eq|].
    apply observation_model_frame in Hobs as [Hsub _].
    destruct (prior_returns_vector _ _ _ _ _ _ _ Hprior) as (xs & Hxs & _).
    split; [eauto|]. rewrite Hxs. by eapply nd_values_frame.
Qed.

End Frame.

Lemma observation_model_preserves_params_witness :
  bufs sample_world ⊆
    bufs (observation_model sample_batch (Some 2%Z) (flit (1 # 10)) (Some 0) sample_world).2 ∧
  (∀ vals,
     nd_values sample_world sample_batch = Some vals →
     nd_values
       (observation_model sample_batch (Some 2%Z) (flit (1 # 10)) (Some 0) sample_world).2
       sample_batch = Some vals) ∧
  (∀ out,
     (observation_model sample_batch (Some 2%Z) (flit (1 # 10)) (Some 0) sample_world).1
       = inr out →
     nd_base out ∉ dom (bufs sample_world)).
Proof.
  apply (proj1 (observation_model_preserves_params (F := spec_float) (G := nat) (E := nat))
           sample_world sample_batch (Some 2%Z) (flit (1 # 10)) (Some 0)).
  vm_compute. reflexivity.
Defined.

(** ** Determinism: two runs *)

Section TwoRuns.
Context {F G E : Type} `{!Double F} `{!BitGen F G E}.
Implicit Types (w : world F G E) (params : ndarray) (rng : option nat).

Lemma same_array_values w1 a1 w2 a2 :
  same_array w1 a1 w2 a2 → nd_values w1 a1 = nd_values w2 a2.
Proof.
  intros (Hsh & Hst & Hoff & Hbuf). unfold nd_values. by rewrite Hsh, Hst, Hoff, Hbuf.
Qed.

Lemma same_result_observe (res1 res2 : (exn + ndarray) * world F G E) :
  same_result res1 res2 → observe res1 = observe res2.
Proof.
  destruct res1 as [[e1|a1] w1], res2 as [[e2|a2] w2]; simpl; try done.
  - by intros ->.
  - intros Hsame. rewrite (same_array_values _ _ _ _ Hsame).
    by destruct Hsame as [-> _].
Qed.

Lemma seeded_source_eq w1 w2 rng :
  source_state w1 rng = source_state w2 rng →
  gens (seeded w1 rng) !! source_ref w1 rng = gens (seeded w2 rng) !! source_ref w2 rng.
Proof.
  destruct rng as [r|]; simpl; [done|]. intros [= Hseed].
  by rewrite !lookup_insert_eq, Hseed.
Qed.

Lemma seeded_entropy_eq w1 w2 rng :
  entropy w1 = entropy w2 → entropy (seeded w1 rng) = entropy (seeded w2 rng).
Proof. destruct rng; simpl; [done|]. by intros ->. Qed.

Lemma Generator_uniform_two_runs w1 w2 r1 r2 lo hi D :
  gens w1 !! r1 = gens w2 !! r2 →
  same_result (Generator_uniform r1 lo hi D w1) (Generator_uniform r2 lo hi D w2) ∧
  entropy (Generator_uniform r1 lo hi D w1).2 = entropy w1 ∧
  entropy (Generator_uniform r2 lo hi D w2).2 = entropy w2.
Proof.
  intros Hg. unfold Generator_uniform.
  destruct (negb (fisfinite (fsub hi lo))); [done|].
  destruct (negb (non_negative (fsub hi lo))); [done|].
  unfold bind, lift. destruct (np_empty_shape [D]) as [e|sh]; [done|].
  unfold get_gen. rewrite Hg. destruct (gens w2 !! r2) as [g|]; [|done].
  destruct (cont_scalar _ (size_of sh) g) as [xs g'].
  unfold put_gen, np_new, same_result, same_array. simpl.
  by rewrite !lookup_insert_eq.
Qed.

Lemma Generator_normal_two_runs w1 w2 r1 r2 loc1 loc2 scale size :
  gens w1 !! r1 = gens w2 !! r2 →
  same_array w1 loc1 w2 loc2 →
  same_result (Generator_normal r1 loc1 scale size w1)
              (Generator_normal r2 loc2 scale size w2) ∧
  entropy (Generator_normal r1 loc1 scale size w1).2 = entropy w1 ∧
  entropy (Generator_normal r2 loc2 scale size w2).2 = entropy w2.
Proof.
  intros Hg (Hsh & Hst & Hoff & Hbuf). unfold Generator_normal.
  destruct (negb (non_negative scale)); [done|].
  unfold bind, lift, output_shape, broadcast_to. rewrite Hsh, Hst, Hoff.
  destruct (match size with None => inr (nd_shape loc2) | Some sz => np_empty_shape sz end)
    as [e|sh]; [done|].
  destruct (broadcast_strides (nd_shape loc2) (nd_strides loc2) sh) as [st|]; [|done].
  unfold get_buf. rewrite Hbuf. destruct (bufs w2 !! nd_base loc2) as [data|]; [|done].
  destruct (read_all data (nd_addrs sh st (nd_offset loc2))) as [e|locs]; [done|].
  unfold get_gen. rewrite Hg. destruct (gens w2 !! r2) as [g|]; [|done].
  destruct (cont_broadcast _ locs g) as [xs g'].
  unfold put_gen, np_new, same_result, same_array. simpl.
  by rewrite !lookup_insert_eq.
Qed.

Lemma prior_two_runs w1 w2 D lo hi rng :
  source_state w1 rng = source_state w2 rng →
  same_result (prior D lo hi rng w1) (prior D lo hi rng w2) ∧
  (entropy w1 = entropy w2 →
   entropy (prior D lo hi rng w1).2 = entropy (prior D lo hi rng w2).2).
Proof.
  intros Hsrc. unfold prior, bind. rewrite !rng_or_default_run.
  destruct (Generator_uniform_two_runs (seeded w1 rng) (seeded w2 rng)
              (source_ref w1 rng) (source_ref w2 rng) lo hi D)
    as (Hres & He1 & He2); [by apply seeded_source_eq|].
  split; [done|]. intros He. rewrite He1, He2. by apply seeded_entropy_eq.
Qed.

Lemma observation_model_unfold w params n_obs scale rng :
  observation_model params n_obs scale rng w =
    match n_obs with
    | None => Generator_normal (source_ref w rng) params scale None (seeded w rng)
    | Some n =>
        match shape_item params 0, shape_item params 1 with
        | inr s0, inr s1 =>
            match Generator_normal (source_ref w rng) params scale (Some [n; s0; s1])
                    (seeded w rng) with
            | (inr x, w') => (np_transpose x [1; 0; 2], w')
            | (inl e, w') => (inl e, w')
            end
        | inl e, _ | inr _, inl e => (inl e, seeded w rng)
        end
    end.
Proof.
  unfold observation_model, bind, lift. rewrite rng_or_default_run.
  destruct n_obs as [n|]; [|done].
  destruct (shape_item params 0); [done|]. by destruct (shape_item params 1).
Qed.

Lemma np_transpose_two_runs w1 w2 x1 x2 axes :
  same_array w1 x1 w2 x2 →
  same_result (np_transpose x1 axes, w1) (np_transpose x2 axes, w2).
Proof.
  intros (Hsh & Hst & Hoff & Hbuf). unfold np_transpose, ndim. rewrite Hsh, Hst, Hoff.
  destruct (mapM (nd_shape x2 !!.) axes) as [sh|]; [|done].
  destruct (mapM (nd_strides x2 !!.) axes) as [st|]; [|done].
  destruct (bool_decide _); [|done]. by unfold same_result, same_array.
Qed.

Lemma observation_model_two_runs w1 w2 p1 p2 n_obs scale rng :
  source_state w1 rng = source_state w2 rng →
  same_array w1 p1 w2 p2 →
  same_result (observation_model p1 n_obs scale rng w1)
              (observation_model p2 n_obs scale rng w2) ∧
  (entropy w1 = entropy w2 →
   entropy (observation_model p1 n_obs scale rng w1).2 =
   entropy (observation_model p2 n_obs scale rng w2).2).
Proof.
  intros Hsrc Hsame. rewrite !observation_model_unfold.
  assert (Hsame' : same_array (seeded w1 rng) p1 (seeded w2 rng) p2).
  { destruct Hsame as (? & ? & ? & ?). unfold same_array. by rewrite !seeded_bufs. }
  assert (Hitem : ∀ i, shape_item p1 i = shape_item p2 i).
  { intros i. unfold shape_item. by destruct Hsame as (-> & _). }
  destruct n_obs as [n|].
  - rewrite !Hitem.
    destruct (shape_item p2 0) as [e|s0];
      [split; [done|]; by apply seeded_entropy_eq|].
    destruct (shape_item p2 1) as [e|s1];
      [split; [done|]; by apply seeded_entropy_eq|].
    destruct (Generator_normal_two_runs (seeded w1 rng) (seeded w2 rng)
                (source_ref w1 rng) (source_ref w2 rng) p1 p2 scale (Some [n; s0; s1]))
      as (Hres & He1 & He2); [by apply seeded_source_eq|done|].
    destruct (Generator_normal (source_ref w1 rng) _ _ _ _) as [[e1|x1] w1'],
             (Generator_normal (source_ref w2 rng) _ _ _ _) as [[e2|x2] w2'];
      simpl in *; try done.
    + split; [done|]. intros He. rewrite He1, He2. by apply seeded_entropy_eq.
    + split; [by apply np_transpose_two_runs|].
      intros He. rewrite He1, He2. by apply seeded_entropy_eq.
  - destruct (Generator_normal_two_runs (seeded w1 rng) (seeded w2 rng)
                (source_ref w1 rng) (source_ref w2 rng) p1 p2 scale None)
      as (Hres & He1 & He2); [by apply seeded_source_eq|done|].
    split; [done|]. intros He. rewrite He1, He2. by apply seeded_entropy_eq.
Qed.

Lemma simulator_two_runs w1 w2 :
  entropy w1 = entropy w2 →
  observe_record (simulator w1) = observe_record (simulator w2).
Proof.
  intros He. unfold simulator, bind.
  destruct (prior_two_runs w1 w2 default_D default_lower_bound default_upper_bound None)
    as (Hres & Hent); [simpl; by rewrite He|]. specialize (Hent He).
  destruct (prior _ _ _ _ w1) as [[e1|p1] w1'] eqn:Hp1,
           (prior _ _ _ _ w2) as [[e2|p2] w2'] eqn:Hp2; simpl in Hres, Hent; try done.
  { by rewrite Hres. }
  destruct (observation_model_two_runs w1' w2' p1 p2 None default_scale None)
    as (Hobs & _); [simpl; by rewrite Hent|done|].
  apply prior_frame in Hp1 as [_ Hb1], Hp2 as [_ Hb2].
  destruct (Hb1 p1 eq_refl) as [_ [xs1 Hxs1]], (Hb2 p2 eq_refl) as [_ [xs2 Hxs2]].
  destruct (observation_model p1 _ _ _ w1') as [[e1|o1] w1''] eqn:Ho1,
           (observation_model p2 _ _ _ w2') as [[e2|o2] w2''] eqn:Ho2; simpl in Hobs;
    try done.
  { by rewrite Hobs. }
  apply observation_model_frame in Ho1 as [Hsub1 _], Ho2 as [Hsub2 _].
  simpl. f_equal. rewrite !fmap_insert, !fmap_empty.
  assert (Hp : same_array w1'' p1 w2'' p2).
  { destruct Hres as (? & ? & ? & Hbuf). repeat (split; [done|]).
    rewrite (lookup_weaken _ _ _ _ Hxs1 Hsub1), (lookup_weaken _ _ _ _ Hxs2 Hsub2).
    by rewrite <- Hxs1, <- Hxs2. }
  rewrite (same_array_values _ _ _ _ Hp), (same_array_values _ _ _ _ Hobs).
  destruct Hp as (-> & _), Hobs as (-> & _). done.
Qed.

(** C6.  Two calls with the same arguments and the same state of the
    random source return the same exception or arrays of the same shape
    and elements, whatever else the two stores hold (other buffers, other
    generators, and the entropy pool when [rng] is given).  The source of
    [simulator], which takes no [rng], is the entropy pool. *)
Theorem two_runs_agree :
  (∀ w1 w2 D lo hi rng,
     source_state w1 rng = source_state w2 rng →
     observe (prior D lo hi rng w1) = observe (prior D lo hi rng w2)) ∧
  (∀ w1 w2 params n_obs scale rng,
     source_state w1 rng = source_state w2 rng →
     bufs w1 !! nd_base params = bufs w2 !! nd_base params →
     observe (observation_model params n_obs scale rng w1) =
     observe (observation_model params n_obs scale rng w2)) ∧
  (∀ w1 w2,
     entropy w1 = entropy w2 →
     observe_record (simulator w1) = observe_record (simulator w2)).
Proof.
  split; [|split].
  - intros w1 w2 D lo hi rng Hsrc. apply same_result_observe.
    by apply prior_two_runs.
  - intros w1 w2 params n_obs scale rng Hsrc Hbuf. apply same_result_observe.
    by apply observation_model_two_runs.
  - apply simulator_two_runs.
Qed.

End TwoRuns.

Lemma two_runs_agree_witness :
  observe (prior 3 (flit (-1 # 1)) (flit (1 # 1)) (Some 0) sample_world) =
  observe (prior 3 (flit (-1 # 1)) (flit (1 # 1)) (Some 0) sample_world_other).
Proof.
  apply (proj1 (two_runs_agree (F := spec_float) (G := nat) (E := nat))
           sample_world sample_world_other 3%Z (flit (-1 # 1)) (flit (1 # 1)) (Some 0)).
  reflexivity.
Defined.

(** ** Range of the prior *)

(** In exact arithmetic the draws of [prior] stay in the half-open
    interval. *)
Lemma prior_exact_range {G E : Type} `{!BitGen Q G E} (w : world Q G E) D (lo hi : Q) rng g :
  (0 < D < 2 ^ 60)%Z →
  fltb lo hi = true →
  source_state w rng = Some g →
  (∀ i, i < Z.to_nat D → unit_draw (nth_draw next_double i g) = true) →
  ∃ p w' vals,
    prior D lo hi rng w = (inr p, w') ∧
    nd_shape p = [Z.to_nat D] ∧
    nd_values w' p = Some vals ∧
    length vals = Z.to_nat D ∧
    Forall (λ x, in_half_open lo hi x = true) vals.
Proof.
  intros HD Hlt Hg Hu.
  destruct (prior_values w D lo hi rng g) as (p & w' & vals & Hrun & Hsh & Hv & Hlen & Hi);
    [done| |destruct HD; split; [lia|done]|done|].
  { unfold non_negative. simpl. rewrite negb_true_iff.
    destruct (Qltb (hi - lo) 0) eqn:Hneg; [|done].
    apply Qltb_lt in Hneg. apply Qltb_lt in Hlt. lra. }
  exists p, w', vals. repeat (split; [done|]).
  apply Forall_lookup. intros i x Hx.
  assert (i < Z.to_nat D) as Hlt_i by (rewrite <- Hlen; by eapply lookup_lt_Some).
  rewrite (Hi i Hlt_i) in Hx. injection Hx as <-.
  apply exact_uniform_range; [done|]. by apply Hu.
Qed.

Section PriorRange.
Context {G E : Type} `{!BitGen spec_float G E}.

(** C3, as the code has it.  For every D with 0 < D < 2^60 (the lengths
    [np.empty] accepts for a vector of doubles) and doubles
    [lower_bound < upper_bound]: when the difference
    [upper_bound - lower_bound] does not overflow, [prior] returns a vector
    of exactly length D whose every component lies in the closed interval
    [lower_bound, upper_bound], the draws of the source being doubles of
    [0, 1); when the difference overflows, [prior] raises
    [OverflowError] and draws nothing. *)
Theorem prior_length_and_range (w : world spec_float G E) D lo hi rng g :
  (0 < D < 2 ^ 60)%Z →
  fin_valid lo = true → fin_valid hi = true →
  fltb lo hi = true →
  source_state w rng = Some g →
  (∀ i, i < Z.to_nat D →
     fin_valid (nth_draw next_double i g) = true ∧
     unit_draw (nth_draw next_double i g) = true) →
  (fisfinite (fsub hi lo) = true →
   ∃ p w' vals,
     prior D lo hi rng w = (inr p, w') ∧
     nd_shape p = [Z.to_nat D] ∧
     nd_values w' p = Some vals ∧
     length vals = Z.to_nat D ∧
     Forall (λ x, in_closed lo hi x = true) vals) ∧
  (fisfinite (fsub hi lo) = false →
   prior D lo hi rng w =
     (inl (OverflowError "high - low range exceeds valid bounds"), seeded w rng)).
Proof.
  intros HD Hlo Hhi Hlt Hg Hu. split; [|apply prior_overflow].
  intros Hfin.
  assert (Hpos : non_negative (fsub hi lo) = true).
  { destruct (Hu 0 ltac:(lia)) as [Hv0 Hu0].
    by destruct (uniform_closed_range lo hi _ Hlo Hhi Hv0 Hlt Hfin Hu0) as [? _]. }
  destruct (prior_values w D lo hi rng g) as (p & w' & vals & Hrun & Hsh & Hv & Hlen & Hi);
    [done|done|destruct HD; split; [lia|done]|done|].
  exists p, w', vals. repeat (split; [done|]).
  apply Forall_lookup. intros i x Hx.
  assert (i < Z.to_nat D) as Hlt_i by (rewrite <- Hlen; by eapply lookup_lt_Some).
  rewrite (Hi i Hlt_i) in Hx. apply (inj Some) in Hx. subst x.
  destruct (Hu i Hlt_i) as [Hvi Hui].
  destruct (uniform_closed_range lo hi _ Hlo Hhi Hvi Hlt Hfin Hui) as (_ & _ & Hle1 & Hle2).
  unfold in_closed. by rewrite Hle1, Hle2.
Qed.

End PriorRange.

Lemma prior_length_and_range_witness :
  (∃ p w' vals,
     prior 3 (flit (-1 # 1)) (flit (1 # 1)) (Some 0) sample_world = (inr p, w') ∧
     nd_shape p = [Z.to_nat 3] ∧
     nd_values w' p = Some vals ∧
     length vals = Z.to_nat 3 ∧
     Forall (λ x, in_closed (flit (-1 # 1)) (flit (1 # 1)) x = true) vals) ∧
  prior 3 min_double max_double (Some 0) sample_world =
    (inl (OverflowError "high - low range exceeds valid bounds"),
     seeded sample_world (Some 0)).
Proof.
  assert (Hdraws : ∀ i, i < Z.to_nat 3 →
            fin_valid (nth_draw (F := spec_float) next_double i 3) = true ∧
            unit_draw (F := spec_float) (nth_draw next_double i 3) = true).
  { intros i Hi. change (Z.to_nat 3) with 3 in Hi.
    destruct i as [|[|[|i]]]; [by vm_compute..|lia]. }
  split.
  - apply (proj1 (prior_length_and_range sample_world 3%Z (flit (-1 # 1)) (flit (1 # 1))
                    (Some 0) 3 ltac:(done) eq_refl eq_refl eq_refl eq_refl Hdraws)).
    reflexivity.
  - apply (proj2 (prior_length_and_range sample_world 3%Z min_double max_double
                    (Some 0) 3 ltac:(done) eq_refl eq_refl eq_refl eq_refl Hdraws)).
    reflexivity.
Defined.

(** The bound of C3 in double precision.  With [lower_bound = 1.0],
    [upper_bound] the next double and a draw of 0.75, the sum
    [1.0 + (upper_bound - 1.0) * 0.75] rounds to [upper_bound], which is not
    in the half-open interval; with the bounds [-max] and [max] the
    difference overflows and [Generator.uniform] raises [OverflowError]. *)
Lemma prior_rounds_to_upper_bound :
  (fltb (flit (1 # 1)) next_after_one = true ∧
   unit_draw (F := spec_float) (nth_draw next_double 0 3) = true ∧
   ∃ p w',
     prior 1 (flit (1 # 1)) next_after_one (Some 0) sample_world = (inr p, w') ∧
     nd_shape p = [1] ∧
     nd_values w' p = Some [next_after_one] ∧
     ¬ Forall (λ x, in_half_open (flit (1 # 1)) next_after_one x = true) [next_after_one]) ∧
  (fltb min_double max_double = true ∧
   prior 1 min_double max_double (Some 0) sample_world =
     (inl (OverflowError "high - low range exceeds valid bounds"), sample_world)).
Proof.
  split.
  - split; [by vm_compute|]. split; [by vm_compute|].
    rewrite (prior_run sample_world 1 (flit (1 # 1)) next_after_one (Some 0) 3)
      by (by vm_compute).
    eexists _, _. split; [reflexivity|]. split; [reflexivity|]. split.
    + by vm_compute.
    + intros Hall. apply Forall_inv in Hall. vm_compute in Hall. discriminate Hall.
  - split; by vm_compute.
Qed.

(** ** Sizes [np.empty] refuses *)

Section Refused.
Local Open Scope Z_scope.

Lemma check_dims_too_big dims : ∀ nbytes,
  0 < nbytes ≤ intp_max → Forall (λ d, 0 ≤ d) dims →
  intp_max < nbytes * foldr (λ d a, Z.max 1 d * a) 1 dims →
  ∃ msg, check_dims nbytes dims = inl (ValueError msg).
Proof.
  induction dims as [|d dims IH]; intros nb Hnb Hpos Hbig.
  - simpl in Hbig. lia.
  - apply Forall_cons in Hpos as [Hd Hpos]. cbn [foldr] in Hbig. cbn [check_dims].
    destruct (Z.eqb_spec d 0) as [->|Hne].
    + apply IH; try done. by rewrite Z.max_l, Z.mul_1_l in Hbig by lia.
    + destruct (Z.ltb_spec d 0); [lia|].
      rewrite Z.max_r in Hbig by lia.
      destruct (Z.ltb_spec intp_max (nb * d)) as [_|Hfit]; [eauto|].
      apply IH; [nia|done|]. by rewrite <- Z.mul_assoc.
Qed.

(** [np.empty] raises [ValueError] for a negative dimension and for an
    array of doubles whose non-empty axes hold [2^63] bytes or more. *)
Lemma np_empty_shape_refused size :
  Exists (λ d, d < 0) size ∨
  intp_max < itemsize * foldr (λ d a, Z.max 1 d * a) 1 size →
  ∃ msg, np_empty_shape size = inl (ValueError msg).
Proof.
  intros Hbad. unfold np_empty_shape.
  destruct (forallb _ size) eqn:Hrange; [simpl|simpl; eauto].
  destruct (check_dims itemsize size) as [e|[]] eqn:Hcheck.
  - assert (∀ dims nb, check_dims nb dims = inl e → ∃ msg, e = ValueError msg) as Hval.
    { clear. induction dims as [|d dims IH]; intros nb; simpl; [done|].
      repeat case_match; try (intros [= <-]; eauto); apply IH. }
    destruct (Hval _ _ Hcheck) as [msg ->]. eauto.
  - exfalso. destruct (decide (Forall (λ d, 0 ≤ d) size)) as [Hpos|Hneg].
    + destruct Hbad as [Hex|Hbig].
      * apply Exists_exists in Hex as (d & Hin & Hd).
        eapply Forall_forall in Hpos; [|done]. simpl in Hpos. lia.
      * destruct (check_dims_too_big size itemsize) as [msg Hmsg];
          [by unfold itemsize, intp_max|done|done|congruence].
    + clear Hbad Hrange. revert Hcheck Hneg. generalize itemsize.
      induction size as [|d size IH]; intros nb; simpl; [by intros _ []|].
      intros Hcheck Hneg. repeat case_match; try done.
      * apply (IH nb); [done|]. intros Hall. apply Hneg. constructor; [lia|done].
      * apply (IH (nb * d)); [done|]. intros Hall. apply Hneg. constructor; [lia|done].
Qed.

End Refused.

(** ** The stream of the prior *)

Section Streams.
Context {F G E : Type} `{!Double F} `{!BitGen F G E}.
Implicit Types (w : world F G E) (rng : option nat).

Lemma advance_add (f : G → F * G) m : ∀ n g,
  advance f (m + n) g = advance f n (advance f m g).
Proof. induction m as [|m IH]; intros n g; simpl; [done|]. by rewrite IH. Qed.

Lemma cont_scalar_app (f : G → F * G) m : ∀ n g,
  (cont_scalar f (m + n) g).1 =
    (cont_scalar f m g).1 ++ (cont_scalar f n (advance f m g)).1.
Proof.
  induction m as [|m IH]; intros n g; simpl; [done|].
  destruct (f g) as [x g1] eqn:Hf. specialize (IH n g1).
  destruct (cont_scalar f (m + n) g1) as [xs g2].
  destruct (cont_scalar f m g1) as [ys g3]. simpl in *. by rewrite IH.
Qed.

Lemma prior_run_values (m : gmap nat (list F)) (gs : gmap nat G) (e : E) b (f : G → F * G) n g :
  nd_values (World (<[b := (cont_scalar f n g).1]> m) gs e) (NDArray b 0 [n] [1%Z]) =
    Some (cont_scalar f n g).1.
Proof.
  rewrite nd_values_fresh.
  pose proof (mapM_read_contiguous (cont_scalar f n g).1) as Hread.
  by rewrite cont_scalar_length in Hread.
Qed.

(** X1.  The components of the prior are the successive uniform draws of the
    source, each mapped to [lower + (upper - lower) * u], and the source is
    left advanced by exactly [D] draws (none when [D = 0]). *)
Theorem prior_draws_in_order w D lo hi rng g :
  fisfinite (fsub hi lo) = true →
  non_negative (fsub hi lo) = true →
  (0 ≤ D < 2 ^ 60)%Z →
  source_state w rng = Some g →
  ∃ p w' vals,
    prior D lo hi rng w = (inr p, w') ∧
    nd_values w' p = Some vals ∧
    length vals = Z.to_nat D ∧
    (∀ i, i < Z.to_nat D →
       vals !! i = Some (fadd lo (fmul (fsub hi lo) (nth_draw next_double i g)))) ∧
    gens w' !! source_ref w rng = Some (advance next_double (Z.to_nat D) g).
Proof.
  intros Hfin Hnn HD Hg.
  destruct (prior_values w D lo hi rng g Hfin Hnn HD Hg)
    as (p & w' & vals & Hrun & _ & Hvals & Hlen & Hall).
  exists p, w', vals. repeat split; try done.
  rewrite (prior_run w D lo hi rng g Hfin Hnn HD Hg) in Hrun.
  injection Hrun as _ <-. simpl. by rewrite lookup_insert_eq.
Qed.

(** X2.  A dimension that is negative or not below [2^60] makes [prior]
    raise [ValueError] (from [np.empty]) before any draw: the store is the
    one at the call, with the default generator when [rng] is [None]. *)
Theorem prior_rejected_dimension w D lo hi rng :
  fisfinite (fsub hi lo) = true →
  non_negative (fsub hi lo) = true →
  (D < 0 ∨ 2 ^ 60 ≤ D)%Z →
  ∃ msg, prior D lo hi rng w = (inl (ValueError msg), seeded w rng).
Proof.
  intros Hfin Hnn HD. rewrite prior_unfold. unfold Generator_uniform.
  rewrite Hfin, Hnn. unfold bind, lift.
  destruct (np_empty_shape_refused [D]) as [msg ->]; [|by eexists].
  destruct HD as [HD|HD]; [left; by constructor|right].
  change (2 ^ 60)%Z with 1152921504606846976%Z in HD.
  unfold itemsize, intp_max. simpl. lia.
Qed.

(** X3.  Two calls on the same generator continue one stream: the vectors of
    [prior(D1)] then [prior(D2)] are the two parts of the vector of
    [prior(D1 + D2)], and the generator ends in the same state. *)
Theorem prior_stream_continuity w D1 D2 lo hi r g :
  fisfinite (fsub hi lo) = true →
  non_negative (fsub hi lo) = true →
  (0 ≤ D1)%Z → (0 ≤ D2)%Z → (D1 + D2 < 2 ^ 60)%Z →
  gens w !! r = Some g →
  ∃ p1 w1 p2 w2 p w' xs ys,
    prior D1 lo hi (Some r) w = (inr p1, w1) ∧
    prior D2 lo hi (Some r) w1 = (inr p2, w2) ∧
    prior (D1 + D2) lo hi (Some r) w = (inr p, w') ∧
    nd_values w2 p1 = Some xs ∧
    nd_values w2 p2 = Some ys ∧
    nd_values w' p = Some (xs ++ ys) ∧
    gens w2 !! r = gens w' !! r.
Proof.
  intros Hfin Hnn HD1 HD2 HD Hg.
  pose proof (prior_run w D1 lo hi (Some r) g Hfin Hnn ltac:(lia) Hg) as H1.
  pose proof (prior_run w (D1 + D2) lo hi (Some r) g Hfin Hnn ltac:(lia) Hg) as H3.
  set (f := λ g, random_uniform g lo (fsub hi lo)) in *.
  match type of H1 with _ = (_, ?w0) => set (w1 := w0) in * end.
  assert (Hg1 : source_state w1 (Some r) = Some (advance next_double (Z.to_nat D1) g)).
  { simpl. by rewrite lookup_insert_eq. }
  pose proof (prior_run w1 D2 lo hi (Some r) _ Hfin Hnn ltac:(lia) Hg1) as H2. fold f in H2.
  eexists _, _, _, _, _, _, _, _.
  split; [exact H1|]. split; [exact H2|]. split; [exact H3|].
  split; [|split; [|split]].
  - eapply nd_values_frame; [|apply prior_run_values]. apply bufs_alloc_subseteq.
  - apply prior_run_values.
  - rewrite Z2Nat.inj_add by lia. rewrite prior_run_values.
    by rewrite cont_scalar_app, <- (advance_uniform lo (fsub hi lo)).
  - simpl. rewrite !lookup_insert_eq. f_equal.
    rewrite Z2Nat.inj_add by lia. by rewrite advance_add.
Qed.

End Streams.

(** ** Generators a call leaves untouched *)

Section Sources.
Context {F G E : Type} `{!Double F} `{!BitGen F G E}.
Implicit Types (w : world F G E) (params : ndarray) (rng : option nat).

Ltac run_cases :=
  repeat (simplify_eq;
          match goal with
          | H' : context [match ?x with _ => _ end] |- _ => destruct x eqn:?
          end);
  simplify_eq.

Lemma Generator_uniform_source w r lo hi size res w' :
  Generator_uniform r lo hi size w = (res, w') →
  entropy w' = entropy w ∧ ∀ r', r' ≠ r → gens w' !! r' = gens w !! r'.
Proof.
  intros Hrun.
  unfold Generator_uniform, bind, lift, get_gen, put_gen, np_new, raise in Hrun.
  run_cases; simpl; try done.
  split; [done|]. intros r' Hr'. by rewrite lookup_insert_ne.
Qed.

Lemma Generator_normal_source w r loc scale size res w' :
  Generator_normal r loc scale size w = (res, w') →
  entropy w' = entropy w ∧ ∀ r', r' ≠ r → gens w' !! r' = gens w !! r'.
Proof.
  intros Hrun.
  unfold Generator_normal, bind, lift, get_buf, get_gen, put_gen, np_new, raise in Hrun.
  run_cases; simpl; try done.
  split; [done|]. intros r' Hr'. by rewrite lookup_insert_ne.
Qed.

(** What a call leaves of the generators and of the entropy pool, from
    what the draw after [rng_or_default] leaves. *)
Lemma seeded_source_frame w rng w' :
  entropy w' = entropy (seeded w rng) →
  (∀ r', r' ≠ source_ref w rng → gens w' !! r' = gens (seeded w rng) !! r') →
  match rng with
  | Some r => entropy w' = entropy w ∧ ∀ r', r' ≠ r → gens w' !! r' = gens w !! r'
  | None => gens w ⊆ gens w' ∧ entropy w' = (os_seed (entropy w)).2
  end.
Proof.
  intros He Hg. destruct rng as [r|]; simpl in *; [done|]. split; [|done].
  apply map_subseteq_spec. intros r' g' Hr'.
  assert (r' ≠ fresh (dom (gens w))) as Hne.
  { intros ->. apply (is_fresh (dom (gens w))). by apply elem_of_dom. }
  by rewrite (Hg r' Hne), lookup_insert_ne.
Qed.

(** X4.  Every call of [prior], failing or not, keeps the buffers of the
    store and touches no generator but its source: with [rng] given, the
    other generators and the entropy pool are as before; with [rng = None],
    every generator of the store is as before and the pool has seeded one
    generator. *)
Theorem prior_touches_only_its_source w D lo hi rng res w' :
  prior D lo hi rng w = (res, w') →
  bufs w ⊆ bufs w' ∧
  match rng with
  | Some r => entropy w' = entropy w ∧ ∀ r', r' ≠ r → gens w' !! r' = gens w !! r'
  | None => gens w ⊆ gens w' ∧ entropy w' = (os_seed (entropy w)).2
  end.
Proof.
  intros Hrun. split; [by apply prior_frame in Hrun as [? _]|].
  rewrite prior_unfold in Hrun.
  apply Generator_uniform_source in Hrun as [He Hg]. by apply seeded_source_frame.
Qed.

(** X5.  Every call of [observation_model], failing or not, touches no
    generator but its source: with [rng] given, the other generators and the
    entropy pool are as before; with [rng = None], every generator of the
    store is as before and the pool has seeded one generator. *)
Theorem observation_model_touches_only_its_source w params n_obs scale rng res w' :
  observation_model params n_obs scale rng w = (res, w') →
  match rng with
  | Some r => entropy w' = entropy w ∧ ∀ r', r' ≠ r → gens w' !! r' = gens w !! r'
  | None => gens w ⊆ gens w' ∧ entropy w' = (os_seed (entropy w)).2
  end.
Proof.
  rewrite observation_model_unfold. intros Hrun.
  apply seeded_source_frame; destruct n_obs as [k|].
  - destruct (shape_item params 0) as [e|s0]; [|destruct (shape_item params 1) as [e|s1]];
      try by injection Hrun as _ <-.
    destruct (Generator_normal _ _ _ _ _) as [[e|x] w2] eqn:Hdraw;
      apply Generator_normal_source in Hdraw as [He _]; by injection Hrun as _ <-.
  - by apply Generator_normal_source in Hrun as [He _].
  - destruct (shape_item params 0) as [e|s0]; [|destruct (shape_item params 1) as [e|s1]];
      try by injection Hrun as _ <-.
    destruct (Generator_normal _ _ _ _ _) as [[e|x] w2] eqn:Hdraw;
      apply Generator_normal_source in Hdraw as [_ Hg]; by injection Hrun as _ <-.
  - by apply Generator_normal_source in Hrun as [_ Hg].
Qed.

(** X6.  The vector [prior] returns has one axis: passed to
    [observation_model] with a replicate count, the call reads [shape[1]] of
    it and raises [IndexError] before any draw. *)
Theorem prior_output_rejected_with_replicates w D lo hi rng p w1 k scale rng' :
  prior D lo hi rng w = (inr p, w1) →
  observation_model p (Some k) scale rng' w1 =
    (inl (IndexError "tuple index out of range"), seeded w1 rng').
Proof.
  intros Hrun. destruct (prior_returns_vector _ _ _ _ _ _ _ Hrun) as (xs & _ & Hsh & _).
  by apply (observation_model_vector_replicated w1 p (Z.to_nat D)).
Qed.

End Sources.

(** ** C-contiguous arrays *)

Section Contiguous.

Lemma flat_map_seq_blocks (off : Z) m n : ∀ a,
  flat_map (λ i, (λ j, (off + Z.of_nat i * Z.of_nat m + Z.of_nat j)%Z) <$> seq 0 m) (seq a n) =
    (λ k, (off + Z.of_nat k)%Z) <$> seq (a * m) (n * m).
Proof.
  induction n as [|n IH]; intros a; [done|].
  cbn [seq flat_map]. rewrite IH.
  replace (S n * m) with (m + n * m) by lia.
  rewrite seq_app, fmap_app. f_equal; [|f_equal; f_equal; lia].
  replace (seq (a * m) m) with (Nat.add (a * m) <$> seq 0 m)
    by (rewrite fmap_add_seq; f_equal; lia).
  rewrite <- list_fmap_compose. apply list_fmap_ext. intros _ j _. simpl. lia.
Qed.

Lemma nd_addrs_contiguous sh : ∀ off,
  nd_addrs sh (c_strides sh) off = (λ k, (off + Z.of_nat k)%Z) <$> seq 0 (size_of sh).
Proof.
  induction sh as [|n sh IH]; intros off.
  - simpl. by rewrite Z.add_0_r.
  - cbn [c_strides nd_addrs].
    rewrite (flat_map_ext _ (λ i, (λ j, (off + Z.of_nat i * Z.of_nat (size_of sh) + Z.of_nat j)%Z)
                                    <$> seq 0 (size_of sh))) by (intros i; apply IH).
    by rewrite (flat_map_seq_blocks off (size_of sh) n 0).
Qed.

Lemma nd_addrs_unit_axis N D (a b : Z) :
  nd_addrs [N; 1; D] [a; b; 1%Z] 0 = nd_addrs [N; D] [a; 1%Z] 0.
Proof.
  cbn [nd_addrs]. apply flat_map_ext. intros i. cbn [seq flat_map].
  rewrite app_nil_r. apply flat_map_ext. intros d. do 2 f_equal. lia.
Qed.

Lemma flat_map_nil {A B} (l : list A) : flat_map (λ _, @nil B) l = [].
Proof. by induction l. Qed.

End Contiguous.

(** ** Replicate counts and scales at the edges *)

Section Replicates.
Context {F G E : Type} `{!Double F} `{!BitGen F G E}.
Implicit Types (w : world F G E) (params : ndarray) (rng : option nat).

Lemma mapM_read_c_order (xs : list F) sh :
  length xs = size_of sh → mapM (read xs) (nd_addrs sh (c_strides sh) 0) = Some xs.
Proof.
  intros Hlen. pose proof (mapM_read_contiguous xs) as Hread.
  change [1%Z] with (c_strides [length xs]) in Hread.
  rewrite nd_addrs_contiguous in Hread. simpl size_of in Hread.
  by rewrite nd_addrs_contiguous, <- Hlen, <- (Nat.mul_1_r (length xs)).
Qed.

Lemma mapM_read_length (data : list F) addrs vals :
  mapM (read data) addrs = Some vals → length vals = length addrs.
Proof. intros Hm. symmetry. by eapply length_mapM. Qed.

(** Without [n_obs]: the elements of the result, in C order, are the
    elements of [params] each shifted by [scale] times the next draw. *)
Lemma observation_model_single_values w params scale rng g vals :
  length (nd_strides params) = length (nd_shape params) →
  nd_values w params = Some vals →
  source_state w rng = Some g →
  non_negative scale = true →
  ∃ out w',
    observation_model params None scale rng w = (inr out, w') ∧
    nd_shape out = nd_shape params ∧
    nd_values w' out = Some (cont_broadcast (λ g l, random_normal g l scale) vals g).1 ∧
    gens w' !! source_ref w rng = Some (advance random_standard_normal (length vals) g).
Proof.
  intros Hst Hvals Hg Hnn. unfold nd_values in Hvals.
  destruct (bufs w !! nd_base params) as [data|] eqn:Hdata; [|done]. simpl in Hvals.
  rewrite (observation_model_single_run w params scale rng g data vals) by done.
  eexists _, _. split; [reflexivity|]. split; [done|]. split.
  - rewrite nd_values_fresh. apply mapM_read_c_order.
    rewrite cont_broadcast_length, (mapM_read_length _ _ _ Hvals).
    by apply nd_addrs_length.
  - simpl. by rewrite lookup_insert_eq.
Qed.

(** X7.  [n_obs = 0] is not an error: the result has shape (N, 0, D), holds
    no element, and the source is not advanced. *)
Theorem observation_model_zero_replicates w params N D scale rng g :
  nd_shape params = [N; D] →
  nd_valid w params →
  source_state w rng = Some g →
  non_negative scale = true →
  (8 * Z.max 1 (Z.of_nat N) * Z.max 1 (Z.of_nat D) < 2 ^ 63)%Z →
  ∃ out w',
    observation_model params (Some 0%Z) scale rng w = (inr out, w') ∧
    nd_shape out = [N; 0; D] ∧
    nd_values w' out = Some [] ∧
    gens w' !! source_ref w rng = Some g.
Proof.
  intros Hsh Hvalid Hg Hnn Hfit.
  destruct (nd_valid_inv w params Hvalid) as (data & vals & Hdata & Hvals).
  destruct Hvalid as [Hst _].
  destruct params as [b0 off sh st]. simpl in *. subst sh.
  destruct st as [|s0 [|s1 [|]]]; try done.
  destruct (observation_model_replicated_run w b0 off N D s0 s1 0 scale rng g data vals
              Hdata Hvals Hg Hnn ltac:(lia)) as (locs & Hlocs & ->).
  { by rewrite Z.max_l, Z.mul_1_r by lia. }
  simpl in Hlocs. injection Hlocs as <-.
  eexists _, _. split; [reflexivity|]. split; [done|]. split.
  - rewrite nd_values_fresh. change (Z.to_nat 0) with 0.
    cbn [nd_addrs seq flat_map]. by rewrite flat_map_nil.
  - simpl. by rewrite lookup_insert_eq.
Qed.

(** X8.  A replicate count that is negative, or so large that the non-empty
    axes of the (k, N, D) array of doubles hold [2^63] bytes or more, makes
    [observation_model] raise [ValueError] (from [np.empty]) before any
    draw. *)
Theorem observation_model_rejected_replicates w params N D rest k scale rng :
  nd_shape params = N :: D :: rest →
  non_negative scale = true →
  (k < 0 ∨ 2 ^ 63 ≤ 8 * k * Z.max 1 (Z.of_nat N) * Z.max 1 (Z.of_nat D))%Z →
  ∃ msg,
    observation_model params (Some k) scale rng w =
      (inl (ValueError msg), seeded w rng).
Proof.
  intros Hsh Hnn Hk. rewrite observation_model_unfold.
  unfold shape_item. rewrite Hsh. simpl.
  unfold Generator_normal. rewrite Hnn. unfold bind, lift, output_shape. simpl.
  destruct (np_empty_shape_refused [k; Z.of_nat N; Z.of_nat D]) as [msg ->]; [|by eexists].
  destruct (decide (k < 0)%Z) as [Hneg|Hpos]; [left; by constructor|right].
  destruct Hk as [Hk|Hk]; [done|].
  change (2 ^ 63)%Z with 9223372036854775808%Z in Hk.
  unfold itemsize, intp_max. cbn [foldr]. rewrite Z.mul_1_r.
  destruct (decide (k = 0%Z)) as [->|Hk0]; [lia|].
  rewrite (Z.max_r 1 k) by lia. lia.
Qed.

(** X9.  A scale with the sign bit set that is not a NaN (a negative number,
    [-0.0] included) makes [observation_model] raise [ValueError] before any
    draw, once the size argument is built. *)
Theorem observation_model_negative_scale w params n_obs scale rng :
  fisnan scale = false →
  fsignbit scale = true →
  n_obs = None ∨ 2 ≤ ndim params →
  observation_model params n_obs scale rng w =
    (inl (ValueError "scale < 0"), seeded w rng).
Proof.
  intros Hnan Hsign Hrank. rewrite observation_model_unfold.
  assert (Hnn : non_negative scale = false).
  { unfold non_negative. by rewrite Hnan, Hsign. }
  destruct n_obs as [k|].
  - destruct Hrank as [|Hrank]; [done|]. unfold ndim in Hrank.
    destruct (nd_shape params) as [|N [|D rest]] eqn:Hsh; simpl in Hrank; try lia.
    unfold shape_item. rewrite Hsh. simpl.
    unfold Generator_normal. by rewrite Hnn.
  - unfold Generator_normal. by rewrite Hnn.
Qed.

(** X10.  [n_obs = 1] draws what [n_obs = None] draws: from the same store
    the two calls end in the same store and return the same elements, with
    shapes (N, 1, D) and (N, D). *)
Theorem observation_model_one_replicate w params N D scale rng g :
  nd_shape params = [N; D] →
  nd_valid w params →
  source_state w rng = Some g →
  non_negative scale = true →
  (8 * Z.max 1 (Z.of_nat N) * Z.max 1 (Z.of_nat D) < 2 ^ 63)%Z →
  ∃ o o1 w' vals,
    observation_model params None scale rng w = (inr o, w') ∧
    observation_model params (Some 1%Z) scale rng w = (inr o1, w') ∧
    nd_shape o = [N; D] ∧
    nd_shape o1 = [N; 1; D] ∧
    nd_values w' o = Some vals ∧
    nd_values w' o1 = Some vals.
Proof.
  intros Hsh Hvalid Hg Hnn Hfit.
  destruct (nd_valid_inv w params Hvalid) as (data & vals & Hdata & Hvals).
  destruct Hvalid as [Hst _].
  rewrite (observation_model_single_run w params scale rng g data vals) by done.
  destruct params as [b0 off sh st]. simpl in *. subst sh.
  destruct st as [|s0 [|s1 [|]]]; try done.
  destruct (observation_model_replicated_run w b0 off N D s0 s1 1 scale rng g data vals
              Hdata Hvals Hg Hnn ltac:(lia)) as (locs & Hlocs & ->).
  { by rewrite Z.max_l, Z.mul_1_r by lia. }
  rewrite nd_addrs_replicate in Hlocs. change (Z.to_nat 1) with 1 in Hlocs.
  cbn [replicate concat] in Hlocs. rewrite app_nil_r in Hlocs.
  rewrite Hvals in Hlocs. injection Hlocs as <-.
  pose proof (mapM_read_length _ _ _ Hvals) as Hlen.
  rewrite nd_addrs_length in Hlen by done.
  eexists _, _, _, _. split; [reflexivity|]. split; [reflexivity|].
  split; [done|]. split; [done|].
  assert (Hread : mapM (read (cont_broadcast (λ g l, random_normal g l scale) vals g).1)
                    (nd_addrs [N; D] (c_strides [N; D]) 0) =
                  Some (cont_broadcast (λ g l, random_normal g l scale) vals g).1).
  { apply mapM_read_c_order. by rewrite cont_broadcast_length. }
  split.
  - rewrite nd_values_fresh. exact Hread.
  - rewrite nd_values_fresh.
    change (Z.to_nat 1) with 1. rewrite nd_addrs_unit_axis. exact Hread.
Qed.

(** X11.  [prior] then [observation_model] on one generator: the observation
    of component [i] is that component plus [scale] times the [i]-th
    standard normal draw taken after the [D] uniform draws of the prior. *)
Theorem prior_then_observation_shared_source w D lo hi scale r g :
  fisfinite (fsub hi lo) = true →
  non_negative (fsub hi lo) = true →
  (0 ≤ D < 2 ^ 60)%Z →
  non_negative scale = true →
  gens w !! r = Some g →
  ∃ p w1 o w2 xs ys,
    prior D lo hi (Some r) w = (inr p, w1) ∧
    observation_model p None scale (Some r) w1 = (inr o, w2) ∧
    nd_values w2 p = Some xs ∧
    nd_values w2 o = Some ys ∧
    length xs = Z.to_nat D ∧
    length ys = Z.to_nat D ∧
    (∀ i x, xs !! i = Some x →
       ys !! i = Some (fadd x (fmul scale
                  (nth_draw random_standard_normal i (advance next_double (Z.to_nat D) g))))) ∧
    gens w2 !! r =
      Some (advance random_standard_normal (Z.to_nat D) (advance next_double (Z.to_nat D) g)).
Proof.
  intros Hfin Hnn HD Hsc Hg.
  destruct (prior_values w D lo hi (Some r) g Hfin Hnn HD Hg)
    as (p & w1 & xs & Hrun & Hsh & Hxs & Hlen & _).
  assert (Hg1 : source_state w1 (Some r) = Some (advance next_double (Z.to_nat D) g)).
  { rewrite (prior_run w D lo hi (Some r) g Hfin Hnn HD Hg) in Hrun.
    injection Hrun as _ <-. simpl. by rewrite lookup_insert_eq. }
  assert (Hst : length (nd_strides p) = length (nd_shape p)).
  { rewrite (prior_run w D lo hi (Some r) g Hfin Hnn HD Hg) in Hrun.
    by injection Hrun as <- _. }
  destruct (observation_model_single_values w1 p scale (Some r) _ xs Hst Hxs Hg1 Hsc)
    as (o & w2 & Hobs & Hosh & Hys & Hg2).
  eexists p, w1, o, w2, xs, _.
  split; [done|]. split; [done|]. split.
  { apply observation_model_frame in Hobs as [Hsub _]. by eapply nd_values_frame. }
  split; [done|]. split; [done|]. split; [by rewrite cont_broadcast_length|].
  split; [|rewrite Hlen in Hg2; exact Hg2].
  intros i x Hi. by apply cont_broadcast_normal_lookup.
Qed.

End Replicates.

(** ** Bounds of the prior at the edges, in double precision *)

Section RangeChecks.
Context {F G E : Type} `{!Double F} `{!BitGen F G E}.
Implicit Types (w : world F G E) (rng : option nat).

Lemma prior_negative_range w D lo hi rng :
  fisfinite (fsub hi lo) = true →
  non_negative (fsub hi lo) = false →
  prior D lo hi rng w = (inl (ValueError "high - low < 0"), seeded w rng).
Proof.
  intros Hfin Hneg. rewrite prior_unfold. unfold Generator_uniform. by rewrite Hfin, Hneg.
Qed.

End RangeChecks.

Section Bounds.
Context {G E : Type} `{!BitGen spec_float G E}.
Implicit Types (w : world spec_float G E) (rng : option nat).
Local Open Scope Z_scope.

Lemma rounds_exact_neg m e :
  bounded Binary64.prec Binary64.emax m e = true →
  rounds true (Zpos m * 2 ^ (e + 2148)) e (S754_finite true m e).
Proof.
  intros Hb. pose proof (bounded_inv _ _ Hb) as (He & Hm & Hn).
  pose proof (pow2_pos (e + 2148) ltac:(lia)).
  exists (Zpos m), (Zpos m). split; [lia|]. split; [lia|]. split; [done|].
  split; [lia|]. split; [by left|]. split; [lia|].
  right. right. by exists m, e.
Qed.

(** [hi - lo] for doubles [hi < lo]: the rounding, with a negative sign,
    of the exact difference. *)
Lemma SFsub_reversed hi lo :
  fin_valid hi = true → fin_valid lo = true → Fv hi < Fv lo →
  ∃ e', rounds true (Fv lo - Fv hi) e' (SFsub Binary64.prec Binary64.emax hi lo).
Proof.
  intros Hhi Hlo Hlt.
  destruct hi as [sx|sx| |sx mx ex], lo as [sy|sy| |sy my ey];
    simpl fin_valid in Hhi, Hlo; try done.
  - destruct (Fv_pos_inv (S754_finite sy my ey) Hlo Hlt) as (m & e & [= -> <- <-] & Hb & Hv).
    exists ey. cbn [SFsub negb]. rewrite Hv. simpl Fv. rewrite Z.sub_0_r.
    by apply rounds_exact_neg.
  - destruct (Fv_neg_inv (S754_finite sx mx ex) Hhi Hlt) as (m & e & [= -> <- <-] & Hb & Hv).
    exists ex. cbn [SFsub]. rewrite Hv. simpl Fv.
    replace (0 - - (Zpos mx * 2 ^ (ex + 2148))) with (Zpos mx * 2 ^ (ex + 2148)) by lia.
    by apply rounds_exact_neg.
  - cbn [SFsub].
    pose proof (bounded_inv _ _ Hhi) as (Hex & _ & _).
    pose proof (bounded_inv _ _ Hlo) as (Hey & _ & _).
    set (ez := Z.min ex ey).
    set (M := cond_Zopp sx (Zpos (shl_align mx ex ez).1) -
              cond_Zopp sy (Zpos (shl_align my ey ez).1)).
    assert (HM : M * 2 ^ (ez + 2148) =
                 Fv (S754_finite sx mx ex) - Fv (S754_finite sy my ey)).
    { unfold M. rewrite Z.mul_sub_distr_r, !aligned_value by lia. done. }
    pose proof (pow2_pos (ez + 2148) ltac:(lia)) as HP.
    change (fst (shl_align mx ex ez)) with (shl_align mx ex ez).1.
    change (fst (shl_align my ey ez)) with (shl_align my ey ez).1. fold M.
    destruct M as [|p|p]; try nia.
    cbn [binary_normalize].
    replace (Fv (S754_finite sy my ey) - Fv (S754_finite sx mx ex))
      with (Zpos p * 2 ^ (ez + 2148)) by lia.
    eexists. apply binary_round_rounds. lia.
Qed.

(** X12.  Reversed bounds are refused: for doubles
    [upper_bound < lower_bound], [prior] raises [ValueError] when the
    difference is finite and [OverflowError] when it overflows, before any
    draw. *)
Theorem prior_reversed_bounds w D lo hi rng :
  fin_valid lo = true → fin_valid hi = true →
  fltb hi lo = true →
  prior D lo hi rng w =
    (inl (if fisfinite (fsub hi lo) then ValueError "high - low < 0"
          else OverflowError "high - low range exceeds valid bounds"),
     seeded w rng).
Proof.
  intros Hlo Hhi Hlt.
  apply (SFltb_Fv hi lo Hhi Hlo) in Hlt.
  destruct (SFsub_reversed hi lo Hhi Hlo Hlt) as (e' & Hround).
  destruct (fisfinite (fsub hi lo)) eqn:Hfin; [|by apply prior_overflow].
  destruct (rounds_finite _ _ _ _ Hround Hfin) as [Hr Hsign].
  apply prior_negative_range; [done|].
  unfold non_negative. cbn [fisnan fsignbit fsub binary64]. unfold Binary64.sub.
  rewrite Hsign. by destruct (SFsub _ _ hi lo).
Qed.

(** X13.  A bound that is an infinity or a NaN makes [prior] raise
    [OverflowError] before any draw. *)
Theorem prior_nonfinite_bound w D lo hi rng :
  fisfinite lo = false ∨ fisfinite hi = false →
  prior D lo hi rng w =
    (inl (OverflowError "high - low range exceeds valid bounds"), seeded w rng).
Proof.
  intros Hinf. apply prior_overflow.
  cbn [fisfinite fsub binary64] in *. unfold Binary64.sub.
  destruct Hinf as [Hinf|Hinf];
    destruct hi as [[]|[]| |sx mx ex], lo as [[]|[]| |sy my ey]; done.
Qed.

(** A draw of [0, 1) is finite. *)
Lemma unit_draw_finite (u : spec_float) : unit_draw u = true → fisfinite u = true.
Proof.
  unfold unit_draw, in_half_open. rewrite lit_0, lit_1.
  destruct u as [[]|[]| |[] m e]; simpl; done.
Qed.

(** [b + (b - b) * u = b] for a double [b] other than [-0.0] and a finite
    [u]. *)
Lemma equal_bounds_uniform (b u : spec_float) :
  fin_valid b = true → b ≠ S754_zero true → fisfinite u = true →
  fsub b b = S754_zero false ∧ fadd b (fmul (fsub b b) u) = b.
Proof.
  intros Hb Hnz Hu.
  assert (Hsub : fsub b b = S754_zero false).
  { cbn [fsub binary64]. unfold Binary64.sub.
    destruct b as [[]| | |s m e]; try done.
    cbn [SFsub]. by rewrite Z.sub_diag. }
  split; [done|]. rewrite Hsub.
  destruct b as [[]| | |s m e]; try done;
    destruct u as [[]|[]| |[] m' e']; done.
Qed.

(** X14.  Equal bounds: for every double [b] other than [-0.0],
    [prior(D, b, b)] returns [D] copies of [b], whatever the source
    draws. *)
Theorem prior_equal_bounds w D b rng g :
  fin_valid b = true →
  b ≠ S754_zero true →
  (0 ≤ D < 2 ^ 60)%Z →
  source_state w rng = Some g →
  (∀ i, (i < Z.to_nat D)%nat → unit_draw (nth_draw next_double i g) = true) →
  ∃ p w',
    prior D b b rng w = (inr p, w') ∧
    nd_shape p = [Z.to_nat D] ∧
    nd_values w' p = Some (replicate (Z.to_nat D) b).
Proof.
  intros Hb Hnz HD Hg Hdraws.
  assert (Hsub : fsub b b = S754_zero false).
  { by apply (equal_bounds_uniform b (S754_zero false)). }
  destruct (prior_values w D b b rng g) as (p & w' & vals & Hrun & Hsh & Hvals & Hlen & Hall);
    try done; try by rewrite Hsub.
  exists p, w'. split; [done|]. split; [done|]. rewrite Hvals. f_equal.
  apply list_eq. intros i. destruct (decide (i < Z.to_nat D)%nat) as [Hi|Hi].
  - rewrite (Hall i Hi), lookup_replicate_2 by done. f_equal.
    apply equal_bounds_uniform; try done. by apply unit_draw_finite, Hdraws.
  - rewrite !(proj2 (lookup_ge_None _ _)); [done| |]; rewrite ?length_replicate; lia.
Qed.

End Bounds.

Section DefaultBounds.
Context {G E : Type} `{!BitGen spec_float G E}.
Implicit Types (w : world spec_float G E) (rng : option nat).
Local Open Scope Z_scope.

(** [2.0 * u] for a double [u] of [0, 1): at most [2 - 2^-52]. *)
Lemma double_unit_draw (u : spec_float) :
  fin_valid u = true → 0 ≤ Fv u → Fv u < 2 ^ 2148 →
  fin_valid (SFmul Binary64.prec Binary64.emax (S754_finite false 4503599627370496 (-51)) u) = true ∧
  0 ≤ Fv (SFmul Binary64.prec Binary64.emax (S754_finite false 4503599627370496 (-51)) u) ≤
    (2 ^ 54 - 2) * 2 ^ 2095.
Proof.
  intros Hu Hu0 Hu1.
  pose proof (pow2_pos 2095 ltac:(lia)) as HQ.
  destruct u as [s| | |s m e]; try done.
  simpl fin_valid in Hu.
  pose proof (bounded_inv _ _ Hu) as (He & _ & _).
  pose proof (pow2_pos (e + 2148) ltac:(lia)) as HP.
  assert (s = false) as ->.
  { destruct s; [|done]. unfold Fv, cond_Zopp in Hu0. nia. }
  assert (Hb2 : bounded Binary64.prec Binary64.emax 4503599627370496 (-51) = true)
    by (by vm_compute).
  destruct (SFmul_rounds _ _ _ _ Hb2 Hu) as (e' & V & Hround & HV & HVeq).
  pose proof (unit_below_one (S754_finite false m e) Hu Hu0 Hu1) as Hbelow.
  unfold Fv, cond_Zopp in Hbelow, Hu1.
  set (U := Z.pos m * 2 ^ (e + 2148)) in *.
  assert (HV2 : V = 2 * U).
  { change (Z.pos 4503599627370496) with (2 ^ 52) in HVeq.
    rewrite <- Z.pow_add_r in HVeq by lia.
    change (52 + (-51 + 2148)) with (2148 + 1) in HVeq.
    rewrite pow2_succ in HVeq by lia.
    pose proof (pow2_pos 2148 ltac:(lia)) as HT.
    set (T := 2 ^ 2148) in *. clearbody T U. nia. }
  assert (Hb3 : bounded Binary64.prec Binary64.emax 9007199254740991 (-52) = true)
    by (by vm_compute).
  assert (HT : 2 ^ 2148 = 2 ^ 53 * 2 ^ 2095) by (by rewrite <- Z.pow_add_r by lia).
  assert (HT2 : 2 ^ (-52 + 2148) = 2 * 2 ^ 2095).
  { change (-52 + 2148) with (2095 + 1). by rewrite pow2_succ by lia. }
  destruct (rounds_upper _ _ _ _ 9007199254740991 (-52) Hround Hb3) as (Hfv & Hsg & Hup).
  { rewrite HT2, HV2. rewrite HT in Hbelow.
    change (Z.pos 9007199254740991) with (2 ^ 53 - 1).
    set (Q := 2 ^ 2095) in *. set (C := 2 ^ 53) in *.
    assert (0 < C) by (by apply pow2_pos). clearbody Q C U. nia. }
  split; [done|]. cbn [cond_Zopp] in Hsg. rewrite HT2 in Hup.
  change (Z.pos 9007199254740991) with (2 ^ 53 - 1) in Hup.
  change (2 ^ 54) with (2 * 2 ^ 53).
  set (Q := 2 ^ 2095) in *. set (C := 2 ^ 53) in *. clearbody Q C. lia.
Qed.


(** With the default bounds, [-1.0 + (1.0 - -1.0) * u] is a double of
    [-1, 1): the range is [2.0], the product at most [2 - 2^-52], and the
    sum at most [1 - 2^-52]. *)
Lemma default_uniform_half_open (u : spec_float) :
  fin_valid u = true → unit_draw u = true →
  in_half_open (flit (-1 # 1)) (flit (1 # 1))
    (fadd (flit (-1 # 1)) (fmul (fsub (flit (1 # 1)) (flit (-1 # 1))) u)) = true.
Proof.
  intros Hu Hunit.
  assert (Hrange : fsub (flit (1 # 1)) (flit (-1 # 1)) =
                   S754_finite false 4503599627370496 (-51)) by (by vm_compute).
  assert (Hm1 : flit (-1 # 1) = S754_finite true 4503599627370496 (-52)) by (by vm_compute).
  rewrite Hrange.
  unfold unit_draw, in_half_open in Hunit. rewrite lit_0 in Hunit.
  apply andb_true_iff in Hunit as [Hu0 Hu1].
  cbn [fleb fltb binary64] in Hu0, Hu1.
  apply (SFleb_Fv (S754_zero false) u eq_refl Hu) in Hu0.
  change (Fv (S754_zero false)) with 0 in Hu0.
  assert (Hone : fin_valid (flit (1 # 1)) = true) by (by vm_compute).
  apply (SFltb_Fv u (flit (1 # 1)) Hu Hone) in Hu1. rewrite Fv_lit_1 in Hu1.
  assert (Hlow : fin_valid (flit (-1 # 1)) = true) by (by vm_compute).
  pose (top := S754_finite false 9007199254740990 (-53)).
  assert (Htop : fin_valid top = true) by (by vm_compute).
  destruct (double_unit_draw u Hu Hu0 Hu1) as [Hp Hpr].
  assert (HT : 2 ^ 2148 = 2 ^ 53 * 2 ^ 2095) by (by rewrite <- Z.pow_add_r by lia).
  assert (Hvlow : Fv (flit (-1 # 1)) = - (2 ^ 53 * 2 ^ 2095)).
  { rewrite Hm1. unfold Fv, cond_Zopp. change (-52 + 2148) with (2095 + 1).
    rewrite pow2_succ by lia. change (Z.pos 4503599627370496) with (2 ^ 52).
    change (2 ^ 53) with (2 * 2 ^ 52). lia. }
  assert (Hvtop : Fv top = (2 ^ 53 - 2) * 2 ^ 2095).
  { unfold top, Fv, cond_Zopp. change (-53 + 2148) with 2095.
    by change (Z.pos 9007199254740990) with (2 ^ 53 - 2). }
  change (2 ^ 54) with (2 * 2 ^ 53) in Hpr.
  destruct (SFadd_sandwich (flit (-1 # 1)) _ (flit (-1 # 1)) top Hlow Hp Hlow Htop)
    as [Hx Hxr].
  { rewrite Hvlow, Hvtop. lia. }
  unfold in_half_open. apply andb_true_iff.
  cbn [fleb fltb fadd fmul binary64]. unfold Binary64.add, Binary64.mul.
  split.
  - apply SFleb_Fv; [exact Hlow|exact Hx|]. apply Hxr.
  - apply SFltb_Fv; [exact Hx|exact Hone|].
    rewrite Fv_lit_1, HT. rewrite Hvtop in Hxr.
    pose proof (pow2_pos 2095 ltac:(lia)). lia.
Qed.

(** X15.  With the default bounds [-1.0] and [1.0] every component of the
    prior lies in the half-open interval [-1, 1): the upper bound is never
    drawn. *)
Theorem prior_default_bounds_half_open w D rng g :
  (0 ≤ D < 2 ^ 60)%Z →
  source_state w rng = Some g →
  (∀ i, (i < Z.to_nat D)%nat →
     fin_valid (nth_draw next_double i g) = true ∧
     unit_draw (nth_draw next_double i g) = true) →
  ∃ p w' vals,
    prior D default_lower_bound default_upper_bound rng w = (inr p, w') ∧
    nd_values w' p = Some vals ∧
    length vals = Z.to_nat D ∧
    Forall (λ x, in_half_open default_lower_bound default_upper_bound x = true) vals.
Proof.
  intros HD Hg Hu.
  destruct (prior_values w D default_lower_bound default_upper_bound rng g)
    as (p & w' & vals & Hrun & Hsh & Hv & Hlen & Hi); [by vm_compute|by vm_compute|done..|].
  exists p, w', vals. repeat (split; [done|]).
  apply Forall_lookup. intros i x Hx.
  assert (i < Z.to_nat D)%nat as Hlt_i by (rewrite <- Hlen; by eapply lookup_lt_Some).
  rewrite (Hi i Hlt_i) in Hx. apply (inj Some) in Hx. subst x.
  destruct (Hu i Hlt_i) as [Hvi Hui].
  by apply default_uniform_half_open.
Qed.

End DefaultBounds.

(** ** Scales at the edges, in double precision *)

Section Scales.
Context {G E : Type} `{!BitGen spec_float G E}.
Implicit Types (w : world spec_float G E) (params : ndarray) (rng : option nat).

(** [l + 0.0 * z = l] for every double [l] other than [-0.0] and every
    finite draw [z]. *)
Lemma zero_scale_fixed (l z : spec_float) :
  l ≠ S754_zero true → fisfinite z = true → fadd l (fmul (flit (0 # 1)) z) = l.
Proof.
  intros Hl Hz. rewrite lit_0.
  destruct l as [[]|[]| |s m e]; try done;
    destruct z as [[]|[]| |[] m' e']; done.
Qed.

(** X16.  A NaN scale passes the check of [Generator.normal] (only a set
    sign bit is refused): the call returns, and every element of the result
    is NaN. *)
Theorem observation_model_nan_scale w params scale rng g vals :
  nd_valid w params →
  nd_values w params = Some vals →
  source_state w rng = Some g →
  fisnan scale = true →
  ∃ out w',
    observation_model params None scale rng w = (inr out, w') ∧
    nd_shape out = nd_shape params ∧
    nd_values w' out = Some (replicate (length vals) S754_nan).
Proof.
  intros [Hst _] Hvals Hg Hnan.
  assert (scale = S754_nan) as -> by (by destruct scale).
  destruct (observation_model_single_values w params S754_nan rng g vals Hst Hvals Hg)
    as (out & w' & Hrun & Hsh & Hout & _); [done|].
  exists out, w'. split; [done|]. split; [done|]. rewrite Hout. f_equal.
  apply list_eq. intros i. destruct (vals !! i) as [l|] eqn:Hl.
  - rewrite (cont_broadcast_normal_lookup S754_nan vals g i l Hl).
    rewrite lookup_replicate_2 by (by eapply lookup_lt_Some). f_equal.
    by destruct l.
  - apply lookup_ge_None in Hl.
    rewrite !(proj2 (lookup_ge_None _ _));
      [done|by rewrite length_replicate|by rewrite cont_broadcast_length].
Qed.

(** X17.  With [scale = 0.0] and no [n_obs], the result is a copy of
    [params], whatever its shape, for every source with finite draws,
    provided no element of [params] is [-0.0] (which [-0.0 + 0.0] turns into
    [+0.0]). *)
Theorem observation_model_zero_scale_copies w params rng g vals :
  nd_valid w params →
  nd_values w params = Some vals →
  source_state w rng = Some g →
  Forall (λ l, l ≠ S754_zero true) vals →
  (∀ i, i < length vals → fisfinite (nth_draw random_standard_normal i g) = true) →
  ∃ out w',
    observation_model params None (flit (0 # 1)) rng w = (inr out, w') ∧
    nd_shape out = nd_shape params ∧
    nd_values w' out = Some vals.
Proof.
  intros [Hst _] Hvals Hg Hnz Hz.
  destruct (observation_model_single_values w params (flit (0 # 1)) rng g vals Hst Hvals Hg)
    as (out & w' & Hrun & Hsh & Hout & _); [by vm_compute|].
  exists out, w'. split; [done|]. split; [done|]. rewrite Hout. f_equal.
  apply cont_broadcast_normal_fixed. intros i l Hl.
  apply zero_scale_fixed.
  - by eapply Forall_lookup_1 in Hnz.
  - apply Hz. by eapply lookup_lt_Some.
Qed.

End Scales.

(** ** The two stages of the simulator *)

Section Stages.
Context {G E : Type} `{!BitGen spec_float G E}.
Implicit Types (w : world spec_float G E).

Lemma nd_values_vector (m : gmap nat (list spec_float)) (gs : gmap nat G) (e : E) b xs n :
  m !! b = Some xs → length xs = n →
  nd_values (World m gs e) (NDArray b 0 [n] [1%Z]) = Some xs.
Proof.
  intros Hb <-. unfold nd_values. cbn [bufs nd_base nd_shape nd_strides nd_offset].
  rewrite Hb. apply mapM_read_contiguous.
Qed.

(** The run of [simulator], stage by stage: the store it ends in and the
    elements of its two vectors. *)
Lemma simulator_stages w :
  ∃ b1 b2 r1 r2 xs ys,
    simulator w =
      (inr (<["observables" := NDArray b2 0 [10] [1%Z]]>
              (<["parameters" := NDArray b1 0 [10] [1%Z]]> ∅)),
       World (<[b2 := ys]> (<[b1 := xs]> (bufs w)))
             (<[r2 := advance random_standard_normal 10
                        (os_seed (os_seed (entropy w)).2).1]>
                (<[r1 := advance next_double 10 (os_seed (entropy w)).1]> (gens w)))
             (os_seed (os_seed (entropy w)).2).2) ∧
    (b1 ∉ dom (bufs w)) ∧ (b2 ∉ dom (bufs w)) ∧ b1 ≠ b2 ∧
    (r1 ∉ dom (gens w)) ∧ (r2 ∉ dom (gens w)) ∧ r1 ≠ r2 ∧
    length xs = 10 ∧ length ys = 10 ∧
    (∀ i, i < 10 →
       xs !! i = Some (fadd (flit (-1 # 1))
                   (fmul (flit (2 # 1)) (nth_draw next_double i (os_seed (entropy w)).1)))) ∧
    (∀ i x, xs !! i = Some x →
       ys !! i = Some (fadd x (fmul (flit (1 # 10))
                   (nth_draw random_standard_normal i (os_seed (os_seed (entropy w)).2).1)))).
Proof.
  set (g1 := (os_seed (entropy w)).1).
  set (g2 := (os_seed (os_seed (entropy w)).2).1).
  pose proof (prior_run w default_D default_lower_bound default_upper_bound None g1)
    as Hprior.
  specialize (Hprior ltac:(by vm_compute) ltac:(by vm_compute) ltac:(done) eq_refl).
  change (Z.to_nat default_D) with 10 in Hprior.
  unfold seeded, source_ref in Hprior. cbn [gens entropy bufs] in Hprior.
  rewrite insert_insert_eq in Hprior.
  set (f := λ g, random_uniform g default_lower_bound
                   (fsub default_upper_bound default_lower_bound)) in *.
  assert (Hlx : length (cont_scalar f 10 g1).1 = 10) by apply cont_scalar_length.
  assert (Hxs : ∀ i, i < 10 →
            (cont_scalar f 10 g1).1 !! i =
              Some (fadd (flit (-1 # 1))
                      (fmul (flit (2 # 1)) (nth_draw next_double i g1)))).
  { intros i Hi. rewrite cont_scalar_lookup by done.
    unfold f. rewrite nth_draw_uniform. do 2 f_equal. }
  set (xs := (cont_scalar f 10 g1).1) in *. clearbody xs. clear f.
  set (b1 := fresh (dom (bufs w))) in *.
  set (r1 := fresh (dom (gens w))) in *.
  assert (Hb1 : b1 ∉ dom (bufs w)) by apply is_fresh.
  assert (Hr1 : r1 ∉ dom (gens w)) by apply is_fresh.
  clearbody b1 r1.
  set (gs1 := <[r1 := advance next_double 10 g1]> (gens w)) in *.
  set (bs1 := <[b1 := xs]> (bufs w)) in *.
  assert (Hread : mapM (read xs) (nd_addrs [10] [1%Z] 0) = Some xs).
  { rewrite <- Hlx at 1. apply mapM_read_contiguous. }
  assert (Hsc : non_negative (F := spec_float) default_scale = true) by (by vm_compute).
  pose proof (observation_model_single_run (World bs1 gs1 (os_seed (entropy w)).2)
                (NDArray b1 0 [10] [1%Z]) default_scale None
                g2 xs xs eq_refl (lookup_insert_eq _ _ _) Hread eq_refl Hsc) as Hobs.
  assert (Hys : ∀ i x, xs !! i = Some x →
            (cont_broadcast (λ g l, random_normal g l default_scale) xs g2).1 !! i =
              Some (fadd x (fmul (flit (1 # 10)) (nth_draw random_standard_normal i g2)))).
  { intros i x Hx. by apply cont_broadcast_normal_lookup. }
  assert (Hly : length (cont_broadcast (λ g l, random_normal g l default_scale) xs g2).1 = 10).
  { by rewrite cont_broadcast_length. }
  set (ys := (cont_broadcast (λ g l, random_normal g l default_scale) xs g2).1) in *.
  clearbody ys.
  unfold seeded, source_ref in Hobs.
  cbn [gens entropy bufs nd_shape c_strides size_of foldr] in Hobs.
  rewrite Hlx, insert_insert_eq in Hobs.
  set (b2 := fresh (dom bs1)) in *.
  set (r2 := fresh (dom gs1)) in *.
  assert (Hb2 : b2 ∉ dom bs1) by apply is_fresh.
  assert (Hr2 : r2 ∉ dom gs1) by apply is_fresh.
  clearbody b2 r2. unfold gs1 in Hr2. unfold bs1 in Hb2.
  rewrite dom_insert in Hb2. rewrite dom_insert in Hr2.
  exists b1, b2, r1, r2, xs, ys.
  split; [unfold simulator, bind; by rewrite Hprior, Hobs|].
  repeat split; try done; set_solver.
Qed.

(** X18.  [simulator] draws the parameters as [-1.0 + 2.0 * u_i] from a
    generator seeded from the entropy pool, and observable [i] as parameter
    [i] plus [0.1] times the [i]-th standard normal draw of a second
    generator, seeded next from the pool. *)
Theorem simulator_observables_around_parameters w :
  ∃ d w' p o xs ys,
    simulator w = (inr d, w') ∧
    d !! "parameters" = Some p ∧
    d !! "observables" = Some o ∧
    nd_values w' p = Some xs ∧
    nd_values w' o = Some ys ∧
    (∀ i, i < 10 →
       xs !! i = Some (fadd (flit (-1 # 1))
                   (fmul (flit (2 # 1)) (nth_draw next_double i (os_seed (entropy w)).1)))) ∧
    (∀ i x, xs !! i = Some x →
       ys !! i = Some (fadd x (fmul (flit (1 # 10))
                   (nth_draw random_standard_normal i (os_seed (os_seed (entropy w)).2).1)))).
Proof.
  destruct (simulator_stages w)
    as (b1 & b2 & r1 & r2 & xs & ys & Hrun & Hb1 & Hb2 & Hne & _ & _ & _ & Hlx & Hly & Hxs & Hys).
  eexists _, _, _, _, xs, ys. split; [exact Hrun|].
  split; [by rewrite lookup_insert_ne, lookup_insert_eq|].
  split; [by rewrite lookup_insert_eq|].
  split; [|split; [|done]].
  - apply nd_values_vector; [|done]. by rewrite lookup_insert_ne, lookup_insert_eq.
  - apply nd_values_vector; [|done]. apply lookup_insert_eq.
Qed.

(** X19.  [simulator] leaves every buffer and every generator of the store
    as it was; it takes two seeds from the entropy pool, one after the
    other, for two new generators: the first is left after ten uniform
    draws, the second after ten standard normal draws. *)
Theorem simulator_seeds_two_sources w :
  ∃ d w' r1 r2,
    simulator w = (inr d, w') ∧
    bufs w ⊆ bufs w' ∧
    gens w ⊆ gens w' ∧
    (r1 ∉ dom (gens w)) ∧ (r2 ∉ dom (gens w)) ∧ r1 ≠ r2 ∧
    gens w' !! r1 = Some (advance next_double 10 (os_seed (entropy w)).1) ∧
    gens w' !! r2 =
      Some (advance random_standard_normal 10 (os_seed (os_seed (entropy w)).2).1) ∧
    dom (gens w') = {[r2]} ∪ ({[r1]} ∪ dom (gens w)) ∧
    entropy w' = (os_seed (os_seed (entropy w)).2).2.
Proof.
  destruct (simulator_stages w)
    as (b1 & b2 & r1 & r2 & xs & ys & Hrun & Hb1 & Hb2 & Hne & Hr1 & Hr2 & Hr12 & _).
  eexists _, _, r1, r2. split; [exact Hrun|]. simpl.
  split; [|split; [|split; [done|split; [done|split; [done|split; [|split; [|split]]]]]]].
  - etrans; [apply (insert_subseteq _ b1 xs); by apply not_elem_of_dom|].
    apply insert_subseteq. rewrite lookup_insert_ne by done. by apply not_elem_of_dom.
  - etrans; [apply (insert_subseteq _ r1); by apply not_elem_of_dom|].
    apply insert_subseteq. rewrite lookup_insert_ne by done. by apply not_elem_of_dom.
  - rewrite lookup_insert_ne by done. apply lookup_insert_eq.
  - apply lookup_insert_eq.
  - by rewrite !dom_insert_L.
  - done.
Qed.

End Stages.

(** ** Examples of the properties above *)

Lemma prior_draws_in_order_witness :
  ∃ p w' vals,
    prior 3 (flit (-1 # 1)) (flit (1 # 1)) (Some 0) sample_world = (inr p, w') ∧
    nd_values w' p = Some vals ∧
    length vals = Z.to_nat 3 ∧
    (∀ i, i < Z.to_nat 3 →
       vals !! i = Some (fadd (flit (-1 # 1))
                     (fmul (fsub (flit (1 # 1)) (flit (-1 # 1))) (nth_draw next_double i 3)))) ∧
    gens w' !! source_ref sample_world (Some 0) =
      Some (advance (F := spec_float) next_double (Z.to_nat 3) 3).
Proof.
  apply (prior_draws_in_order sample_world 3%Z (flit (-1 # 1)) (flit (1 # 1)) (Some 0) 3).
  - by vm_compute.
  - by vm_compute.
  - done.
  - reflexivity.
Defined.

Lemma prior_rejected_dimension_witness :
  (∃ msg,
     prior (-1) (flit (-1 # 1)) (flit (1 # 1)) (Some 0) sample_world =
       (inl (ValueError msg), seeded sample_world (Some 0))) ∧
  (∃ msg,
     prior (2 ^ 60) (flit (-1 # 1)) (flit (1 # 1)) (Some 0) sample_world =
       (inl (ValueError msg), seeded sample_world (Some 0))).
Proof.
  split.
  - apply (prior_rejected_dimension sample_world (-1)%Z (flit (-1 # 1)) (flit (1 # 1)) (Some 0)).
    + by vm_compute.
    + by vm_compute.
    + left. reflexivity.
  - apply (prior_rejected_dimension sample_world (2 ^ 60)%Z (flit (-1 # 1)) (flit (1 # 1))
             (Some 0)).
    + by vm_compute.
    + by vm_compute.
    + right. reflexivity.
Defined.

Lemma prior_stream_continuity_witness :
  ∃ p1 w1 p2 w2 p w' xs ys,
    prior 1 (flit (-1 # 1)) (flit (1 # 1)) (Some 0) sample_world = (inr p1, w1) ∧
    prior 2 (flit (-1 # 1)) (flit (1 # 1)) (Some 0) w1 = (inr p2, w2) ∧
    prior (1 + 2) (flit (-1 # 1)) (flit (1 # 1)) (Some 0) sample_world = (inr p, w') ∧
    nd_values w2 p1 = Some xs ∧
    nd_values w2 p2 = Some ys ∧
    nd_values w' p = Some (xs ++ ys) ∧
    gens w2 !! 0 = gens w' !! 0.
Proof.
  apply (prior_stream_continuity sample_world 1%Z 2%Z (flit (-1 # 1)) (flit (1 # 1)) 0 3).
  - by vm_compute.
  - by vm_compute.
  - done.
  - done.
  - reflexivity.
  - reflexivity.
Defined.

Lemma prior_touches_only_its_source_witness :
  bufs sample_world_other ⊆
    bufs (prior 3 (flit (-1 # 1)) (flit (1 # 1)) None sample_world_other).2 ∧
  gens sample_world_other ⊆
    gens (prior 3 (flit (-1 # 1)) (flit (1 # 1)) None sample_world_other).2 ∧
  entropy (prior 3 (flit (-1 # 1)) (flit (1 # 1)) None sample_world_other).2 =
    (os_seed (F := spec_float) (entropy sample_world_other)).2.
Proof.
  apply (prior_touches_only_its_source sample_world_other 3%Z (flit (-1 # 1)) (flit (1 # 1))
           None (prior 3 (flit (-1 # 1)) (flit (1 # 1)) None sample_world_other).1
           (prior 3 (flit (-1 # 1)) (flit (1 # 1)) None sample_world_other).2).
  by destruct (prior 3 (flit (-1 # 1)) (flit (1 # 1)) None sample_world_other).
Defined.

Lemma observation_model_touches_only_its_source_witness :
  entropy (observation_model sample_batch (Some 2%Z) (flit (1 # 10)) (Some 0) sample_world).2 =
    entropy sample_world ∧
  ∀ r', r' ≠ 0 →
    gens (observation_model sample_batch (Some 2%Z) (flit (1 # 10)) (Some 0) sample_world).2
      !! r' = gens sample_world !! r'.
Proof.
  apply (observation_model_touches_only_its_source sample_world sample_batch (Some 2%Z)
           (flit (1 # 10)) (Some 0)
           (observation_model sample_batch (Some 2%Z) (flit (1 # 10)) (Some 0) sample_world).1
           (observation_model sample_batch (Some 2%Z) (flit (1 # 10)) (Some 0) sample_world).2).
  by destruct (observation_model sample_batch (Some 2%Z) (flit (1 # 10)) (Some 0) sample_world).
Defined.

Lemma prior_output_rejected_with_replicates_witness :
  ∃ p w1,
    prior 3 (flit (-1 # 1)) (flit (1 # 1)) (Some 0) sample_world = (inr p, w1) ∧
    observation_model p (Some 2%Z) (flit (1 # 10)) (Some 0) w1 =
      (inl (IndexError "tuple index out of range"), seeded w1 (Some 0)).
Proof.
  eexists _, _. split.
  - apply (prior_run sample_world 3%Z (flit (-1 # 1)) (flit (1 # 1)) (Some 0) 3);
      [by vm_compute|by vm_compute|done|reflexivity].
  - apply (prior_output_rejected_with_replicates sample_world 3%Z (flit (-1 # 1))
             (flit (1 # 1)) (Some 0)).
    apply (prior_run sample_world 3%Z (flit (-1 # 1)) (flit (1 # 1)) (Some 0) 3);
      [by vm_compute|by vm_compute|done|reflexivity].
Defined.

Lemma observation_model_zero_replicates_witness :
  ∃ out w',
    observation_model sample_batch (Some 0%Z) (flit (1 # 10)) (Some 0) sample_world
      = (inr out, w') ∧
    nd_shape out = [3; 0; 2] ∧
    nd_values w' out = Some [] ∧
    gens w' !! source_ref sample_world (Some 0) = Some 3.
Proof.
  apply (observation_model_zero_replicates sample_world sample_batch 3 2
           (flit (1 # 10)) (Some 0) 3).
  - reflexivity.
  - split; [reflexivity|]. vm_compute. eauto.
  - reflexivity.
  - reflexivity.
  - reflexivity.
Defined.

Lemma observation_model_rejected_replicates_witness :
  (∃ msg,
     observation_model sample_batch (Some (-1)%Z) (flit (1 # 10)) (Some 0) sample_world =
       (inl (ValueError msg), seeded sample_world (Some 0))) ∧
  (∃ msg,
     observation_model sample_batch (Some (2 ^ 63)%Z) (flit (1 # 10)) (Some 0) sample_world =
       (inl (ValueError msg), seeded sample_world (Some 0))).
Proof.
  split.
  - apply (observation_model_rejected_replicates sample_world sample_batch 3 2 [] (-1)%Z
             (flit (1 # 10)) (Some 0)).
    + reflexivity.
    + reflexivity.
    + left. reflexivity.
  - apply (observation_model_rejected_replicates sample_world sample_batch 3 2 [] (2 ^ 63)%Z
             (flit (1 # 10)) (Some 0)).
    + reflexivity.
    + reflexivity.
    + right. by vm_compute.
Defined.

Lemma observation_model_negative_scale_witness :
  observation_model sample_batch None (S754_zero true) (Some 0) sample_world =
    (inl (ValueError "scale < 0"), seeded sample_world (Some 0)).
Proof.
  apply (observation_model_negative_scale sample_world sample_batch None (S754_zero true)
           (Some 0)).
  - reflexivity.
  - reflexivity.
  - by left.
Defined.

Lemma observation_model_one_replicate_witness :
  ∃ o o1 w' vals,
    observation_model sample_batch None (flit (1 # 10)) (Some 0) sample_world = (inr o, w') ∧
    observation_model sample_batch (Some 1%Z) (flit (1 # 10)) (Some 0) sample_world
      = (inr o1, w') ∧
    nd_shape o = [3; 2] ∧
    nd_shape o1 = [3; 1; 2] ∧
    nd_values w' o = Some vals ∧
    nd_values w' o1 = Some vals.
Proof.
  apply (observation_model_one_replicate sample_world sample_batch 3 2
           (flit (1 # 10)) (Some 0) 3).
  - reflexivity.
  - split; [reflexivity|]. vm_compute. eauto.
  - reflexivity.
  - reflexivity.
  - reflexivity.
Defined.

Lemma prior_then_observation_shared_source_witness :
  ∃ p w1 o w2 xs ys,
    prior 3 (flit (-1 # 1)) (flit (1 # 1)) (Some 0) sample_world = (inr p, w1) ∧
    observation_model p None (flit (1 # 10)) (Some 0) w1 = (inr o, w2) ∧
    nd_values w2 p = Some xs ∧
    nd_values w2 o = Some ys ∧
    length xs = Z.to_nat 3 ∧
    length ys = Z.to_nat 3 ∧
    (∀ i x, xs !! i = Some x →
       ys !! i = Some (fadd x (fmul (flit (1 # 10))
                  (nth_draw random_standard_normal i
                     (advance (F := spec_float) next_double (Z.to_nat 3) 3))))) ∧
    gens w2 !! 0 =
      Some (advance (F := spec_float) random_standard_normal (Z.to_nat 3)
              (advance (F := spec_float) next_double (Z.to_nat 3) 3)).
Proof.
  apply (prior_then_observation_shared_source sample_world 3%Z (flit (-1 # 1)) (flit (1 # 1))
           (flit (1 # 10)) 0 3).
  - by vm_compute.
  - by vm_compute.
  - done.
  - by vm_compute.
  - reflexivity.
Defined.

Lemma prior_reversed_bounds_witness :
  prior 3 (flit (1 # 1)) (flit (-1 # 1)) (Some 0) sample_world =
    (inl (ValueError "high - low < 0"), seeded sample_world (Some 0)).
Proof.
  change (prior 3 (flit (1 # 1)) (flit (-1 # 1)) (Some 0) sample_world =
    (inl (if fisfinite (F := spec_float) (fsub (flit (-1 # 1)) (flit (1 # 1)))
          then ValueError "high - low < 0"
          else OverflowError "high - low range exceeds valid bounds"),
     seeded sample_world (Some 0))).
  apply (prior_reversed_bounds sample_world 3%Z (flit (1 # 1)) (flit (-1 # 1)) (Some 0));
    by vm_compute.
Defined.

Lemma prior_nonfinite_bound_witness :
  prior 3 (flit (-1 # 1)) (S754_infinity false) (Some 0) sample_world =
    (inl (OverflowError "high - low range exceeds valid bounds"), seeded sample_world (Some 0)).
Proof.
  apply (prior_nonfinite_bound sample_world 3%Z (flit (-1 # 1)) (S754_infinity false) (Some 0)).
  by right.
Defined.

Lemma prior_equal_bounds_witness :
  ∃ p w',
    prior 3 (flit (1 # 1)) (flit (1 # 1)) (Some 0) sample_world = (inr p, w') ∧
    nd_shape p = [Z.to_nat 3] ∧
    nd_values w' p = Some (replicate (Z.to_nat 3) (flit (1 # 1))).
Proof.
  apply (prior_equal_bounds sample_world 3%Z (flit (1 # 1)) (Some 0) 3).
  - by vm_compute.
  - by vm_compute.
  - done.
  - reflexivity.
  - intros i Hi. change (Z.to_nat 3) with 3 in Hi.
    destruct i as [|[|[|i]]]; [by vm_compute..|lia].
Defined.

Lemma prior_default_bounds_half_open_witness :
  ∃ p w' vals,
    prior 3 default_lower_bound default_upper_bound (Some 0) sample_world = (inr p, w') ∧
    nd_values w' p = Some vals ∧
    length vals = Z.to_nat 3 ∧
    Forall (λ x, in_half_open (F := spec_float) default_lower_bound default_upper_bound x
                 = true) vals.
Proof.
  apply (prior_default_bounds_half_open sample_world 3%Z (Some 0) 3).
  - done.
  - reflexivity.
  - intros i Hi. change (Z.to_nat 3) with 3 in Hi.
    destruct i as [|[|[|i]]]; [by vm_compute..|lia].
Defined.

Lemma observation_model_nan_scale_witness :
  ∃ out w',
    observation_model sample_batch None S754_nan (Some 0) sample_world = (inr out, w') ∧
    nd_shape out = nd_shape sample_batch ∧
    nd_values w' out =
      Some (replicate
              (length (flit (F := spec_float) <$> [1 # 1; 2 # 1; 3 # 1; 4 # 1; 5 # 1; 6 # 1]%Q))
              S754_nan).
Proof.
  apply (observation_model_nan_scale sample_world sample_batch S754_nan (Some 0) 3).
  - split; [reflexivity|]. vm_compute. eauto.
  - by vm_compute.
  - reflexivity.
  - reflexivity.
Defined.

Lemma observation_model_zero_scale_copies_witness :
  ∃ out w',
    observation_model sample_batch None (flit (0 # 1)) (Some 0) sample_world = (inr out, w') ∧
    nd_shape out = nd_shape sample_batch ∧
    nd_values w' out =
      Some (flit (F := spec_float) <$> [1 # 1; 2 # 1; 3 # 1; 4 # 1; 5 # 1; 6 # 1]%Q).
Proof.
  apply (observation_model_zero_scale_copies sample_world sample_batch (Some 0) 3).
  - split; [reflexivity|]. vm_compute. eauto.
  - by vm_compute.
  - reflexivity.
  - repeat constructor; by vm_compute.
  - intros i Hi.
    do 6 (destruct i as [|i]; [by vm_compute|]). simpl in Hi. lia.
Defined.
